(** * Elden Ring progress tracker: save-file decoding and cross-reference

    A shallow embedding of [assets/js/binaryParser.js] (class [BinaryParser])
    and of the tracker core (class [TrackerCore], with the part of
    [DataLoader] it calls), followed by the properties of the specification
    that were checked against them.

    Conventions of the embedding.
    - A typed array, an [ArrayBuffer] and an [Array] of byte values are lists
      of [byte]; indices and lengths are JavaScript numbers holding integers
      and are modelled in [Z].
    - [undefined] and [null] are [None].
    - A JavaScript string is a [string]: a sequence of code units below 256.
    - A double is a [spec_float] at precision 53 and maximal exponent 1024,
      computed with the operations of [SpecFloat].
    - A method that reads or writes [this], throws, or is caught runs in the
      monad [M] below: parser state, a log of the methods that ran, and an
      exception or a value.
    - An object used as a map is given by its own entries. What a name
      without an own entry gives is decided by [inherited_names], the
      properties of [Object.prototype] in the initial realm. *)

From Stdlib Require Import ZArith Lia Bool Ascii String.
From Stdlib Require Import Strings.Byte.
From Corelib Require Import SpecFloat.
From stdpp Require Import base option list strings gmap.

Local Open Scope Z_scope.

(** ** Byte sequences *)

Abbreviation bytes := (list byte).

Definition byteLength (b : bytes) : Z := Z.of_nat (length b).

(** Relative index of [slice] and [subarray]: a negative index counts from
    the end, and the result is clamped to [0 .. len]. *)
Definition clamp_index (len k : Z) : Z :=
  if k <? 0 then Z.max (len + k) 0 else Z.min k len.

(** [Array.prototype.slice], [ArrayBuffer.prototype.slice] and
    [TypedArray.prototype.subarray] select the same elements; none of them
    fails on an index that is out of range. *)
Definition slice {A : Type} (l : list A) (b e : Z) : list A :=
  let len := Z.of_nat (length l) in
  let from := clamp_index len b in
  let to := clamp_index len e in
  take (Z.to_nat (to - from)) (drop (Z.to_nat from) l).

Definition subarray (l : bytes) (b e : Z) : bytes := slice l b e.

(** [a[i]]: the element, or [undefined] out of range. *)
Definition index {A : Type} (l : list A) (i : Z) : option A :=
  if i <? 0 then None else l !! Z.to_nat i.

(** Element of an [Int8Array] built over a byte. *)
Definition toInt8 (b : byte) : Z :=
  let n := Z.of_N (Byte.to_N b) in
  if n <? 128 then n else n - 256.

(** ** [BinaryParser]: constants of the constructor *)

Definition PATTERN_NORMAL : bytes :=
  [xb0; xad; x01; x00; x01; xff; xff; xff]%byte.
Definition PATTERN_DLC : bytes := [xb0; xad; x01; x00; x01]%byte.
(** [new Int8Array([66, 78, 68, 52])], the bytes of "BND4". *)
Definition FILE_SIGNATURE : bytes := [x42; x4e; x44; x34]%byte.

(** ** Pure methods of [BinaryParser] *)

(** The loop of [bufferEqual] over two arrays of one length. *)
Fixpoint int8_equal (dv1 dv2 : list Z) : bool :=
  match dv1, dv2 with
  | x :: dv1', y :: dv2' => if x =? y then int8_equal dv1' dv2' else false
  | _, _ => true
  end.

Definition bufferEqual (buf1 buf2 : bytes) : bool :=
  if negb (byteLength buf1 =? byteLength buf2) then false
  else int8_equal (toInt8 <$> buf1) (toInt8 <$> buf2).

Definition validateFile (fileData : bytes) : bool :=
  let signature := slice fileData 0 4 in
  bufferEqual signature FILE_SIGNATURE.

(** [buffer[i] === pattern[0]] on two values that are a byte or [undefined]. *)
Definition strict_eq (x y : option byte) : bool :=
  match x, y with
  | Some a, Some b => Byte.eqb a b
  | None, None => true
  | _, _ => false
  end.

(** The [for] loop of [findPattern] from index [i]; [fuel] bounds the number
    of iterations, [byteLength buffer - i] of them are ever taken. *)
Fixpoint findPattern_from (fuel : nat) (buffer pattern : bytes) (i : Z)
  : option Z :=
  match fuel with
  | O => None
  | S fuel' =>
      if i <? byteLength buffer then
        if strict_eq (index buffer i) (index pattern 0)
           && bufferEqual (subarray buffer i (i + byteLength pattern)) pattern
        then Some i
        else findPattern_from fuel' buffer pattern (i + 1)
      else None
  end.

Definition findPattern (buffer pattern : bytes) : option Z :=
  findPattern_from (length buffer) buffer pattern 0.

(** The ten windows of [getSlots], as (start, end) with the end excluded. *)
Definition slot_windows : list (Z * Z) :=
  [ (0x00000310, 0x0028030f + 1);
    (0x00280320, 0x0050031f + 1);
    (0x00500330, 0x0078032f + 1);
    (0x00780340, 0x00a0033f + 1);
    (0x00a00350, 0x00c8034f + 1);
    (0x00c80360, 0x00f0035f + 1);
    (0x00f00370, 0x0118036f + 1);
    (0x01180380, 0x0140037f + 1);
    (0x01400390, 0x0168038f + 1);
    (0x016803a0, 0x0190039f + 1) ].

Definition getSlots (fileData : bytes) : list bytes :=
  (fun w => subarray fileData (fst w) (snd w)) <$> slot_windows.

(** The [for] loop of [splitIntoChunks] from index [i]. The loop advances by
    [chunkSize]; with [chunkSize >= 1] it ends within [length array - i]
    iterations, which [fuel] bounds. *)
Fixpoint splitIntoChunks_from {A : Type} (fuel : nat) (array : list A)
    (chunkSize i : Z) : list (list A) :=
  match fuel with
  | O => []
  | S fuel' =>
      if i <? Z.of_nat (length array) then
        slice array i (i + chunkSize)
          :: splitIntoChunks_from fuel' array chunkSize (i + chunkSize)
      else []
  end.

Definition splitIntoChunks {A : Type} (array : list A) (chunkSize : Z)
  : list (list A) :=
  splitIntoChunks_from (length array) array chunkSize 0.

(** ** Identifier rendering *)

Definition hex_digit (d : N) : ascii :=
  match d with
  | 0 => "0" | 1 => "1" | 2 => "2" | 3 => "3" | 4 => "4" | 5 => "5"
  | 6 => "6" | 7 => "7" | 8 => "8" | 9 => "9" | 10 => "a" | 11 => "b"
  | 12 => "c" | 13 => "d" | 14 => "e" | _ => "f"
  end%N%char.

(** Digits of [n] in base 16, most significant first, in front of [acc]. *)
Fixpoint toString16_from (fuel : nat) (n : N) (acc : string) : string :=
  match fuel with
  | O => acc
  | S fuel' =>
      let acc' := String (hex_digit (n mod 16)) acc in
      if (n / 16 =? 0)%N then acc' else toString16_from fuel' (n / 16)%N acc'
  end.

(** [Number(decimal).toString(16)] on a byte value or on [undefined], which
    [Number] turns into [NaN]. *)
Definition Number_toString16 (decimal : option byte) : string :=
  match decimal with
  | Some b => let n := Byte.to_N b in toString16_from (S (N.size_nat n)) n ""
  | None => "NaN"
  end.

(** The [while] loop of [decimalToHex]; it runs at most [padding] times. *)
Fixpoint pad_left (fuel : nat) (hex : string) (padding : Z) : string :=
  match fuel with
  | O => hex
  | S fuel' =>
      if Z.of_nat (String.length hex) <? padding
      then pad_left fuel' ("0" +:+ hex) padding
      else hex
  end.

Definition decimalToHex (decimal : option byte) (padding : Z) : string :=
  let hex := Number_toString16 decimal in
  pad_left (Z.to_nat padding) hex padding.

(** [toUpperCase] on the code units that can occur in [hexId]: the letters
    a to z are raised, every other code unit is kept. *)
Definition upper_ascii (c : ascii) : ascii :=
  let n := N_of_ascii c in
  if ((97 <=? n) && (n <=? 122))%N then ascii_of_N (n - 32) else c.

Fixpoint toUpperCase (s : string) : string :=
  match s with
  | EmptyString => EmptyString
  | String c s' => String (upper_ascii c) (toUpperCase s')
  end.

Definition convertIdToHex (idBytes : list byte) : string :=
  let reversed := rev (slice idBytes 0 4) in
  let hexId :=
    foldl (fun hexId i => hexId +:+ decimalToHex (index reversed i) 2)
          "" [0; 1; 2; 3] in
  toUpperCase hexId.

(** Lines 186 to 191 of [parseInventory]: the identifiers of a located
    inventory range, in the layout that [isDlcFile] selects. *)
Definition decodeInventory (isDlcFile : bool) (inventoryData : bytes)
  : list string :=
  let inventory := inventoryData in
  let chunkSize := if isDlcFile then 8 else 16 in
  let chunks := splitIntoChunks inventory chunkSize in
  convertIdToHex <$> chunks.

(** ** The parser object and its effects *)

Record BinaryParser := {
  isDlcFile : bool;
  fileData : option bytes
}.

(** [new BinaryParser()]. *)
Definition new_BinaryParser : BinaryParser :=
  {| isDlcFile := false; fileData := None |}.

(** Exceptions raised by the operations the parser uses. *)
Inductive exn :=
| TypeError_undefined (property : string)
| RangeError_Uint16Array
| Error (message : string).

(** [error.message]; the wording of the first two is the engine's. *)
Definition message (e : exn) : string :=
  match e with
  | TypeError_undefined p =>
      "Cannot read properties of undefined (reading '" +:+ p +:+ "')"
  | RangeError_Uint16Array =>
      "byte length of Uint16Array should be a multiple of 2"
  | Error m => m
  end.

(** Methods and effects whose execution the log records. *)
Inductive call :=
| ValidateFile | GetCharacterNames | GetSlots | GetInventory | ConsoleError.

Inductive outcome (A : Type) :=
| Returned (a : A)
| Thrown (e : exn).
Arguments Returned {A} a.
Arguments Thrown {A} e.

Definition M (A : Type) : Type :=
  BinaryParser -> list call -> outcome A * BinaryParser * list call.

Definition ret {A : Type} (a : A) : M A :=
  fun this log => (Returned a, this, log).

Definition bind {A B : Type} (m : M A) (k : A -> M B) : M B :=
  fun this log =>
    match m this log with
    | (Returned a, this', log') => k a this' log'
    | (Thrown e, this', log') => (Thrown e, this', log')
    end.

Definition throw {A : Type} (e : exn) : M A :=
  fun this log => (Thrown e, this, log).

(** [try { body } catch (error) { handler }]. *)
Definition try_catch {A : Type} (body : M A) (handler : exn -> M A) : M A :=
  fun this log =>
    match body this log with
    | (Returned a, this', log') => (Returned a, this', log')
    | (Thrown e, this', log') => handler e this' log'
    end.

Definition enter (c : call) : M unit :=
  fun this log => (Returned tt, this, log ++ [c]).

Definition read_isDlcFile : M bool :=
  fun this log => (Returned (isDlcFile this), this, log).

Definition write_isDlcFile (b : bool) : M unit :=
  fun this log =>
    (Returned tt, {| isDlcFile := b; fileData := fileData this |}, log).

Definition write_fileData (d : bytes) : M unit :=
  fun this log =>
    (Returned tt, {| isDlcFile := isDlcFile this; fileData := Some d |}, log).

Notation "x <- m ;; k" := (bind m (fun x => k))
  (at level 100, m at next level, right associativity).
Notation "m ;;; k" := (bind m (fun _ => k))
  (at level 100, right associativity).

Fixpoint mapM {A B : Type} (f : A -> M B) (l : list A) : M (list B) :=
  match l with
  | [] => ret []
  | a :: l' => b <- f a ;; bs <- mapM f l' ;; ret (b :: bs)
  end.

(** ** Character names *)

(** [TextDecoder("utf-8").decode], a service of the platform. *)
Class TextDecoder := decode : bytes -> string.

(** [new Uint16Array(bytes)] on a little-endian host: one element for each
    pair of bytes, and a [RangeError] when a byte is left over. *)
Fixpoint Uint16Array_of (data : bytes) : option (list Z) :=
  match data with
  | [] => Some []
  | [_] => None
  | lo :: hi :: rest =>
      (fun elts => Z.of_N (Byte.to_N lo) + 256 * Z.of_N (Byte.to_N hi) :: elts)
        <$> Uint16Array_of rest
  end.

(** Element of [new Int8Array(numbers)] for one number: its low 8 bits. *)
Definition Int8Array_byte (n : Z) : byte :=
  match Byte.of_N (Z.to_N (n mod 256)) with
  | Some b => b
  | None => x00
  end.

(** [replaceAll("\x00", "")]. *)
Fixpoint remove_nul (s : string) : string :=
  match s with
  | EmptyString => EmptyString
  | String c s' =>
      if Ascii.eqb c zero then remove_nul s' else String c (remove_nul s')
  end.

Definition name_offsets : list Z :=
  [ 0x1901d0e; 0x1901f5a; 0x19021a6; 0x19023f2; 0x190263e;
    0x190288a; 0x1902ad6; 0x1902d22; 0x1902f6e; 0x19031ba ].

Definition getCharacterNames `{TextDecoder} (fileData : bytes)
  : M (list string) :=
  enter GetCharacterNames ;;;
  mapM (fun offset =>
          match Uint16Array_of (slice fileData offset (offset + 32)) with
          | None => throw RangeError_Uint16Array
          | Some units =>
              let nameData := Int8Array_byte <$> units in
              ret (remove_nul (decode nameData))
          end)
       name_offsets.

(** ** Inventory location *)

(** The end of [getInventory], from the computed start [index]. *)
Definition inventory_range (slot : bytes) (index : Z) : option bytes :=
  let endPattern := replicate 50 x00 in
  match findPattern (subarray slot index (byteLength slot)) endPattern with
  | None => None
  | Some endIndex => Some (subarray slot index (index + endIndex + 6))
  end.

(** [getInventory(slot)]. On [undefined] the first [findPattern] throws when
    it reads [buffer.byteLength]. *)
Definition getInventory (slot : option bytes) : M (option bytes) :=
  enter GetInventory ;;;
  match slot with
  | None => throw (TypeError_undefined "byteLength")
  | Some slot =>
      match findPattern slot PATTERN_NORMAL with
      | Some index =>
          let index := index + byteLength PATTERN_NORMAL + 8 in
          write_isDlcFile false ;;;
          ret (inventory_range slot index)
      | None =>
          match findPattern slot PATTERN_DLC with
          | Some index =>
              let index := index + byteLength PATTERN_DLC + 3 in
              write_isDlcFile true ;;;
              ret (inventory_range slot index)
          | None => ret None
          end
      end
  end.

(** ** Entry points of the parser *)

Inductive ParseResult :=
| ParseFailure (error : string)
| ParseSuccess (ids : list string) (isDlc : bool)
               (characterName : option string) (totalItems : Z).

Definition success (r : ParseResult) : bool :=
  match r with
  | ParseSuccess _ _ _ _ => true
  | ParseFailure _ => false
  end.

Definition parseInventory `{TextDecoder} (fileData : bytes) (slotIndex : Z)
  : M ParseResult :=
  try_catch
    (enter ValidateFile ;;;
     if negb (validateFile fileData)
     then ret (ParseFailure "Invalid save file format")
     else
       write_fileData fileData ;;;
       let savesArray := fileData in
       characterNames <- getCharacterNames fileData ;;
       let characterName := index characterNames slotIndex in
       enter GetSlots ;;;
       let slots := getSlots savesArray in
       inventoryData <- getInventory (index slots slotIndex) ;;
       match inventoryData with
       | None => ret (ParseFailure "Could not find inventory data in slot")
       | Some inventoryData =>
           isDlc <- read_isDlcFile ;;
           let itemIds := decodeInventory isDlc inventoryData in
           ret (ParseSuccess itemIds isDlc characterName
                             (Z.of_nat (length itemIds)))
       end)
    (fun error => enter ConsoleError ;;; ret (ParseFailure (message error))).

Inductive NamesResult :=
| NamesFailure (error : string)
| NamesSuccess (names : list string).

Definition getSlotNames `{TextDecoder} (fileData : bytes) : M NamesResult :=
  try_catch
    (enter ValidateFile ;;;
     if negb (validateFile fileData)
     then ret (NamesFailure "Invalid save file format")
     else
       names <- getCharacterNames fileData ;;
       ret (NamesSuccess names))
    (fun error => enter ConsoleError ;;; ret (NamesFailure (message error))).

(** ** Numbers of the tracker core *)

Definition prec : Z := 53.
Definition emax : Z := 1024.

(** The double that holds an integer. *)
Definition Number (n : Z) : spec_float := binary_normalize prec emax n 0 false.

(** [Math.round]: the nearest integer, a half going up. The value of a finite
    double [m * 2^e] is rounded exactly; a zero result keeps the sign. *)
Definition Math_round (x : spec_float) : spec_float :=
  match x with
  | S754_finite s m e =>
      let v := if s then Z.neg m else Z.pos m in
      let n := if 0 <=? e then v * 2 ^ e
               else (2 * v + 2 ^ (- e)) / 2 ^ (1 - e) in
      binary_normalize prec emax n 0 s
  | _ => x
  end.

(** [total > 0 ? Math.round((owned / total) * 100) : 0]. *)
Definition percentage_of (owned total : Z) : spec_float :=
  if 0 <? total
  then Math_round (SFmul prec emax
                     (SFdiv prec emax (Number owned) (Number total))
                     (Number 100))
  else Number 0.

(** ** Category of an identifier *)

(** White space that [parseInt] skips, among the code units below 256. *)
Definition is_white_space (c : ascii) : bool :=
  let n := N_of_ascii c in
  ((9 <=? n) && (n <=? 13) || (n =? 32) || (n =? 160))%N.

Fixpoint trim_start (s : string) : string :=
  match s with
  | String c s' => if is_white_space c then trim_start s' else s
  | EmptyString => s
  end.

Definition hex_value (c : ascii) : option Z :=
  let n := Z.of_N (N_of_ascii c) in
  if (48 <=? n) && (n <=? 57) then Some (n - 48)
  else if (65 <=? n) && (n <=? 70) then Some (n - 55)
  else if (97 <=? n) && (n <=? 102) then Some (n - 87)
  else None.

(** Value of the longest prefix of base-16 digits, with [acc] the value of
    the digits read so far; [None] while no digit was read. *)
Fixpoint parse_digits16 (s : string) (acc : option Z) : option Z :=
  match s with
  | String c s' =>
      match hex_value c with
      | Some d => parse_digits16 s' (Some (16 * default 0 acc + d))
      | None => acc
      end
  | EmptyString => acc
  end.

(** [parseInt(string, 16)]; [None] is [NaN]. The result of [parseInt] is the
    double nearest to the integer computed here. Rounding to the nearest
    double is monotone and keeps every integer below 2^53, so a comparison
    with one of the bounds of [determineCategory] has the same answer on the
    double and on the integer. *)
Definition parseInt16 (s : string) : option Z :=
  let trimmed := trim_start s in
  let '(sign, unsigned) :=
    match trimmed with
    | String "-" r => (-1, r)
    | String "+" r => (1, r)
    | _ => (1, trimmed)
    end in
  let digits :=
    match unsigned with
    | String "0" (String "x" r) => r
    | String "0" (String "X" r) => r
    | _ => unsigned
    end in
  (fun v => sign * v) <$> parse_digits16 digits None.

(** [id >= lo && id <= hi]; both comparisons are false on [NaN]. *)
Definition between (id : option Z) (lo hi : Z) : bool :=
  match id with
  | Some v => (lo <=? v) && (v <=? hi)
  | None => false
  end.

Definition determineCategory (itemId : string) : string :=
  let id := parseInt16 itemId in
  if between id 0x00F42400 0x017D7840 then "Weapons"
  else if between id 0x10000000 0x14000000 then "Armor"
  else if between id 0x20000000 0x24000000 then "Talismans"
  else if between id 0x40000000 0x48000000 then "Magic"
  else if between id 0x80000000 0x88000000 then "Ashes of War"
  else if between id 0x90000000 0x98000000 then "Spirit Ashes"
  else if between id 0x400007F0 0x40000850 then "Bell Bearings"
  else if between id 0x40002400 0x40002500 then "Cookbooks"
  else if between id 0x40000BC0 0x40000BF0 then "Crystal Tears"
  else if between id 0x40000000 0x40001000 then "Key Items"
  else "Other".

(** ** Catalog and enriched items *)

(** An entry of the location data. Every entry has a name; another field
    that the JSON leaves out is [None]. *)
Module Entry.
Record t := {
  name : string;
  type : option string;
  hint : option string;
  multiple : option bool
}.
End Entry.

(** An object of the location data, as [Object.entries] enumerates it. *)
Definition items_object := list (string * Entry.t).
Definition subregions_object := list (string * items_object).
Definition catalog := list (string * subregions_object).

(** The cache of [DataLoader] that [getMergedData] reads. *)
Record DataLoader := {
  locationData : option catalog;
  dlcData : option catalog
}.

(** The value of key [k] in an enumerated object. *)
Definition assoc {V : Type} (k : string) (o : list (string * V)) : option V :=
  (snd ∘ snd) <$> list_find (fun kv => fst kv = k) o.

(** [{ ...base, ...dlc }] on the enumerations of two objects whose keys are
    not array indices: the keys of [base] keep their place and take the value
    of [dlc] when it has one, the other keys of [dlc] follow. *)
Definition spread {V : Type} (base dlc : list (string * V))
  : list (string * V) :=
  ((fun kv => (fst kv, default (snd kv) (assoc (fst kv) dlc))) <$> base)
  ++ filter (fun kv => assoc (fst kv) base = None) dlc.

Definition getMergedData (this : DataLoader) (includeDLC : bool)
  : outcome catalog :=
  match locationData this with
  | None => Thrown (Error "Location data not loaded yet")
  | Some base =>
      match includeDLC, dlcData this with
      | true, Some dlc => Returned (spread base dlc)
      | _, _ => Returned base
      end
  end.

Module Item.
Record t := {
  id : string;
  name : string;
  owned : bool;
  region : string;
  subregion : string;
  type : string;
  hint : string;
  farmable : bool;
  wikiUrl : string
}.
End Item.

(** [value || fallback] on an optional string: the empty string is falsy. *)
Definition or_string (value : option string) (fallback : string) : string :=
  match value with
  | Some (String c s) => String c s
  | _ => fallback
  end.

(** [value || false] on an optional boolean. *)
Definition or_false (value : option bool) : bool :=
  match value with
  | Some true => true
  | _ => false
  end.

Definition is_digit (c : ascii) : bool :=
  let n := N_of_ascii c in ((48 <=? n) && (n <=? 57))%N.

Fixpoint span_digits (l : list ascii) : list ascii * list ascii :=
  match l with
  | c :: l' =>
      if is_digit c
      then let '(ds, rest) := span_digits l' in (c :: ds, rest)
      else ([], l)
  | [] => ([], [])
  end.

(** [replace(/ \+\d+$/, "")]: a match is a space, a plus sign and the whole
    run of digits that ends the name. *)
Definition strip_upgrade (itemName : string) : string :=
  match span_digits (rev (list_ascii_of_string itemName)) with
  | (_ :: _, "+" :: " " :: rest)%char => string_of_list_ascii (rev rest)
  | _ => itemName
  end.

(** [replace(/ /g, '+')]. *)
Fixpoint spaces_to_plus (s : string) : string :=
  match s with
  | String c s' =>
      String (if Ascii.eqb c " " then "+"%char else c) (spaces_to_plus s')
  | EmptyString => EmptyString
  end.

Definition generateWikiUrl (itemName : string) : string :=
  let cleanName := strip_upgrade itemName in
  let urlName := spaces_to_plus cleanName in
  "https://eldenring.wiki.fextralife.com/" +:+ urlName.

(** ** Statistics *)

Module Group.
Record t := {
  total : Z;
  owned : Z;
  missing : Z;
  percentage : spec_float
}.
End Group.

(** The object [stats]; the constructor leaves [regions] out. *)
Module Stats.
Record t := {
  total : Z;
  owned : Z;
  missing : Z;
  percentage : spec_float;
  categories : gmap string Group.t;
  regions : option (gmap string Group.t)
}.
End Stats.

(** The fields of [TrackerCore] that the methods below read or write. *)
Record TrackerCore := {
  dataLoader : DataLoader;
  inventoryIds : list string;
  enrichedItems : list Item.t;
  stats : Stats.t
}.

(** The constructor, on the loader it creates. *)
Definition new_TrackerCore (loader : DataLoader) : TrackerCore :=
  {| dataLoader := loader;
     inventoryIds := [];
     enrichedItems := [];
     stats := {| Stats.total := 0;
                 Stats.owned := 0;
                 Stats.missing := 0;
                 Stats.percentage := Number 0;
                 Stats.categories := ∅;
                 Stats.regions := None |} |}.

Definition enrich (ownedIdSet : gset string) (region subregion itemId : string)
    (itemData : Entry.t) : Item.t :=
  let isOwned := bool_decide (itemId ∈ ownedIdSet) in
  {| Item.id := itemId;
     Item.name := Entry.name itemData;
     Item.owned := isOwned;
     Item.region := region;
     Item.subregion := subregion;
     Item.type := or_string (Entry.type itemData) "unknown";
     Item.hint := or_string (Entry.hint itemData) "";
     Item.farmable := or_false (Entry.multiple itemData);
     Item.wikiUrl := generateWikiUrl (Entry.name itemData) |}.

Definition crossReference (this : TrackerCore) (includeDLC : bool)
  : outcome (list Item.t) :=
  match getMergedData (dataLoader this) includeDLC with
  | Thrown e => Thrown e
  | Returned locationData =>
      let ownedIdSet : gset string := list_to_set (inventoryIds this) in
      Returned
        ('(region, subregions) ← locationData;
         '(subregion, items) ← subregions;
         '(itemId, itemData) ← items;
         [enrich ownedIdSet region subregion itemId itemData])
  end.

(** The assignment [this.enrichedItems = items] of [processSaveFile]. *)
Definition with_items (this : TrackerCore) (items : list Item.t)
  : TrackerCore :=
  {| dataLoader := dataLoader this;
     inventoryIds := inventoryIds this;
     enrichedItems := items;
     stats := stats this |}.

(** The names of the properties that every object inherits from
    [Object.prototype]. On an object without an own property of such a
    name, [o[name]] is the inherited value, a function or, for [__proto__],
    the prototype itself: a truthy value. For every other name [o[name]] is
    [undefined], the prototype having no other truthy property. *)
Definition inherited_names : list string :=
  ["constructor"; "hasOwnProperty"; "isPrototypeOf"; "propertyIsEnumerable";
   "toLocaleString"; "toString"; "valueOf"; "__proto__";
   "__defineGetter__"; "__defineSetter__"; "__lookupGetter__";
   "__lookupSetter__"].

Definition inherited (key : string) : bool :=
  bool_decide (key ∈ inherited_names).

(** One step of the [forEach] of [calculateCategoryStats] and of
    [calculateRegionalStats] on the own entries of [groups]. The test
    [!groups[key]] creates the counters of [key] at zero when [groups[key]]
    is falsy. On an inherited name [groups[key]] is the inherited value: no
    entry is created, and the increments go to the properties [total],
    [owned] or [missing] of that value, never to [groups]. *)
Definition count_item (key : string) (owned : bool)
    (groups : gmap string (Z * Z * Z)) : gmap string (Z * Z * Z) :=
  if inherited key then groups
  else
    let '(total, nowned, missing) := default (0, 0, 0) (groups !! key) in
    <[key := (total + 1,
              if owned then nowned + 1 else nowned,
              if owned then missing else missing + 1)]> groups.

(** The loop over [Object.entries] that adds the percentages. *)
Definition with_percentage (counts : Z * Z * Z) : Group.t :=
  let '(total, owned, missing) := counts in
  {| Group.total := total; Group.owned := owned; Group.missing := missing;
     Group.percentage := percentage_of owned total |}.

Definition calculateCategoryStats (this : TrackerCore)
  : gmap string Group.t :=
  let categories :=
    foldl (fun categories item =>
             let category := determineCategory (Item.id item) in
             count_item category (Item.owned item) categories)
          ∅ (enrichedItems this) in
  with_percentage <$> categories.

Definition calculateRegionalStats (this : TrackerCore)
  : gmap string Group.t :=
  let regions :=
    foldl (fun regions item =>
             count_item (Item.region item) (Item.owned item) regions)
          ∅ (enrichedItems this) in
  with_percentage <$> regions.

Definition calculateStats (this : TrackerCore) : TrackerCore :=
  let total := Z.of_nat (length (enrichedItems this)) in
  let owned := Z.of_nat (length (filter (fun item => Item.owned item = true)
                                        (enrichedItems this))) in
  let missing := total - owned in
  let percentage := percentage_of owned total in
  {| dataLoader := dataLoader this;
     inventoryIds := inventoryIds this;
     enrichedItems := enrichedItems this;
     stats := {| Stats.total := total;
                 Stats.owned := owned;
                 Stats.missing := missing;
                 Stats.percentage := percentage;
                 Stats.categories := calculateCategoryStats this;
                 Stats.regions := Some (calculateRegionalStats this) |} |}.

(** ** Filtering *)

Module Criteria.
Record t := {
  status : option string;
  region : option string;
  category : option string;
  search : option string
}.
End Criteria.

(** Truth value of an optional string in a condition: [undefined], [null]
    and the empty string are falsy. *)
Definition truthy (value : option string) : bool :=
  match value with
  | Some (String _ _) => true
  | _ => false
  end.

(** [toLowerCase] on a code unit below 256. *)
Definition lower_unit (c : ascii) : ascii :=
  let n := N_of_ascii c in
  if ((65 <=? n) && (n <=? 90)
      || (192 <=? n) && (n <=? 222) && negb (n =? 215))%N
  then ascii_of_N (n + 32) else c.

Fixpoint toLowerCase (s : string) : string :=
  match s with
  | String c s' => String (lower_unit c) (toLowerCase s')
  | EmptyString => EmptyString
  end.

(** [s.includes(sub)]. *)
Fixpoint includes (s sub : string) : bool :=
  String.prefix sub s
  || match s with
     | String _ s' => includes s' sub
     | EmptyString => false
     end.

Definition filterItems (this : TrackerCore) (criteria : Criteria.t)
  : list Item.t :=
  let filtered := enrichedItems this in
  let filtered :=
    if bool_decide (Criteria.status criteria = Some "owned")
    then filter (fun item => Item.owned item = true) filtered
    else if bool_decide (Criteria.status criteria = Some "missing")
    then filter (fun item => negb (Item.owned item) = true) filtered
    else filtered in
  let filtered :=
    if truthy (Criteria.region criteria)
    then filter (fun item => Some (Item.region item) = Criteria.region criteria)
                filtered
    else filtered in
  let filtered :=
    if truthy (Criteria.category criteria)
    then filter (fun item => Some (determineCategory (Item.id item))
                             = Criteria.category criteria)
                filtered
    else filtered in
  let filtered :=
    if truthy (Criteria.search criteria)
    then
      let searchLower := toLowerCase (default "" (Criteria.search criteria)) in
      filter (fun item => includes (toLowerCase (Item.name item)) searchLower
                          = true)
             filtered
    else filtered in
  filtered.

(** ** Notions of the specification *)

(** Value of the first four bytes of a record read as a little-endian
    32-bit quantity. *)
Definition le32 (record : bytes) : N :=
  match Byte.to_N <$> take 4 record with
  | [b0; b1; b2; b3] => (b0 + 256 * b1 + 65536 * b2 + 16777216 * b3)%N
  | _ => 0%N
  end.

Definition upper_hex_digit (d : N) : ascii :=
  match d with
  | 0 => "0" | 1 => "1" | 2 => "2" | 3 => "3" | 4 => "4" | 5 => "5"
  | 6 => "6" | 7 => "7" | 8 => "8" | 9 => "9" | 10 => "A" | 11 => "B"
  | 12 => "C" | 13 => "D" | 14 => "E" | _ => "F"
  end%N%char.

(** The canonical identifier of a 32-bit quantity: eight upper-case
    hexadecimal digits, most significant first. *)
Definition hex8 (n : N) : string :=
  string_of_list_ascii
    ((fun k => upper_hex_digit ((n / 16 ^ k) mod 16)%N)
       <$> [7; 6; 5; 4; 3; 2; 1; 0]%N).

Definition upper_hex_value (c : ascii) : option N :=
  let n := N_of_ascii c in
  if ((48 <=? n) && (n <=? 57))%N then Some (n - 48)%N
  else if ((65 <=? n) && (n <=? 70))%N then Some (n - 55)%N
  else None.

(** Reading an identifier back: each pair of upper-case hexadecimal digits
    is one byte. *)
Fixpoint bytes_of_hex (s : string) : option (list byte) :=
  match s with
  | EmptyString => Some []
  | String hi (String lo s') =>
      h ← upper_hex_value hi;
      l ← upper_hex_value lo;
      b ← Byte.of_N (16 * h + l);
      bs ← bytes_of_hex s';
      Some (b :: bs)
  | String _ EmptyString => None
  end.

(** The chunks that the specification keeps: the chunks of full width. *)
Fixpoint full_chunks {A : Type} (fuel : nat) (width : nat) (range : list A)
  : list (list A) :=
  match fuel with
  | O => []
  | S fuel' =>
      if (length range <? width)%nat then []
      else take width range :: full_chunks fuel' width (drop width range)
  end.

(** The chunks of a list taken from its front, the last one as long as what
    is left. *)
Fixpoint chunks_of {A : Type} (fuel : nat) (width : nat) (range : list A)
  : list (list A) :=
  match fuel, range with
  | S fuel', _ :: _ =>
      take width range :: chunks_of fuel' width (drop width range)
  | _, _ => []
  end.

(** What is left of a list after its chunks of full width, as a list of at
    most one chunk. *)
Definition partial_chunk {A : Type} (width : nat) (range : list A)
  : list (list A) :=
  let r := (length range mod width)%nat in
  if (r =? 0)%nat then [] else [drop (length range - r) range].

Definition record_width (isDlcFile : bool) : nat :=
  if isDlcFile then 8%nat else 16%nat.

(** Decoding as the specification words it: the identifiers of the full
    chunks, a shorter last chunk giving none. *)
Definition decode_full_chunks (isDlcFile : bool) (range : bytes)
  : list string :=
  convertIdToHex
    <$> full_chunks (length range) (record_width isDlcFile) range.

(** A slot made of the standard marker, the bytes that the start skips, the
    records and the terminator. *)
Definition synthetic_slot (skipped : bytes) (records : list bytes) : bytes :=
  PATTERN_NORMAL ++ skipped ++ concat records ++ replicate 50 x00.

Definition nonzero (record : bytes) : Prop :=
  Exists (fun b => b ≠ x00) record.

(** A record of the standard layout that the terminator scan cannot take
    for padding: sixteen bytes, not all of them zero. *)
Definition well_formed_record (record : bytes) : Prop :=
  length record = 16%nat /\ nonzero record.

(** Pattern [pattern] occurs in [buffer] at offset [m]. *)
Definition occurs_at (buffer pattern : bytes) (m : Z) : Prop :=
  0 <= m /\ take (length pattern) (drop (Z.to_nat m) buffer) = pattern.

(** Offset [m] is the first one at which [pattern] occurs in [buffer]. *)
Definition first_occurrence (buffer pattern : bytes) (m : Z) : Prop :=
  occurs_at buffer pattern m
  /\ forall j, 0 <= j < m -> ~ occurs_at buffer pattern j.

(** Every name field of the file holds a whole number of 16-bit units, so
    that [new Uint16Array] accepts each of them. *)
Definition names_readable (fileData : bytes) : Prop :=
  Forall (fun offset =>
            is_Some (Uint16Array_of (slice fileData offset (offset + 32))))
         name_offsets.

(** The two upper-case digits of a byte, in front of [rest]. *)
Definition two_digits (b : byte) (rest : string) : string :=
  String (upper_hex_digit (Byte.to_N b / 16))
         (String (upper_hex_digit (Byte.to_N b mod 16)) rest).

(** The (region, subregion, identifier) triples of a catalog with their
    entries, in the order of enumeration. *)
Definition triples (c : catalog) : list (string * string * string * Entry.t) :=
  '(region, subregions) ← c;
  '(subregion, items) ← subregions;
  '(itemId, itemData) ← items;
  [(region, subregion, itemId, itemData)].

(** Putting two subsequences back together by the flags of the positions
    they were taken from. *)
Fixpoint interleave {A : Type} (flags : list bool) (yes no : list A)
  : list A :=
  match flags with
  | [] => []
  | true :: flags' =>
      match yes with
      | y :: yes' => y :: interleave flags' yes' no
      | [] => []
      end
  | false :: flags' =>
      match no with
      | n :: no' => n :: interleave flags' yes no'
      | [] => []
      end
  end.

Definition only_status (status : string) : Criteria.t :=
  {| Criteria.status := Some status; Criteria.region := None;
     Criteria.category := None; Criteria.search := None |}.

(** End of the last window of [getSlots]. *)
Definition last_slot_end : Z := 0x0190039f + 1.

(** ** Inputs of the examples *)

(** A decoder that agrees with UTF-8 on 7-bit text. *)
Definition latin1_decoder : TextDecoder := string_of_list_byte.

Definition record_DEADBEEF : bytes :=
  [xef; xbe; xad; xde]%byte ++ replicate 12 x00.

Definition slot_DEADBEEF : bytes :=
  synthetic_slot (replicate 8 x00) [record_DEADBEEF].

(** A slot of the expansion layout: the expansion marker, the three bytes
    that the start skips, one record of eight bytes and the terminator. *)
Definition slot_DLC : bytes :=
  PATTERN_DLC ++ replicate 3 x00
  ++ ([xef; xbe; xad; xde]%byte ++ replicate 4 x00) ++ replicate 50 x00.

(** A file with a wrong signature. *)
Definition file_BND3 : bytes := [x42; x4e; x44; x33]%byte.

(** A file that ends inside the first slot. *)
Definition short_file : bytes :=
  FILE_SIGNATURE ++ replicate (0x310 - 4) x00 ++ slot_DEADBEEF.

Definition sample_entry : Entry.t :=
  {| Entry.name := "Test Sword"; Entry.type := None; Entry.hint := None;
     Entry.multiple := None |}.

Definition sample_catalog : catalog :=
  [("RegionA", [("SubA", [("DEADBEEF", sample_entry)])])].

(** A tracker with the sample catalog loaded and [ids] decoded, as
    [processSaveFile] leaves it before it calls [crossReference]. *)
Definition sample_tracker (ids : list string) : TrackerCore :=
  let this :=
    new_TrackerCore {| locationData := Some sample_catalog;
                       dlcData := None |} in
  {| dataLoader := dataLoader this;
     inventoryIds := ids;
     enrichedItems := enrichedItems this;
     stats := stats this |}.

(** ** Grouping and the statistics of a filtered view *)

(** An object as the list of its own entries, in the order of their
    creation. The properties below only look an entry up by its key. *)
Definition object (V : Type) : Type := list (string * V).

(** [o[k] = v]: the value of an existing key is replaced in place, a new
    key comes last. *)
Definition obj_set {V : Type} (k : string) (v : V) (o : object V) : object V :=
  match assoc k o with
  | Some _ => (fun kv => if decide (fst kv = k) then (k, v) else kv) <$> o
  | None => o ++ [(k, v)]
  end.

(** The names under which [Object.prototype] holds a method. On an object
    without an own property of such a name, the value is that built-in
    function. The two other inherited names give the constructor [Object]
    and the prototype itself. *)
Definition builtin_methods : list string :=
  ["hasOwnProperty"; "isPrototypeOf"; "propertyIsEnumerable";
   "toLocaleString"; "toString"; "valueOf"; "__defineGetter__";
   "__defineSetter__"; "__lookupGetter__"; "__lookupSetter__"].

(** The names of the properties of such a built-in function: its own
    [length] and [name], those of [Function.prototype], and the names
    inherited from [Object.prototype]. Under each of them the function
    gives a value that has no [push], refuses the access, or refuses the
    assignment of the strict code of a class, so that the body of the loop
    throws a [TypeError]; under every other name it gives [undefined], or
    the list that an earlier call stored there. *)
Definition function_names : list string :=
  ["length"; "name"; "arguments"; "caller"; "apply"; "bind"; "call"]
  ++ inherited_names.

(** What a call of [groupByRegion] does: it returns the grouping, it throws
    a [TypeError], or it reaches [Object] or [Object.prototype] through the
    region name [constructor] or [__proto__]. In the last case the call
    goes on to read and write the properties of that object, whose content
    is not part of this model, and under [__proto__] it gives
    [Object.prototype] a new property: the model follows the call no
    further. *)
Inductive grouping :=
| Grouped (grouped : object (object (list Item.t)))
| Throws_TypeError
| Reaches_builtin (region : string).

(** The body of the [forEach] of [groupByRegion] on the own entries of
    [grouped].

    [grouped[region]] is the own entry when there is one. Without one it is
    falsy on a name that is not inherited, and the empty object is stored.
    On an inherited name it is the inherited value and nothing is stored in
    [grouped]: when that value is a method of [Object.prototype], the list
    of the subregion is read from and stored on that function, which
    changes no entry of [grouped], and the body throws when the subregion
    is the name of a property of the function.

    [grouped[region][subregion]] on an own entry is the own list when there
    is one; without one a new list is stored on a name that is not
    inherited; on an inherited name the value is a function or
    [Object.prototype], which has no [push], and calling it throws. *)
Definition group_item (grouped : object (object (list Item.t)))
    (item : Item.t) : grouping :=
  let region := Item.region item in
  let subregion := Item.subregion item in
  match assoc region grouped with
  | None =>
      if inherited region then
        if bool_decide (region ∈ builtin_methods) then
          if bool_decide (subregion ∈ function_names) then Throws_TypeError
          else Grouped grouped
        else Reaches_builtin region
      else if inherited subregion then Throws_TypeError
      else Grouped (obj_set region (obj_set subregion [item] []) grouped)
  | Some subregions =>
      match assoc subregion subregions with
      | Some bucket =>
          Grouped (obj_set region
                           (obj_set subregion (bucket ++ [item]) subregions)
                           grouped)
      | None =>
          if inherited subregion then Throws_TypeError
          else Grouped (obj_set region
                                (obj_set subregion [item] subregions)
                                grouped)
      end
  end.

(** The [forEach]: it stops at the first item on which the body does not
    complete. *)
Fixpoint group_items (grouped : object (object (list Item.t)))
    (items : list Item.t) : grouping :=
  match items with
  | [] => Grouped grouped
  | item :: rest =>
      match group_item grouped item with
      | Grouped grouped' => group_items grouped' rest
      | stopped => stopped
      end
  end.

(** [groupByRegion(items)]; [items] is [None] for the default [null]. *)
Definition groupByRegion (this : TrackerCore) (items : option (list Item.t))
  : grouping :=
  let itemsToGroup := default (enrichedItems this) items in
  group_items [] itemsToGroup.

(** [calculateFilteredStats(items)] of the application, on the own entries
    of [stats]: the same loop as [calculateRegionalStats]. *)
Definition calculateFilteredStats (items : list Item.t) : gmap string Group.t :=
  let stats :=
    foldl (fun stats item =>
             count_item (Item.region item) (Item.owned item) stats)
          ∅ items in
  with_percentage <$> stats.

(** ** Further notions used by the properties *)

(** The items of a list that a key sends to [k], and the owned ones among
    them. *)
Definition keyed (key : Item.t -> string) (k : string) (items : list Item.t)
  : list Item.t :=
  filter (fun item => key item = k) items.

Definition keyed_owned (key : Item.t -> string) (k : string)
    (items : list Item.t) : list Item.t :=
  filter (fun item => Item.owned item = true) (keyed key k items).

(** The counters and the percentage of a group of [n] items of which [o]
    are owned. *)
Definition group_of (n o : nat) : Group.t :=
  {| Group.total := Z.of_nat n;
     Group.owned := Z.of_nat o;
     Group.missing := Z.of_nat n - Z.of_nat o;
     Group.percentage := percentage_of (Z.of_nat o) (Z.of_nat n) |}.

(** The list at [region] and [subregion] of a grouping, empty when there is
    none. *)
Definition bucket (grouped : object (object (list Item.t)))
    (region subregion : string) : list Item.t :=
  default [] (assoc subregion (default [] (assoc region grouped))).

(** The code unit 0 does not occur in a string. *)
Definition no_nul (s : string) : Prop :=
  zero ∉ list_ascii_of_string s.

(** The bytes at the even offsets of a sequence. *)
Fixpoint even_offsets (data : bytes) : bytes :=
  match data with
  | lo :: _ :: rest => lo :: even_offsets rest
  | _ => []
  end.

(** The four tests of [filterItems] on one item. *)
Definition accepts (criteria : Criteria.t) (item : Item.t) : bool :=
  (if bool_decide (Criteria.status criteria = Some "owned")
   then Item.owned item
   else if bool_decide (Criteria.status criteria = Some "missing")
   then negb (Item.owned item)
   else true)
  && (if truthy (Criteria.region criteria)
      then bool_decide (Some (Item.region item) = Criteria.region criteria)
      else true)
  && (if truthy (Criteria.category criteria)
      then bool_decide (Some (determineCategory (Item.id item))
                        = Criteria.category criteria)
      else true)
  && (if truthy (Criteria.search criteria)
      then includes (toLowerCase (Item.name item))
                    (toLowerCase (default "" (Criteria.search criteria)))
      else true).

(** The counters of the items that a key sends to [k]; none when there is
    no such item. *)
Definition counts_of (key : Item.t -> string) (k : string)
    (items : list Item.t) : option Group.t :=
  match keyed key k items with
  | [] => None
  | _ :: _ =>
      Some (group_of (length (keyed key k items))
                     (length (keyed_owned key k items)))
  end.

(** ** Notions of the specification for the statistics *)

(** [p] is an integer nearest to the exact percentage
    [100 * owned / total]: it differs from it by at most one half. *)
Definition nearest_percentage (owned total p : Z) : Prop :=
  2 * total * p <= 200 * owned + total <= 2 * total * (p + 1).

(** The exact percentage rounded as [Math.round] rounds, a half going up:
    what [round(owned / total * 100)] is when the quotient and the product
    are exact. *)
Definition round_half_up_percentage (owned total : Z) : Z :=
  (200 * owned + total) / (2 * total).

(** A double is the percentage of [owned] out of [total] items: an integer
    nearest to the exact percentage, and 0 when there is no item. *)
Definition is_percentage (x : spec_float) (owned total : Z) : Prop :=
  exists p,
    x = Number p
    /\ 0 <= p <= 100
    /\ if 0 <? total then nearest_percentage owned total p else p = 0.

(** [entry] is what the statistics hold for the items [items] of a group:
    nothing when there is no item, otherwise their number, the number of
    owned ones, their difference and their percentage. *)
Definition counters_of (items : list Item.t) (entry : option Group.t)
  : Prop :=
  let total := Z.of_nat (length items) in
  let owned :=
    Z.of_nat (length (filter (fun item => Item.owned item = true) items)) in
  match entry with
  | None => items = []
  | Some group =>
      items ≠ []
      /\ Group.total group = total
      /\ Group.owned group = owned
      /\ Group.missing group = total - owned
      /\ is_percentage (Group.percentage group) owned total
  end.


(** ** Notions used to bound the rounding of doubles *)

(** The record [mrs] that the shifts of [binary_round_aux] work on stands
    for the rational [N / L]: [shr_m mrs] is its integer part and the two
    bits place the rest with respect to one half. *)
Definition represents (N L : Z) (mrs : shr_record) : Prop :=
  let rho := N - shr_m mrs * L in
  0 < L /\ 0 <= rho < L
  /\ match shr_r mrs, shr_s mrs with
     | false, false => rho = 0
     | false, true => 0 < 2 * rho < L
     | true, false => 2 * rho = L
     | true, true => L < 2 * rho
     end.

(** ** Further inputs of the examples *)

Definition sample_item (owned : bool) : Item.t :=
  {| Item.id := "DEADBEEF"; Item.name := "Test Sword"; Item.owned := owned;
     Item.region := "RegionA"; Item.subregion := "SubA";
     Item.type := "unknown"; Item.hint := ""; Item.farmable := false;
     Item.wikiUrl := generateWikiUrl "Test Sword" |}.

(** A tracker with 40 items of which 23 are owned. *)
Definition tracker_23_of_40 : TrackerCore :=
  with_items (sample_tracker [])
    (replicate 23 (sample_item true) ++ replicate 17 (sample_item false)).

(** * Properties *)

(** ** Slices and comparison of buffers *)

Section Slices.
Context {A : Type}.
Implicit Types l : list A.

Lemma slice_take_drop l b e :
  0 <= b -> 0 <= e ->
  slice l b e = take (Z.to_nat (e - b)) (drop (Z.to_nat b) l).
Proof.
  intros Hb He. unfold slice, clamp_index.
  destruct (Z.ltb_spec b 0), (Z.ltb_spec e 0); try lia.
  destruct (Z.le_gt_cases b (Z.of_nat (length l))) as [Hbl|Hbl].
  - rewrite (Z.min_l b) by lia.
    destruct (Z.le_gt_cases e (Z.of_nat (length l))) as [Hel|Hel].
    + by rewrite (Z.min_l e) by lia.
    + rewrite (Z.min_r e) by lia.
      rewrite !take_ge; [done | |]; rewrite length_drop; lia.
  - rewrite (Z.min_r b) by lia.
    rewrite (drop_ge l (Z.to_nat b)) by lia.
    rewrite drop_ge by lia. by rewrite !take_nil.
Qed.

Lemma slice_prefix l e : 0 <= e -> slice l 0 e = take (Z.to_nat e) l.
Proof.
  intros He. rewrite slice_take_drop by lia.
  by rewrite Z.sub_0_r.
Qed.

Lemma index_lookup l i : 0 <= i -> index l i = l !! Z.to_nat i.
Proof.
  intros Hi. unfold index. by destruct (Z.ltb_spec i 0); [lia|].
Qed.
End Slices.

Lemma toInt8_inj a b : toInt8 a = toInt8 b -> a = b.
Proof.
  unfold toInt8. intros H.
  pose proof (Byte.to_N_bounded a) as Ha.
  pose proof (Byte.to_N_bounded b) as Hb.
  assert (Byte.to_N a = Byte.to_N b) as E.
  { destruct (Z.ltb_spec (Z.of_N (Byte.to_N a)) 128),
             (Z.ltb_spec (Z.of_N (Byte.to_N b)) 128); lia. }
  apply (f_equal Byte.of_N) in E. rewrite !Byte.of_to_N in E. congruence.
Qed.

Lemma int8_equal_eq (b1 b2 : bytes) :
  length b1 = length b2 ->
  int8_equal (toInt8 <$> b1) (toInt8 <$> b2) = true <-> b1 = b2.
Proof.
  revert b2. induction b1 as [|x b1 IH]; intros [|y b2] Hlen;
    simpl in *; try discriminate; [done|].
  destruct (Z.eqb_spec (toInt8 x) (toInt8 y)) as [E|E].
  - apply toInt8_inj in E as ->. rewrite IH by lia.
    split; [by intros -> | by intros [= ->]].
  - split; [done | intros [= -> _]; done].
Qed.

Lemma bufferEqual_eq (b1 b2 : bytes) : bufferEqual b1 b2 = true <-> b1 = b2.
Proof.
  unfold bufferEqual, byteLength.
  destruct (Z.eqb_spec (Z.of_nat (length b1)) (Z.of_nat (length b2))) as [E|E];
    simpl.
  - apply int8_equal_eq. lia.
  - split; [done | intros ->; done].
Qed.

Lemma validateFile_signature (fileData : bytes) :
  validateFile fileData = true <-> take 4 fileData = FILE_SIGNATURE.
Proof.
  unfold validateFile. rewrite bufferEqual_eq, slice_prefix by lia. done.
Qed.

(** ** [findPattern] returns the first occurrence *)

Section FindPattern.
Variables buffer pattern : bytes.
Hypothesis pattern_nonempty : pattern ≠ [].

Lemma occurs_at_inside m : occurs_at buffer pattern m -> m < byteLength buffer.
Proof using pattern_nonempty.
  intros [Hm E]. unfold byteLength.
  destruct (Z.lt_ge_cases m (Z.of_nat (length buffer))) as [|Hge]; [done|].
  rewrite drop_ge, take_nil in E by lia. congruence.
Qed.

(** The test of one iteration. *)
Lemma iteration_test i :
  0 <= i ->
  strict_eq (index buffer i) (index pattern 0)
  && bufferEqual (subarray buffer i (i + byteLength pattern)) pattern = true
  <-> occurs_at buffer pattern i.
Proof using pattern_nonempty.
  intros Hi. unfold occurs_at, subarray, byteLength.
  rewrite andb_true_iff, bufferEqual_eq, slice_take_drop by lia.
  replace (Z.to_nat (i + Z.of_nat (length pattern) - i))
    with (length pattern) by lia.
  split; [intros [_ E]; done | intros [_ E]; split; [|done]].
  rewrite !index_lookup by lia.
  destruct pattern as [|p0 pattern'] eqn:Ep; [done|]. simpl in *.
  destruct (drop (Z.to_nat i) buffer) as [|b0 rest] eqn:Ed; [done|].
  injection E as -> _.
  rewrite <- (Nat.add_0_r (Z.to_nat i)), <- lookup_drop, Ed. simpl.
  by apply Byte.byte_dec_lb.
Qed.

Lemma findPattern_from_spec fuel i :
  0 <= i -> byteLength buffer - i <= Z.of_nat fuel ->
  match findPattern_from fuel buffer pattern i with
  | Some m => i <= m /\ occurs_at buffer pattern m
              /\ forall j, i <= j < m -> ~ occurs_at buffer pattern j
  | None => forall j, i <= j -> ~ occurs_at buffer pattern j
  end.
Proof using pattern_nonempty.
  revert i. induction fuel as [|fuel IH]; intros i Hi Hfuel; simpl.
  - intros j Hj Hocc. apply occurs_at_inside in Hocc. lia.
  - destruct (Z.ltb_spec i (byteLength buffer)) as [Hlt|Hge].
    + destruct (strict_eq _ _ && _) eqn:Etest.
      * apply iteration_test in Etest; [|done].
        split; [lia|]. split; [done|]. intros j Hj. lia.
      * specialize (IH (i + 1) ltac:(lia) ltac:(lia)).
        assert (~ occurs_at buffer pattern i) as Hno.
        { intros Hocc. apply iteration_test in Hocc; [|done]. congruence. }
        destruct (findPattern_from fuel buffer pattern (i + 1)) as [m|].
        -- destruct IH as (Hm & Hocc & Hfirst).
           split; [lia|]. split; [done|].
           intros j Hj. destruct (Z.eq_dec j i) as [->|]; [done|].
           apply Hfirst. lia.
        -- intros j Hj. destruct (Z.eq_dec j i) as [->|]; [done|].
           apply IH. lia.
    + intros j Hj Hocc. apply occurs_at_inside in Hocc. lia.
Qed.

Lemma findPattern_Some m :
  findPattern buffer pattern = Some m <-> first_occurrence buffer pattern m.
Proof using pattern_nonempty.
  unfold findPattern, first_occurrence.
  pose proof (findPattern_from_spec (length buffer) 0 ltac:(lia)
                ltac:(unfold byteLength; lia)) as H.
  destruct (findPattern_from _ _ _ _) as [m'|].
  - destruct H as (Hm' & Hocc & Hfirst). split.
    + intros [= <-]. done.
    + intros [Hocc' Hfirst']. f_equal.
      destruct (Z.lt_trichotomy m m') as [Hlt|[->|Hgt]]; [|done|].
      * destruct (Hfirst m); [destruct Hocc'; lia | done].
      * destruct (Hfirst' m'); [lia | done].
  - split; [done|]. intros [Hocc _].
    destruct (H m); [destruct Hocc; lia | done].
Qed.

Lemma findPattern_None :
  findPattern buffer pattern = None
  <-> forall j, ~ occurs_at buffer pattern j.
Proof using pattern_nonempty.
  split.
  - intros E j Hocc.
    pose proof (findPattern_from_spec (length buffer) 0 ltac:(lia)
                  ltac:(unfold byteLength; lia)) as H.
    unfold findPattern in E. rewrite E in H.
    apply (H j); [destruct Hocc; lia | done].
  - intros Hno. destruct (findPattern buffer pattern) as [m|] eqn:E; [|done].
    apply findPattern_Some in E as [Hocc _]. by destruct (Hno m).
Qed.
End FindPattern.

(** ** Identifier rendering *)

Lemma toUpperCase_app s1 s2 :
  toUpperCase (s1 +:+ s2) = toUpperCase s1 +:+ toUpperCase s2.
Proof. induction s1 as [|c s1 IH]; simpl; [done | by rewrite IH]. Qed.

Lemma decimalToHex_byte b :
  toUpperCase (decimalToHex (Some b) 2) = two_digits b "".
Proof. destruct b; reflexivity. Qed.

Lemma bytes_of_hex_two_digits b s :
  bytes_of_hex (two_digits b s) = bs ← bytes_of_hex s; Some (b :: bs).
Proof. destruct b; reflexivity. Qed.

Lemma convertIdToHex_four b0 b1 b2 b3 rest :
  convertIdToHex (b0 :: b1 :: b2 :: b3 :: rest)
  = two_digits b3 (two_digits b2 (two_digits b1 (two_digits b0 ""))).
Proof.
  unfold convertIdToHex. rewrite slice_prefix by lia.
  change (take (Z.to_nat 4) (b0 :: b1 :: b2 :: b3 :: rest))
    with [b0; b1; b2; b3].
  cbn [rev rev_append foldl app].
  change (index [b3; b2; b1; b0] 0) with (Some b3).
  change (index [b3; b2; b1; b0] 1) with (Some b2).
  change (index [b3; b2; b1; b0] 2) with (Some b1).
  change (index [b3; b2; b1; b0] 3) with (Some b0).
  rewrite !toUpperCase_app, !decimalToHex_byte. reflexivity.
Qed.

Lemma hex8_le32 b0 b1 b2 b3 rest :
  hex8 (le32 (b0 :: b1 :: b2 :: b3 :: rest))
  = two_digits b3 (two_digits b2 (two_digits b1 (two_digits b0 ""))).
Proof.
  unfold hex8, le32, two_digits.
  change (Byte.to_N <$> take 4 (b0 :: b1 :: b2 :: b3 :: rest))
    with [Byte.to_N b0; Byte.to_N b1; Byte.to_N b2; Byte.to_N b3].
  cbv beta iota.
  pose proof (Byte.to_N_bounded b0). pose proof (Byte.to_N_bounded b1).
  pose proof (Byte.to_N_bounded b2). pose proof (Byte.to_N_bounded b3).
  generalize dependent (Byte.to_N b0). generalize dependent (Byte.to_N b1).
  generalize dependent (Byte.to_N b2). generalize dependent (Byte.to_N b3).
  intros n3 H3 n2 H2 n1 H1 n0 H0.
  cbn [fmap list_fmap string_of_list_ascii].
  repeat match goal with
         | |- String _ _ = String _ _ => f_equal
         | |- upper_hex_digit _ = upper_hex_digit _ => f_equal
         end.
  all: change (16 ^ 7)%N with 268435456%N; change (16 ^ 6)%N with 16777216%N;
       change (16 ^ 5)%N with 1048576%N; change (16 ^ 4)%N with 65536%N;
       change (16 ^ 3)%N with 4096%N; change (16 ^ 2)%N with 256%N;
       change (16 ^ 1)%N with 16%N; change (16 ^ 0)%N with 1%N.
  all: zify; Z.to_euclidean_division_equations; lia.
Qed.

(** ** Doubles: the double of a positive integer is positive *)

Lemma digits2_pos_lower p : 2 ^ (Z.pos (digits2_pos p) - 1) <= Z.pos p.
Proof.
  induction p as [p IH|p IH|]; simpl digits2_pos; [| |done].
  all: rewrite Pos2Z.inj_succ;
    replace (Z.succ (Z.pos (digits2_pos p)) - 1)
      with (Z.succ (Z.pos (digits2_pos p) - 1)) by lia;
    rewrite Z.pow_succ_r by lia; lia.
Qed.

Lemma shr_1_m mrs : 0 <= shr_m mrs -> shr_m (shr_1 mrs) = shr_m mrs / 2.
Proof.
  destruct mrs as [m r s]. simpl. intros Hm.
  destruct m as [|[p|p|]|p]; simpl; try done; try lia.
  - rewrite Pos2Z.inj_xI. Z.to_euclidean_division_equations. lia.
  - rewrite Pos2Z.inj_xO. Z.to_euclidean_division_equations. lia.
Qed.

Lemma iter_shr_1_m n mrs :
  0 <= shr_m mrs ->
  shr_m (SpecFloat.iter_pos shr_1 n mrs) = shr_m mrs / 2 ^ Z.pos n.
Proof.
  revert mrs. induction n as [n IH|n IH|]; intros mrs Hm;
    simpl SpecFloat.iter_pos.
  - assert (0 < 2 ^ Z.pos n) as Hpow by (apply Z.pow_pos_nonneg; lia).
    assert (0 <= shr_m (shr_1 mrs)) as H1.
    { rewrite shr_1_m by done. apply Z.div_pos; lia. }
    assert (0 <= shr_m (SpecFloat.iter_pos shr_1 n (shr_1 mrs))) as H2.
    { rewrite IH by done. apply Z.div_pos; lia. }
    rewrite IH, IH, shr_1_m by done.
    rewrite !Z.div_div by lia. f_equal.
    replace (Z.pos n~1) with (1 + (Z.pos n + Z.pos n)) by lia.
    rewrite !Z.pow_add_r, Z.pow_1_r by lia. lia.
  - assert (0 < 2 ^ Z.pos n) as Hpow by (apply Z.pow_pos_nonneg; lia).
    assert (0 <= shr_m (SpecFloat.iter_pos shr_1 n mrs)) as H1.
    { rewrite IH by done. apply Z.div_pos; lia. }
    rewrite IH, IH by done.
    rewrite Z.div_div by lia. f_equal.
    replace (Z.pos n~0) with (Z.pos n + Z.pos n) by lia.
    by rewrite Z.pow_add_r by lia.
  - rewrite shr_1_m by done. by rewrite Z.pow_1_r.
Qed.

Lemma shr_fexp_positive p e l :
  emin prec emax <= e ->
  0 < shr_m (fst (shr_fexp prec emax (Z.pos p) e l))
  /\ e <= snd (shr_fexp prec emax (Z.pos p) e l).
Proof.
  intros He. unfold shr_fexp, shr. simpl Zdigits2.
  set (n := fexp prec emax (Z.pos (digits2_pos p) + e) - e).
  assert (n <= Z.pos (digits2_pos p) - 1) as Hn.
  { unfold n, fexp, prec. unfold prec in He. lia. }
  assert (0 <= shr_m (shr_record_of_loc (Z.pos p) l)
          /\ shr_m (shr_record_of_loc (Z.pos p) l) = Z.pos p) as [H0 Hm].
  { destruct l as [|[]]; simpl; lia. }
  destruct n as [|k|k] eqn:En; simpl fst; simpl snd.
  - rewrite Hm. lia.
  - rewrite iter_shr_1_m, Hm by done. split; [|lia].
    apply Z.div_str_pos. split; [lia|].
    etrans; [|apply digits2_pos_lower].
    apply Z.pow_le_mono_r; lia.
  - rewrite Hm. lia.
Qed.

Lemma round_nearest_even_ge m l : m <= round_nearest_even m l.
Proof.
  destruct l as [|[]]; simpl; try lia. destruct (Z.even m); lia.
Qed.

Lemma binary_round_aux_shape sx p e l :
  emin prec emax <= e ->
  (exists m' e', binary_round_aux prec emax sx (Z.pos p) e l
                 = S754_finite sx m' e')
  \/ binary_round_aux prec emax sx (Z.pos p) e l = S754_infinity sx.
Proof.
  intros He. unfold binary_round_aux.
  pose proof (shr_fexp_positive p e l He) as [Hm1 He1].
  destruct (shr_fexp prec emax (Z.pos p) e l) as [mrs1 e1]. simpl in Hm1, He1.
  pose proof (round_nearest_even_ge (shr_m mrs1) (loc_of_shr_record mrs1)) as Hr.
  destruct (round_nearest_even (shr_m mrs1) (loc_of_shr_record mrs1))
    as [|m2|m2]; try lia.
  pose proof (shr_fexp_positive m2 e1 loc_Exact ltac:(lia)) as [Hm3 _].
  destruct (shr_fexp prec emax (Z.pos m2) e1 loc_Exact) as [mrs3 e3].
  simpl in Hm3. destruct (shr_m mrs3) as [|m3|m3]; try lia.
  destruct (e3 <=? emax - prec); eauto.
Qed.

Lemma Number_positive_shape n :
  0 < n ->
  (exists m e, Number n = S754_finite false m e)
  \/ Number n = S754_infinity false.
Proof.
  intros Hn. destruct n as [|p|p]; try lia.
  unfold Number, binary_normalize, binary_round.
  destruct (shl_align p 0 _) as [mz ez] eqn:E.
  apply binary_round_aux_shape.
  unfold shl_align in E.
  destruct (fexp prec emax (Z.pos (digits2_pos p) + 0) - 0) as [|d|d] eqn:Ed;
    injection E as <- <-; try (unfold emin, prec, emax; lia).
  unfold fexp, emin, prec, emax in *. lia.
Qed.

Lemma percentage_of_none_owned total : percentage_of 0 total = Number 0.
Proof.
  unfold percentage_of. destruct (Z.ltb_spec 0 total) as [Hpos|]; [|done].
  destruct (Number_positive_shape total Hpos) as [(m & e & ->)| ->];
    reflexivity.
Qed.

(** ** Doubles: the double of an integer below 2^53, and a quotient of 1 *)

Lemma digits2_pos_iter_xO k p :
  digits2_pos (Pos.iter xO p k) = (digits2_pos p + k)%positive.
Proof.
  induction k as [|k IH] using Pos.peano_ind.
  - cbn [Pos.iter digits2_pos]. by rewrite Pos.add_1_r.
  - rewrite Pos.iter_succ. cbn [digits2_pos]. rewrite IH.
    by rewrite Pos.add_succ_r.
Qed.

Lemma binary_round_aux_exact sx mz ez :
  Z.pos (digits2_pos mz) = prec ->
  emin prec emax <= ez <= emax - prec ->
  binary_round_aux prec emax sx (Z.pos mz) ez loc_Exact
  = S754_finite sx mz ez.
Proof.
  intros Hdigits Hez. unfold binary_round_aux, shr_fexp.
  cbn [Zdigits2 shr_record_of_loc]. rewrite Hdigits.
  assert (fexp prec emax (prec + ez) - ez = 0) as ->
    by (unfold fexp, emin, prec, emax in *; lia).
  cbn [shr shr_m loc_of_shr_record round_nearest_even Zdigits2
       shr_record_of_loc].
  rewrite Hdigits.
  assert (fexp prec emax (prec + ez) - ez = 0) as ->
    by (unfold fexp, emin, prec, emax in *; lia).
  cbn [shr shr_m].
  destruct (Z.leb_spec ez (emax - prec)); [done | lia].
Qed.

Lemma Number_below_2_53 n :
  0 < n < 2 ^ 53 -> exists m e, Number n = S754_finite false m e.
Proof.
  intros [Hpos Hlt]. destruct n as [|p|p]; try lia.
  pose proof (digits2_pos_lower p) as Hlower.
  assert (Z.pos (digits2_pos p) <= 53) as Hdigits.
  { destruct (Z.le_gt_cases (Z.pos (digits2_pos p)) 53) as [|Hgt]; [done|].
    assert (2 ^ 53 <= 2 ^ (Z.pos (digits2_pos p) - 1))
      by (apply Z.pow_le_mono_r; lia).
    lia. }
  unfold Number, binary_normalize, binary_round, shl_align.
  assert (fexp prec emax (Z.pos (digits2_pos p) + 0) - 0
          = Z.pos (digits2_pos p) - 53) as ->
    by (unfold fexp, emin, prec, emax; lia).
  destruct (Z.pos (digits2_pos p) - 53) as [|k|k] eqn:Hk; try lia.
  - eexists _, _. apply binary_round_aux_exact;
      unfold emin, prec, emax; lia.
  - eexists _, _. apply binary_round_aux_exact.
    + rewrite digits2_pos_iter_xO. unfold prec. lia.
    + unfold fexp, emin, prec, emax. lia.
Qed.

Lemma div_eucl_multiple a b : 0 < b -> Z.div_eucl (b * a) b = (a, 0).
Proof.
  intros Hb.
  pose proof (Z.div_mul a b ltac:(lia)) as Hq.
  pose proof (Z.mod_mul a b ltac:(lia)) as Hr.
  rewrite (Z.mul_comm a b) in Hq, Hr. unfold Z.div, Z.modulo in Hq, Hr.
  destruct (Z.div_eucl (b * a) b) as [q r]. by subst.
Qed.

Lemma SFdiv_same m e :
  SFdiv prec emax (S754_finite false m e) (S754_finite false m e)
  = Number 1.
Proof.
  unfold SFdiv, SFdiv_core_binary. cbn [Zdigits2].
  replace (Z.pos (digits2_pos m) + e - (Z.pos (digits2_pos m) + e))
    with 0 by lia.
  rewrite Z.sub_diag.
  change (Z.min (fexp prec emax 0) 0) with (-53).
  change (0 - -53) with 53.
  rewrite Z.shiftl_mul_pow2 by lia.
  rewrite div_eucl_multiple by lia.
  assert (new_location (Z.pos m) 0 = loc_Exact) as ->.
  { unfold new_location, new_location_even, new_location_odd.
    by destruct (Z.even (Z.pos m)). }
  vm_compute. reflexivity.
Qed.

Lemma percentage_of_all total :
  0 < total < 2 ^ 53 -> percentage_of total total = Number 100.
Proof.
  intros Htotal. unfold percentage_of.
  destruct (Z.ltb_spec 0 total); [|lia].
  destruct (Number_below_2_53 total Htotal) as (m & e & ->).
  rewrite SFdiv_same. vm_compute. reflexivity.
Qed.

(** ** Doubles: the rounding of a quotient and of a product *)

Lemma digits2_pos_upper p : Z.pos p < 2 ^ Z.pos (digits2_pos p).
Proof.
  induction p as [p IH|p IH|]; simpl digits2_pos; [| |done].
  all: rewrite Pos2Z.inj_succ, Z.pow_succ_r by lia; lia.
Qed.

Lemma digits2_pos_eq p n :
  2 ^ (n - 1) <= Z.pos p < 2 ^ n -> Z.pos (digits2_pos p) = n.
Proof.
  intros [Hlow Hup].
  pose proof (digits2_pos_lower p) as Hl. pose proof (digits2_pos_upper p) as Hu.
  set (d := Z.pos (digits2_pos p)) in *.
  assert (0 < n).
  { destruct (Z.lt_trichotomy 0 n) as [|[<-|Hneg]]; [done| |].
    - simpl in Hup. lia.
    - rewrite Z.pow_neg_r in Hup by lia. lia. }
  destruct (Z.lt_trichotomy d n) as [Hlt|[Heq|Hgt]]; [|done|].
  - assert (2 ^ d <= 2 ^ (n - 1)) by (apply Z.pow_le_mono_r; lia). lia.
  - assert (2 ^ n <= 2 ^ (d - 1)) by (apply Z.pow_le_mono_r; lia). lia.
Qed.

Lemma shr_1_represents N L mrs :
  0 <= shr_m mrs -> represents N L mrs -> represents N (2 * L) (shr_1 mrs).
Proof.
  destruct mrs as [m r s]. unfold represents. cbn [shr_m shr_r shr_s].
  intros Hm (HL & Hrho & Hloc).
  destruct m as [|[p|p|]|p]; try lia; cbn [shr_1 shr_m shr_r shr_s];
    try change (Z.pos p~1) with (2 * Z.pos p + 1) in *;
    try change (Z.pos p~0) with (2 * Z.pos p) in *;
    destruct r, s; cbn [orb]; lia.
Qed.

Lemma shr_1_nonneg mrs : 0 <= shr_m mrs -> 0 <= shr_m (shr_1 mrs).
Proof. destruct mrs as [[|[p|p|]|p] r s]; simpl; lia. Qed.

Lemma iter_shr_1_represents N k : forall L mrs,
  0 <= shr_m mrs -> represents N L mrs ->
  0 <= shr_m (SpecFloat.iter_pos shr_1 k mrs)
  /\ represents N (2 ^ Z.pos k * L) (SpecFloat.iter_pos shr_1 k mrs).
Proof.
  induction k as [k IH|k IH|]; intros L mrs Hm Hrep; simpl SpecFloat.iter_pos.
  - pose proof (shr_1_nonneg mrs Hm) as H1.
    pose proof (shr_1_represents N L mrs Hm Hrep) as R1.
    destruct (IH _ _ H1 R1) as [H2 R2]. destruct (IH _ _ H2 R2) as [H3 R3].
    split; [done|].
    replace (2 ^ Z.pos k~1 * L) with (2 ^ Z.pos k * (2 ^ Z.pos k * (2 * L)));
      [done|].
    replace (Z.pos k~1) with (1 + (Z.pos k + Z.pos k)) by lia.
    rewrite !Z.pow_add_r, Z.pow_1_r by lia. lia.
  - destruct (IH _ _ Hm Hrep) as [H2 R2]. destruct (IH _ _ H2 R2) as [H3 R3].
    split; [done|].
    replace (2 ^ Z.pos k~0 * L) with (2 ^ Z.pos k * (2 ^ Z.pos k * L)); [done|].
    replace (Z.pos k~0) with (Z.pos k + Z.pos k) by lia.
    rewrite !Z.pow_add_r by lia. lia.
  - split; [by apply shr_1_nonneg|]. rewrite Z.pow_1_r.
    by apply shr_1_represents.
Qed.

Lemma round_nearest_even_represents N L mrs :
  represents N L mrs ->
  let m2 := round_nearest_even (shr_m mrs) (loc_of_shr_record mrs) in
  shr_m mrs <= m2 <= shr_m mrs + 1 /\ Z.abs (2 * (m2 * L - N)) <= L.
Proof.
  destruct mrs as [m r s]. unfold represents. cbn [shr_m shr_r shr_s].
  intros (HL & Hrho & Hloc). destruct r, s; cbn; try lia.
  destruct (Z.even m); lia.
Qed.

Lemma mul_cancel_lt a b c : 0 < c -> a * c < b * c -> a < b.
Proof. intros Hc H. apply Z.mul_lt_mono_pos_r in H; done. Qed.

Lemma binary_round_aux_nearest (p : positive) (e : Z) (l : location)
    (N D : Z) :
  let k := Z.pos (digits2_pos p) - 53 in
  0 <= k -> emin prec emax <= e + k -> e + k + 1 <= emax - prec ->
  represents N D (shr_record_of_loc (Z.pos p) l) ->
  exists m3 j,
    binary_round_aux prec emax false (Z.pos p) e l
    = S754_finite false m3 (e + j)
    /\ k <= j <= k + 1
    /\ 2 ^ 52 <= Z.pos m3 < 2 ^ 53
    /\ Z.abs (2 * (Z.pos m3 * 2 ^ j * D - N)) <= 2 ^ k * D.
Proof.
  intros k Hk Hemin Hemax Hrep.
  pose proof (digits2_pos_lower p) as Hlow.
  pose proof (digits2_pos_upper p) as Hup.
  assert (Z.pos (digits2_pos p) = 53 + k) as Hd by (unfold k; lia).
  rewrite Hd in Hlow, Hup.
  replace (53 + k - 1) with (52 + k) in Hlow by lia.
  rewrite Z.pow_add_r in Hlow, Hup by lia.
  assert (0 < 2 ^ k) as Hpow by (apply Z.pow_pos_nonneg; lia).
  assert (shr_m (shr_record_of_loc (Z.pos p) l) = Z.pos p) as Hm0
    by (by destruct l as [|[]]).
  (* the first shift *)
  assert (exists mrs1,
             shr_fexp prec emax (Z.pos p) e l = (mrs1, e + k)
             /\ 0 <= shr_m mrs1
             /\ represents N (2 ^ k * D) mrs1) as (mrs1 & Hshr1 & Hm1 & Hrep1).
  { unfold shr_fexp. cbn [Zdigits2]. rewrite Hd.
    replace (fexp prec emax (53 + k + e) - e) with k
      by (unfold fexp, emin, prec, emax in *; lia).
    destruct k as [|kp|kp] eqn:Ek; [| |lia].
    - eexists. split; [cbn [shr]; by rewrite Z.add_0_r|].
      rewrite Hm0. split; [lia|]. by rewrite Z.pow_0_r, Z.mul_1_l.
    - eexists. split; [cbn [shr]; reflexivity|].
      apply iter_shr_1_represents; [rewrite Hm0; lia | done]. }
  unfold binary_round_aux. rewrite Hshr1.
  destruct Hrep as (HD & Hrho0 & _). rewrite Hm0 in Hrho0.
  pose proof (round_nearest_even_represents _ _ _ Hrep1) as [Hm2 Herr].
  destruct Hrep1 as (HL & Hrho1 & _).
  set (m1 := shr_m mrs1) in *.
  set (m2 := round_nearest_even m1 (loc_of_shr_record mrs1)) in *.
  (* the mantissa after the first shift has 53 digits *)
  assert (2 ^ 52 <= m1 < 2 ^ 53) as Hm1b.
  { split.
    - assert (2 ^ 52 * (2 ^ k * D) < (m1 + 1) * (2 ^ k * D)) as H; [|
        apply mul_cancel_lt in H; lia].
      assert (2 ^ 52 * 2 ^ k * D <= Z.pos p * D)
        by (apply Z.mul_le_mono_nonneg_r; lia).
      lia.
    - assert (m1 * (2 ^ k * D) < 2 ^ 53 * (2 ^ k * D)) as H; [|
        apply mul_cancel_lt in H; lia].
      assert ((Z.pos p + 1) * D <= 2 ^ 53 * 2 ^ k * D)
        by (apply Z.mul_le_mono_nonneg_r; lia).
      lia. }
  destruct (Z.eq_dec m2 (2 ^ 53)) as [Hover|Hnorm].
  - (* the rounding carried into a 54th digit *)
    rewrite Hover in *.
    exists (4503599627370496)%positive, (k + 1).
    split.
    { unfold shr_fexp.
      change (Zdigits2 (2 ^ 53)) with 54.
      replace (fexp prec emax (54 + (e + k)) - (e + k)) with 1
        by (unfold fexp, emin, prec, emax in *; lia).
      cbn [shr shr_record_of_loc SpecFloat.iter_pos].
      change (shr_m (shr_1 {| shr_m := 2 ^ 53; shr_r := false;
                              shr_s := false |}))
        with (Z.pos 4503599627370496).
      cbv beta iota.
      destruct (Z.leb_spec (e + k + 1) (emax - prec)); [|lia].
      by rewrite Z.add_assoc. }
    split; [lia|]. split; [done|].
    rewrite Z.pow_add_r, Z.pow_1_r by lia.
    change (Z.pos 4503599627370496) with (2 ^ 52).
    replace (2 ^ 52 * (2 ^ k * 2) * D) with (2 ^ 53 * (2 ^ k * D)) by lia.
    done.
  - assert (2 ^ 52 <= m2 < 2 ^ 53) as Hm2b by lia.
    destruct m2 as [|m2p|m2p] eqn:Em2; try lia.
    exists m2p, k. split.
    { unfold shr_fexp. cbn [Zdigits2].
      rewrite (digits2_pos_eq m2p 53) by (change (53 - 1) with 52; lia).
      replace (fexp prec emax (53 + (e + k)) - (e + k)) with 0
        by (unfold fexp, emin, prec, emax in *; lia).
      cbn [shr shr_record_of_loc shr_m].
      destruct (Z.leb_spec (e + k) (emax - prec)); [done|lia]. }
    split; [lia|]. split; [done|].
    by rewrite <- Z.mul_assoc.
Qed.

Lemma Pos_iter_xO_value k p : Z.pos (Pos.iter xO p k) = Z.pos p * 2 ^ Z.pos k.
Proof.
  induction k as [|k IH] using Pos.peano_ind.
  - cbn [Pos.iter]. rewrite Z.pow_1_r. lia.
  - rewrite Pos.iter_succ, Pos2Z.inj_xO, IH, Pos2Z.inj_succ, Z.pow_succ_r by lia.
    lia.
Qed.

Lemma Number_exact n :
  0 < n < 2 ^ 53 ->
  exists m e,
    Number n = S754_finite false m e
    /\ Z.pos (digits2_pos m) = 53
    /\ -52 <= e <= 0
    /\ Z.pos m = n * 2 ^ (- e).
Proof.
  intros [Hpos Hlt]. destruct n as [|p|p]; try lia.
  pose proof (digits2_pos_lower p) as Hlower.
  assert (Z.pos (digits2_pos p) <= 53) as Hdigits.
  { destruct (Z.le_gt_cases (Z.pos (digits2_pos p)) 53) as [|Hgt]; [done|].
    assert (2 ^ 53 <= 2 ^ (Z.pos (digits2_pos p) - 1))
      by (apply Z.pow_le_mono_r; lia).
    lia. }
  unfold Number, binary_normalize, binary_round, shl_align.
  assert (fexp prec emax (Z.pos (digits2_pos p) + 0)
          = Z.pos (digits2_pos p) - 53) as ->
    by (unfold fexp, emin, prec, emax; lia).
  rewrite Z.sub_0_r.
  destruct (Z.pos (digits2_pos p) - 53) as [|k|k] eqn:Hk; try lia.
  - exists p, 0. split; [|split; [lia|split; [lia|]]].
    + apply binary_round_aux_exact; unfold emin, prec, emax; lia.
    + cbn. lia.
  - exists (Pos.iter xO p k), (Z.neg k).
    assert (Z.pos (digits2_pos (Pos.iter xO p k)) = 53) as Hd
      by (rewrite digits2_pos_iter_xO; lia).
    split; [|split; [done|split; [lia|]]].
    + apply binary_round_aux_exact; [done|].
      unfold fexp, emin, prec, emax. lia.
    + rewrite Pos_iter_xO_value. reflexivity.
Qed.

Lemma new_location_represents q r d :
  0 < d -> 0 <= r < d ->
  represents (d * q + r) d (shr_record_of_loc q (new_location d r)).
Proof.
  intros Hd Hr. unfold represents.
  assert (shr_m (shr_record_of_loc q (new_location d r)) = q) as ->
    by (by destruct (new_location d r) as [|[]]).
  replace (d * q + r - q * d) with r by lia.
  split; [done|]. split; [done|].
  unfold new_location, new_location_even, new_location_odd.
  destruct (Z.even d) eqn:Hparity; destruct (Z.eqb_spec r 0) as [->|Hr0];
    try done.
  - destruct (Z.compare_spec (2 * r) d); cbn; lia.
  - assert (Z.odd d = true) as Hodd by (by rewrite <- Z.negb_even, Hparity).
    apply Z.odd_spec in Hodd as [c ->].
    destruct (Z.compare_spec (2 * r + 1) (2 * c + 1)); cbn; lia.
Qed.

Lemma pow2_pos z : 0 <= z -> 0 < 2 ^ z.
Proof. intros. apply Z.pow_pos_nonneg; lia. Qed.

Lemma digits_53_bounds m :
  Z.pos (digits2_pos m) = 53 -> 2 ^ 52 <= Z.pos m < 2 ^ 53.
Proof.
  intros Hd. pose proof (digits2_pos_lower m) as Hl.
  pose proof (digits2_pos_upper m) as Hu. rewrite Hd in Hl, Hu.
  change (53 - 1) with 52 in Hl. done.
Qed.

Lemma SFdiv_Number_nearest o n :
  0 < o <= n -> n < 2 ^ 53 ->
  exists m3 e3,
    SFdiv prec emax (Number o) (Number n) = S754_finite false m3 e3
    /\ 2 ^ 52 <= Z.pos m3 < 2 ^ 53
    /\ -107 <= e3 <= -52
    /\ Z.abs (2 * (Z.pos m3 * 2 ^ (e3 + 110) * n - o * 2 ^ 110)) <= 2 ^ 58 * n.
Proof.
  intros Ho Hn.
  destruct (Number_exact o ltac:(lia)) as (mx & ex & -> & Hdx & Hex & Hmx).
  destruct (Number_exact n ltac:(lia)) as (my & ey & -> & Hdy & Hey & Hmy).
  pose proof (digits_53_bounds mx Hdx) as Hbx.
  pose proof (digits_53_bounds my Hdy) as Hby.
  set (a := 2 ^ (- ex)) in *. set (b := 2 ^ (- ey)) in *.
  assert (0 < a) as Ha by (apply pow2_pos; lia).
  assert (0 < b) as Hb by (apply pow2_pos; lia).
  unfold SFdiv, SFdiv_core_binary. cbn [Zdigits2 xorb]. rewrite Hdx, Hdy.
  replace (Z.min (fexp prec emax (53 + ex - (53 + ey))) (ex - ey))
    with (ex - ey - 53) by (unfold fexp, emin, prec, emax; lia).
  replace (ex - ey - (ex - ey - 53)) with 53 by lia.
  cbv iota. rewrite Z.shiftl_mul_pow2 by lia.
  pose proof (Z_div_mod (Z.pos mx * 2 ^ 53) (Z.pos my) ltac:(lia)) as Hdiv.
  destruct (Z.div_eucl (Z.pos mx * 2 ^ 53) (Z.pos my)) as [q r].
  destruct Hdiv as [Hq Hr].
  assert (2 ^ 52 <= q < 2 ^ 54) as Hqb.
  { split.
    - destruct (Z.le_gt_cases (2 ^ 52) q) as [|Hlt]; [done|].
      assert (Z.pos my * (q + 1) <= Z.pos my * 2 ^ 52)
        by (apply Z.mul_le_mono_nonneg_l; lia).
      lia.
    - destruct (Z.le_gt_cases (2 ^ 54) q) as [Hge|]; [|done].
      assert (Z.pos my * 2 ^ 54 <= Z.pos my * q)
        by (apply Z.mul_le_mono_nonneg_l; lia).
      lia. }
  destruct q as [|qp|qp]; try lia.
  set (k := Z.pos (digits2_pos qp) - 53).
  assert (0 <= k <= 1 /\ (k = 1 -> 2 ^ 53 <= Z.pos qp)) as [Hk Hk1].
  { unfold k. destruct (Z.lt_ge_cases (Z.pos qp) (2 ^ 53)).
    - rewrite (digits2_pos_eq qp 53) by (change (53 - 1) with 52; lia). lia.
    - rewrite (digits2_pos_eq qp 54) by (change (54 - 1) with 53; lia). lia. }
  destruct (binary_round_aux_nearest qp (ex - ey - 53)
              (new_location (Z.pos my) r) (Z.pos my * Z.pos qp + r) (Z.pos my))
    as (m3 & j & -> & Hj & Hm3 & Herr).
  { fold k. lia. }
  { fold k. unfold emin, prec, emax. lia. }
  { fold k. unfold prec, emax. lia. }
  { apply new_location_represents; lia. }
  fold k in Hj, Herr. rewrite <- Hq in Herr.
  (* the quotient is at most 1, so its unit is at most 2^-52 *)
  assert (j <= 1 + ey - ex) as Hunit.
  { destruct (Z.lt_trichotomy ex ey) as [Hlt|[Heq|Hgt]]; [lia| |].
    - subst ey. fold a in Hmy. subst b.
      assert (Z.pos mx <= Z.pos my) as Hle
        by (rewrite Hmx, Hmy; apply Z.mul_le_mono_nonneg_r; lia).
      destruct (Z.eq_dec j 2) as [->|]; [|lia].
      exfalso.
      assert (2 ^ 52 * 2 ^ 2 * Z.pos my <= Z.pos m3 * 2 ^ 2 * Z.pos my)
        by (apply Z.mul_le_mono_nonneg_r; lia).
      assert (2 ^ k <= 2) by (assert (k = 1) as -> by lia; done).
      assert (2 ^ k * Z.pos my <= 2 * Z.pos my)
        by (apply Z.mul_le_mono_nonneg_r; lia).
      lia.
    - exfalso.
      assert (2 * a <= b) as Hab.
      { unfold a, b. replace (- ey) with (1 + - ex + (ex - ey - 1)) by lia.
        rewrite !Z.pow_add_r, Z.pow_1_r by lia.
        pose proof (pow2_pos (ex - ey - 1) ltac:(lia)).
        assert (2 * 2 ^ (- ex) * 1 <= 2 * 2 ^ (- ex) * 2 ^ (ex - ey - 1))
          by (apply Z.mul_le_mono_nonneg_l; lia).
        lia. }
      assert (n * (2 * a) <= n * b) by (apply Z.mul_le_mono_nonneg_l; lia).
      assert (o * (2 * a) <= n * (2 * a))
        by (apply Z.mul_le_mono_nonneg_r; lia).
      lia. }
  exists m3, (ex - ey - 53 + j).
  split; [done|]. split; [done|]. split; [lia|].
  set (g := 2 ^ (57 + ex)).
  assert (0 < g) as Hg by (apply pow2_pos; lia).
  assert (b * g * 2 ^ j = 2 ^ (ex - ey - 53 + j + 110)) as E1.
  { unfold b, g. rewrite <- !Z.pow_add_r by lia. f_equal. lia. }
  assert (a * 2 ^ 53 * g = 2 ^ 110) as E2.
  { unfold a, g. rewrite <- !Z.pow_add_r by lia. f_equal. lia. }
  assert (2 ^ k * b * g <= 2 ^ 58) as E3.
  { unfold b, g. rewrite <- !Z.pow_add_r by lia.
    apply Z.pow_le_mono_r; lia. }
  rewrite <- E1, <- E2.
  set (X := Z.pos m3 * 2 ^ j * Z.pos my - Z.pos mx * 2 ^ 53) in *.
  replace (Z.pos m3 * (b * g * 2 ^ j) * n - o * (a * 2 ^ 53 * g))
    with (X * g) by (unfold X; rewrite Hmx, Hmy; ring).
  rewrite Z.mul_assoc, Z.abs_mul, (Z.abs_eq g) by lia.
  etrans; [apply Z.mul_le_mono_nonneg_r; [lia | exact Herr]|].
  rewrite Hmy.
  replace (2 ^ k * (n * b) * g) with (2 ^ k * b * g * n) by ring.
  apply Z.mul_le_mono_nonneg_r; lia.
Qed.

Lemma SFmul_100_nearest m3 e3 :
  2 ^ 52 <= Z.pos m3 < 2 ^ 53 -> -107 <= e3 <= -52 ->
  exists m5 e5,
    SFmul prec emax (S754_finite false m3 e3) (Number 100)
    = S754_finite false m5 e5
    /\ -101 <= e5 <= -44
    /\ Z.abs (2 * (Z.pos m5 * 2 ^ (e5 + 156)
                   - Z.pos m3 * 2 ^ (e3 + 110) * (100 * 2 ^ 46)))
       <= 2 ^ 111.
Proof.
  intros Hm3 He3.
  change (Number 100) with (S754_finite false 7036874417766400 (-46)).
  unfold SFmul. cbn [xorb].
  set (P := (m3 * 7036874417766400)%positive).
  assert (Z.pos P = Z.pos m3 * (100 * 2 ^ 46)) as HP by (unfold P; lia).
  assert (2 ^ 104 <= Z.pos P < 2 ^ 106) as HPb by lia.
  set (k := Z.pos (digits2_pos P) - 53).
  assert (52 <= k <= 53) as Hk.
  { unfold k. destruct (Z.lt_ge_cases (Z.pos P) (2 ^ 105)).
    - rewrite (digits2_pos_eq P 105) by (change (105 - 1) with 104; lia). lia.
    - rewrite (digits2_pos_eq P 106) by (change (106 - 1) with 105; lia). lia. }
  destruct (binary_round_aux_nearest P (e3 + -46) loc_Exact (Z.pos P) 1)
    as (m5 & j & -> & Hj & Hm5 & Herr).
  { fold k. lia. }
  { fold k. unfold emin, prec, emax. lia. }
  { fold k. unfold prec, emax. lia. }
  { unfold represents. cbn [shr_record_of_loc shr_m shr_r shr_s]. lia. }
  fold k in Hj, Herr. rewrite !Z.mul_1_r in Herr.
  exists m5, (e3 + -46 + j). split; [done|]. split; [lia|].
  set (g := 2 ^ (e3 + 110)).
  assert (0 < g) as Hg by (apply pow2_pos; lia).
  assert (2 ^ j * g = 2 ^ (e3 + -46 + j + 156)) as E1.
  { unfold g. rewrite <- Z.pow_add_r by lia. f_equal. lia. }
  assert (2 ^ k * g <= 2 ^ 111) as E2.
  { unfold g. rewrite <- Z.pow_add_r by lia. apply Z.pow_le_mono_r; lia. }
  rewrite <- E1.
  replace (Z.pos m5 * (2 ^ j * g) - Z.pos m3 * g * (100 * 2 ^ 46))
    with ((Z.pos m5 * 2 ^ j - Z.pos P) * g) by (rewrite HP; ring).
  rewrite Z.mul_assoc, Z.abs_mul, (Z.abs_eq g) by lia.
  etrans; [apply Z.mul_le_mono_nonneg_r; [lia | exact Herr]|]. done.
Qed.

Lemma Math_round_floor m e :
  e < 0 ->
  Math_round (S754_finite false m e)
  = Number ((2 * Z.pos m + 2 ^ (- e)) / 2 ^ (1 - e)).
Proof.
  intros He. unfold Math_round, Number.
  destruct (Z.leb_spec 0 e); [lia | reflexivity].
Qed.

Lemma percentage_of_nearest owned total :
  0 <= owned <= total -> 0 < total < 2 ^ 32 ->
  exists p,
    percentage_of owned total = Number p
    /\ 2 * total * p <= 200 * owned + total <= 2 * total * (p + 1).
Proof.
  intros Ho Hn.
  destruct (Z.eq_dec owned 0) as [->|Hpos].
  { exists 0. rewrite percentage_of_none_owned. split; [done | lia]. }
  unfold percentage_of. destruct (Z.ltb_spec 0 total); [|lia].
  destruct (SFdiv_Number_nearest owned total ltac:(lia) ltac:(lia))
    as (m3 & e3 & -> & Hm3 & He3 & Hq).
  destruct (SFmul_100_nearest m3 e3 Hm3 He3) as (m5 & e5 & -> & He5 & Hx).
  rewrite Math_round_floor by lia. eexists. split; [reflexivity|].
  set (w := 2 ^ (- e5)).
  assert (0 < w) as Hw by (apply pow2_pos; lia).
  replace (2 ^ (1 - e5)) with (2 * w)
    by (unfold w; rewrite <- (Z.pow_1_r 2) at 1;
        rewrite <- Z.pow_add_r by lia; f_equal; lia).
  set (p := (2 * Z.pos m5 + w) / (2 * w)).
  pose proof (Z.mul_div_le (2 * Z.pos m5 + w) (2 * w) ltac:(lia)) as Hlo.
  pose proof (Z.mul_succ_div_gt (2 * Z.pos m5 + w) (2 * w) ltac:(lia)) as Hhi.
  fold p in Hlo, Hhi.
  set (c := 2 ^ (e5 + 156)) in *.
  assert (0 < c) as Hc by (apply pow2_pos; lia).
  assert (w * c = 2 ^ 156) as Hwc
    by (unfold w, c; rewrite <- Z.pow_add_r by lia; f_equal; lia).
  set (x := Z.pos m5 * c) in *.
  set (q := Z.pos m3 * 2 ^ (e3 + 110)) in *.
  assert (2 ^ 157 * p <= 2 * x + 2 ^ 156) as Hlo'.
  { replace (2 ^ 157 * p) with (2 * w * p * c)
      by (replace (2 ^ 157) with (2 * 2 ^ 156) by done; rewrite <- Hwc; ring).
    replace (2 * x + 2 ^ 156) with ((2 * Z.pos m5 + w) * c)
      by (rewrite <- Hwc; unfold x; ring).
    apply Z.mul_le_mono_nonneg_r; lia. }
  assert (2 * x + 2 ^ 156 < 2 ^ 157 * (p + 1)) as Hhi'.
  { replace (2 ^ 157 * (p + 1)) with (2 * w * Z.succ p * c)
      by (replace (2 ^ 157) with (2 * 2 ^ 156) by done; rewrite <- Hwc;
          unfold Z.succ; ring).
    replace (2 * x + 2 ^ 156) with ((2 * Z.pos m5 + w) * c)
      by (rewrite <- Hwc; unfold x; ring).
    apply Z.mul_lt_mono_pos_r; lia. }
  clearbody x q p. clear Hlo Hhi Hwc Hw Hc c w He5 He3 Hm3 m3 m5 e3 e5.
  assert (0 < total) as Ht by lia.
  apply Z.abs_le in Hx, Hq.
  assert (2 ^ 157 * p * total <= (2 * x + 2 ^ 156) * total)
    by (apply Z.mul_le_mono_nonneg_r; lia).
  assert ((2 * x + 2 ^ 156) * total < 2 ^ 157 * (p + 1) * total)
    by (apply Z.mul_lt_mono_pos_r; lia).
  assert (- 2 ^ 111 * total <= 2 * (x - q * (100 * 2 ^ 46)) * total
          <= 2 ^ 111 * total)
    by (split; apply Z.mul_le_mono_nonneg_r; lia).
  lia.
Qed.

Lemma percentage_of_is_percentage owned total :
  0 <= owned <= total -> total < 2 ^ 32 ->
  is_percentage (percentage_of owned total) owned total.
Proof.
  intros Ho Hn. unfold is_percentage.
  destruct (Z.ltb_spec 0 total) as [Hpos|Hzero].
  - destruct (percentage_of_nearest owned total Ho ltac:(lia))
      as (p & -> & Hnear).
    exists p. split; [done|]. split; [|done].
    unfold nearest_percentage in Hnear. split.
    + destruct (Z.le_gt_cases 0 p) as [|Hneg]; [done|]. exfalso.
      assert (2 * total * (p + 1) <= 2 * total * 0)
        by (apply Z.mul_le_mono_nonneg_l; lia).
      lia.
    + destruct (Z.le_gt_cases p 100) as [|Hgt]; [done|]. exfalso.
      assert (2 * total * 101 <= 2 * total * p)
        by (apply Z.mul_le_mono_nonneg_l; lia).
      lia.
  - exists 0. unfold percentage_of.
    destruct (Z.ltb_spec 0 total); [lia | done].
Qed.

(** ** Running the parser *)

Ltac run_monad :=
  unfold try_catch, bind, ret, throw, enter, read_isDlcFile, write_isDlcFile,
    write_fileData; cbn beta iota.

Lemma mapM_stateless {A B : Type} (f : A -> M B) (e0 : exn) :
  (forall a this log,
      (exists b, f a this log = (Returned b, this, log))
      \/ f a this log = (Thrown e0, this, log)) ->
  forall l this log,
    (exists bs, length bs = length l
                /\ mapM f l this log = (Returned bs, this, log))
    \/ mapM f l this log = (Thrown e0, this, log).
Proof.
  intros Hf l this log. induction l as [|a l IH]; simpl.
  - left. by exists [].
  - run_monad. destruct (Hf a this log) as [[b ->]| ->]; [|by right].
    destruct IH as [(bs & Hlen & ->)| ->]; [|by right].
    left. exists (b :: bs). simpl. by rewrite Hlen.
Qed.

Section Parser.
Context `{TextDecoder}.

Lemma getCharacterNames_run fileData this log :
  (exists names,
      length names = 10%nat
      /\ getCharacterNames fileData this log
         = (Returned names, this, log ++ [GetCharacterNames]))
  \/ getCharacterNames fileData this log
     = (Thrown RangeError_Uint16Array, this, log ++ [GetCharacterNames]).
Proof.
  unfold getCharacterNames. run_monad.
  match goal with
  | |- context [mapM ?f name_offsets] =>
      destruct (mapM_stateless f RangeError_Uint16Array) with
        (l := name_offsets) (this := this) (log := log ++ [GetCharacterNames])
        as [(names & Hlen & ->)| ->]
  end.
  - intros offset this' log'.
    destruct (Uint16Array_of _); [left; eauto | by right].
  - left. by exists names.
  - by right.
Qed.

Lemma getSlots_length fileData : length (getSlots fileData) = 10%nat.
Proof. reflexivity. Qed.

Lemma getSlots_out_of_range fileData slotIndex :
  slotIndex < 0 \/ 9 < slotIndex -> index (getSlots fileData) slotIndex = None.
Proof.
  intros Hout. unfold index.
  destruct (Z.ltb_spec slotIndex 0); [done|].
  apply lookup_ge_None_2. rewrite getSlots_length. lia.
Qed.

Lemma getInventory_undefined this log :
  getInventory None this log
  = (Thrown (TypeError_undefined "byteLength"), this, log ++ [GetInventory]).
Proof. reflexivity. Qed.

(** The outcome of [getInventory] on a slot, case by case. *)
Lemma getInventory_run slot this log :
  getInventory (Some slot) this log
  = match findPattern slot PATTERN_NORMAL with
    | Some m =>
        (Returned (inventory_range slot (m + 8 + 8)),
         {| isDlcFile := false; fileData := fileData this |},
         log ++ [GetInventory])
    | None =>
        match findPattern slot PATTERN_DLC with
        | Some m =>
            (Returned (inventory_range slot (m + 5 + 3)),
             {| isDlcFile := true; fileData := fileData this |},
             log ++ [GetInventory])
        | None => (Returned None, this, log ++ [GetInventory])
        end
    end.
Proof.
  unfold getInventory. run_monad.
  destruct (findPattern slot PATTERN_NORMAL); [done|].
  by destruct (findPattern slot PATTERN_DLC).
Qed.

Lemma parseInventory_invalid fileData slotIndex this log :
  validateFile fileData = false ->
  parseInventory fileData slotIndex this log
  = (Returned (ParseFailure "Invalid save file format"), this,
     log ++ [ValidateFile]).
Proof. intros E. unfold parseInventory. run_monad. by rewrite E. Qed.

Lemma getSlotNames_invalid fileData this log :
  validateFile fileData = false ->
  getSlotNames fileData this log
  = (Returned (NamesFailure "Invalid save file format"), this,
     log ++ [ValidateFile]).
Proof. intros E. unfold getSlotNames. run_monad. by rewrite E. Qed.

Lemma getCharacterNames_readable fileData this log :
  names_readable fileData ->
  exists names,
    getCharacterNames fileData this log
    = (Returned names, this, log ++ [GetCharacterNames]).
Proof.
  intros Hread. unfold getCharacterNames. run_monad.
  generalize (log ++ [GetCharacterNames]). clear log. revert Hread.
  unfold names_readable.
  induction name_offsets as [|offset offsets IH]; intros Hread log; simpl.
  - by eexists.
  - apply Forall_cons in Hread as [[units Hunits] Hrest].
    run_monad. rewrite Hunits.
    destruct (IH Hrest log) as [names E]. run_monad.
    rewrite E. by eexists.
Qed.

Lemma parseInventory_valid fileData slotIndex this log names :
  validateFile fileData = true ->
  getCharacterNames fileData
    {| isDlcFile := isDlcFile this; fileData := Some fileData |}
    (log ++ [ValidateFile])
  = (Returned names,
     {| isDlcFile := isDlcFile this; fileData := Some fileData |},
     log ++ [ValidateFile; GetCharacterNames]) ->
  parseInventory fileData slotIndex this log
  = try_catch
      (inventoryData <- getInventory (index (getSlots fileData) slotIndex) ;;
       match inventoryData with
       | None => ret (ParseFailure "Could not find inventory data in slot")
       | Some inventoryData =>
           isDlc <- read_isDlcFile ;;
           let itemIds := decodeInventory isDlc inventoryData in
           ret (ParseSuccess itemIds isDlc (index names slotIndex)
                             (Z.of_nat (length itemIds)))
       end)
      (fun error => enter ConsoleError ;;; ret (ParseFailure (message error)))
      {| isDlcFile := isDlcFile this; fileData := Some fileData |}
      (log ++ [ValidateFile; GetCharacterNames; GetSlots]).
Proof.
  intros Hvalid Hnames. unfold parseInventory. run_monad.
  rewrite Hvalid. cbn [negb]. rewrite Hnames.
  rewrite <- !(assoc_L (++)). reflexivity.
Qed.

(** C5. A buffer whose first four bytes are not 42 4E 44 34 makes
    [parseInventory] and [getSlotNames] return the failure "Invalid save
    file format", and nothing else runs: the parser state is unchanged and
    the log gains [ValidateFile] only, so that no name is decoded, no slot
    is extracted and no inventory is located. *)
Theorem invalid_signature_stops_decoding fileData slotIndex this log :
  take 4 fileData ≠ FILE_SIGNATURE ->
  parseInventory fileData slotIndex this log
  = (Returned (ParseFailure "Invalid save file format"), this,
     log ++ [ValidateFile])
  /\ getSlotNames fileData this log
     = (Returned (NamesFailure "Invalid save file format"), this,
        log ++ [ValidateFile]).
Proof.
  intros Hsig.
  assert (validateFile fileData = false) as E.
  { destruct (validateFile fileData) eqn:E; [|done].
    by apply validateFile_signature in E. }
  split; [by apply parseInventory_invalid | by apply getSlotNames_invalid].
Qed.

(** C10. On a file with the BND4 signature and a slot index outside 0..9,
    [parseInventory] returns a failure value: the exception raised on the
    way (by the slot access, or earlier by the name fields) is caught by
    the handler, which logs it and returns its message. *)
Theorem slot_index_out_of_range_fails fileData slotIndex this log :
  validateFile fileData = true ->
  slotIndex < 0 \/ 9 < slotIndex ->
  exists e this' calls,
    parseInventory fileData slotIndex this log
    = (Returned (ParseFailure (message e)), this',
       log ++ calls ++ [ConsoleError])
    /\ (e = TypeError_undefined "byteLength" \/ e = RangeError_Uint16Array).
Proof.
  intros Hvalid Hout.
  destruct (getCharacterNames_run fileData
              {| isDlcFile := isDlcFile this; fileData := Some fileData |}
              (log ++ [ValidateFile])) as [(names & _ & Hnames)|Hthrown].
  - rewrite <- (assoc_L (++)) in Hnames.
    rewrite (parseInventory_valid _ _ _ _ names Hvalid Hnames).
    rewrite getSlots_out_of_range by done. run_monad.
    rewrite getInventory_undefined.
    exists (TypeError_undefined "byteLength"). eexists.
    exists [ValidateFile; GetCharacterNames; GetSlots; GetInventory].
    split; [|by left]. by rewrite <- !(assoc_L (++)).
  - exists RangeError_Uint16Array. eexists.
    exists [ValidateFile; GetCharacterNames].
    split; [|by right]. unfold parseInventory. run_monad.
    rewrite Hvalid. cbn [negb]. rewrite Hthrown.
    by rewrite <- !(assoc_L (++)).
Qed.

(** C6. [getInventory] looks for the standard marker first: when its first
    occurrence is at offset [m] the range starts at [m + 8 + 8] and the
    layout is Standard ([isDlcFile] is false). Only when the standard
    marker occurs nowhere is the expansion marker looked for: when its
    first occurrence is at [m] the range starts at [m + 5 + 3] and the
    layout is Expansion. When neither occurs the result is [null],
    returned and not thrown, and [parseInventory] reports "Could not find
    inventory data in slot" without entering its handler. A range that
    starts at [index] is the bytes of the slot from [index] to six bytes
    after the first run of fifty zero bytes found from there. *)
Theorem getInventory_marker_order slot this log :
  (forall m,
      first_occurrence slot PATTERN_NORMAL m ->
      getInventory (Some slot) this log
      = (Returned (inventory_range slot (m + 8 + 8)),
         {| isDlcFile := false; fileData := fileData this |},
         log ++ [GetInventory]))
  /\ (forall m,
         (forall j, ~ occurs_at slot PATTERN_NORMAL j) ->
         first_occurrence slot PATTERN_DLC m ->
         getInventory (Some slot) this log
         = (Returned (inventory_range slot (m + 5 + 3)),
            {| isDlcFile := true; fileData := fileData this |},
            log ++ [GetInventory]))
  /\ ((forall j, ~ occurs_at slot PATTERN_NORMAL j) ->
      (forall j, ~ occurs_at slot PATTERN_DLC j) ->
      getInventory (Some slot) this log
      = (Returned None, this, log ++ [GetInventory])
      /\ forall fileData slotIndex,
          validateFile fileData = true ->
          names_readable fileData ->
          index (getSlots fileData) slotIndex = Some slot ->
          parseInventory fileData slotIndex this log
          = (Returned
               (ParseFailure "Could not find inventory data in slot"),
             {| isDlcFile := isDlcFile this; fileData := Some fileData |},
             log ++ [ValidateFile; GetCharacterNames; GetSlots;
                     GetInventory]))
  /\ (forall index range,
         inventory_range slot index = Some range ->
         exists endIndex,
           findPattern (subarray slot index (byteLength slot))
                       (replicate 50 x00) = Some endIndex
           /\ range = subarray slot index (index + endIndex + 6)).
Proof.
  rewrite getInventory_run. split; [|split; [|split]].
  - intros m Hfirst. apply findPattern_Some in Hfirst; [|done].
    by rewrite Hfirst.
  - intros m Hnone Hfirst.
    apply findPattern_None in Hnone; [|done].
    apply findPattern_Some in Hfirst; [|done].
    by rewrite Hnone, Hfirst.
  - intros Hnormal Hdlc.
    apply findPattern_None in Hnormal; [|done].
    apply findPattern_None in Hdlc; [|done].
    rewrite Hnormal, Hdlc. split; [done|].
    intros fileData slotIndex Hvalid Hread Hslot.
    destruct (getCharacterNames_readable fileData
                {| isDlcFile := isDlcFile this; fileData := Some fileData |}
                (log ++ [ValidateFile]) Hread) as [names Hnames].
    rewrite <- (assoc_L (++)) in Hnames.
    rewrite (parseInventory_valid _ _ _ _ names Hvalid Hnames).
    rewrite Hslot. run_monad. rewrite getInventory_run, Hnormal, Hdlc.
    by rewrite <- !(assoc_L (++)).
  - intros index range. unfold inventory_range.
    destruct (findPattern _ _) as [endIndex|]; [|done].
    intros [= <-]. by exists endIndex.
Qed.
End Parser.

(** C9. For four bytes, [convertIdToHex] gives the eight upper-case
    hexadecimal digits of their little-endian value, most significant first,
    which is each byte rendered as two digits in reversed order; reading the
    digits back pair by pair and reversing the bytes gives the four bytes
    again. *)
Theorem convertIdToHex_round_trip (b0 b1 b2 b3 : byte) :
  let hexId := convertIdToHex [b0; b1; b2; b3] in
  String.length hexId = 8%nat
  /\ hexId = hex8 (le32 [b0; b1; b2; b3])
  /\ hexId = two_digits b3 (two_digits b2 (two_digits b1 (two_digits b0 "")))
  /\ @rev byte <$> bytes_of_hex hexId = Some [b0; b1; b2; b3].
Proof.
  cbv zeta. rewrite hex8_le32, convertIdToHex_four.
  split; [done|]. split; [done|]. split; [done|].
  rewrite !bytes_of_hex_two_digits. reflexivity.
Qed.

(** ** Categories *)

Lemma between_nested id lo hi lo' hi' :
  lo' <= lo -> hi <= hi' -> between id lo hi = true -> between id lo' hi' = true.
Proof.
  destruct id as [v|]; simpl; [|done]. intros Hlo Hhi.
  rewrite !andb_true_iff, !Z.leb_le. lia.
Qed.

(** [determineCategory] returns one of seven names; the branches of the
    last four rows are never taken. *)
Lemma determineCategory_values itemId :
  determineCategory itemId
    ∈ ["Weapons"; "Armor"; "Talismans"; "Magic"; "Ashes of War";
       "Spirit Ashes"; "Other"].
Proof.
  unfold determineCategory. set (id := parseInt16 itemId).
  assert (forall lo hi,
             0x40000000 <= lo -> hi <= 0x48000000 ->
             between id 0x40000000 0x48000000 = false ->
             between id lo hi = false) as Hshadow.
  { intros lo hi Hlo Hhi Hmagic. destruct (between id lo hi) eqn:E; [|done].
    apply (between_nested _ _ _ 0x40000000 0x48000000) in E; [|lia..].
    congruence. }
  destruct (between id 0x00F42400 0x017D7840); [repeat constructor|].
  destruct (between id 0x10000000 0x14000000); [repeat constructor|].
  destruct (between id 0x20000000 0x24000000); [repeat constructor|].
  destruct (between id 0x40000000 0x48000000) eqn:Hmagic;
    [repeat constructor|].
  destruct (between id 0x80000000 0x88000000); [repeat constructor|].
  destruct (between id 0x90000000 0x98000000); [repeat constructor|].
  rewrite !Hshadow by (done || lia). repeat constructor.
Qed.

Lemma determineCategory_default itemId :
  (forall lo hi,
      (lo, hi) ∈ [(0x00F42400, 0x017D7840); (0x10000000, 0x14000000);
                  (0x20000000, 0x24000000); (0x40000000, 0x48000000);
                  (0x80000000, 0x88000000); (0x90000000, 0x98000000);
                  (0x400007F0, 0x40000850); (0x40002400, 0x40002500);
                  (0x40000BC0, 0x40000BF0); (0x40000000, 0x40001000)] ->
      between (parseInt16 itemId) lo hi = false) ->
  determineCategory itemId = "Other".
Proof.
  intros Hnone. unfold determineCategory.
  rewrite !Hnone; [done | repeat constructor ..].
Qed.

Lemma determineCategory_first_rows :
  determineCategory "00F42400" = "Weapons"
  /\ determineCategory "10000000" = "Armor"
  /\ determineCategory "20000000" = "Talismans"
  /\ determineCategory "40000000" = "Magic"
  /\ determineCategory "80000000" = "Ashes of War"
  /\ determineCategory "90000000" = "Spirit Ashes".
Proof. repeat split; reflexivity. Qed.

(** C1. At the lower bounds of the rows Bell Bearings, Cookbooks, Crystal
    Tears and Key Items, [determineCategory] returns "Magic": the test of the
    Magic row comes first and its range contains theirs. No identifier at
    all is classified in one of these four categories. *)
Theorem determineCategory_shadowed_rows :
  determineCategory "400007F0" = "Magic"
  /\ determineCategory "40002400" = "Magic"
  /\ determineCategory "40000BC0" = "Magic"
  /\ determineCategory "40000000" = "Magic"
  /\ forall itemId,
      determineCategory itemId
        ∉ ["Bell Bearings"; "Cookbooks"; "Crystal Tears"; "Key Items"].
Proof.
  repeat (split; [reflexivity|]).
  intros itemId Hin. pose proof (determineCategory_values itemId) as Hval.
  rewrite !elem_of_cons, elem_of_nil in Hin.
  rewrite !elem_of_cons, elem_of_nil in Hval.
  destruct Hin as [E|[E|[E|[E|[]]]]]; rewrite E in Hval;
    repeat (destruct Hval as [Hval|Hval]; [discriminate|]); done.
Qed.

(** ** Filtering by ownership *)

Lemma filterItems_owned this :
  filterItems this (only_status "owned")
  = filter (fun item => Item.owned item = true) (enrichedItems this).
Proof. reflexivity. Qed.

Lemma filterItems_missing this :
  filterItems this (only_status "missing")
  = filter (fun item => negb (Item.owned item) = true) (enrichedItems this).
Proof. reflexivity. Qed.

Section Partition.
Context {A : Type} (flag : A -> bool).

Lemma interleave_filter (l : list A) :
  interleave (flag <$> l)
             (filter (fun x => flag x = true) l)
             (filter (fun x => negb (flag x) = true) l)
  = l.
Proof.
  induction l as [|x l IH]; [done|].
  rewrite fmap_cons, !filter_cons.
  destruct (flag x) eqn:E; simpl.
  - destruct (decide (true = true)); [|done].
    destruct (decide (false = true)); [done|]. simpl. by rewrite IH.
  - destruct (decide (false = true)); [done|].
    destruct (decide (true = true)); [|done].
    simpl. by rewrite IH.
Qed.

Lemma filter_lengths (l : list A) :
  (length (filter (fun x => flag x = true) l)
   + length (filter (fun x => negb (flag x) = true) l))%nat
  = length l.
Proof.
  induction l as [|x l IH]; [done|].
  rewrite !filter_cons. destruct (flag x); simpl;
    repeat case_decide; simpl; try done; lia.
Qed.

Lemma filter_exclusive (l : list A) x :
  x ∈ l ->
  x ∈ filter (fun x => flag x = true) l
  /\ x ∉ filter (fun x => negb (flag x) = true) l
  \/ x ∈ filter (fun x => negb (flag x) = true) l
     /\ x ∉ filter (fun x => flag x = true) l.
Proof.
  intros Hin. rewrite !list_elem_of_filter.
  destruct (flag x); simpl; [left | right]; (split; [done | by intros []]).
Qed.
End Partition.

(** C8. On any list of enriched items, the filter with status "owned" and
    the filter with status "missing" (no other criterion) split the list:
    each result is a subsequence of the list, every item of the list is in
    one of them and not in the other, their lengths add up to the length of
    the list, and putting them back together position by position, by the
    ownership flag of each position, gives the list. *)
Theorem filterItems_status_partition (this : TrackerCore) :
  let items := enrichedItems this in
  let owned := filterItems this (only_status "owned") in
  let missing := filterItems this (only_status "missing") in
  sublist owned items
  /\ sublist missing items
  /\ (forall item,
        item ∈ items ->
        item ∈ owned /\ item ∉ missing \/ item ∈ missing /\ item ∉ owned)
  /\ (length owned + length missing)%nat = length items
  /\ Forall (fun item => Item.owned item = true) owned
  /\ Forall (fun item => Item.owned item = false) missing
  /\ interleave (Item.owned <$> items) owned missing = items.
Proof.
  cbv zeta. rewrite filterItems_owned, filterItems_missing.
  split; [apply sublist_filter|]. split; [apply sublist_filter|].
  split; [apply filter_exclusive|]. split; [apply filter_lengths|].
  split; [|split].
  - apply Forall_forall. intros item Hin.
    by apply list_elem_of_filter in Hin as [? _].
  - apply Forall_forall. intros item Hin.
    apply list_elem_of_filter in Hin as [Hneg _].
    by apply negb_true_iff in Hneg.
  - apply interleave_filter.
Qed.

(** ** Cross-reference and statistics *)

Lemma crossReference_run this includeDLC locationData :
  getMergedData (dataLoader this) includeDLC = Returned locationData ->
  crossReference this includeDLC
  = Returned
      ((fun '(region, subregion, itemId, itemData) =>
          enrich (list_to_set (inventoryIds this))
                 region subregion itemId itemData)
         <$> triples locationData).
Proof.
  intros E. unfold crossReference. rewrite E. f_equal. clear E.
  unfold triples.
  induction locationData as [|[region subregions] locationData IH]; [done|].
  rewrite !bind_cons, fmap_app, <- IH. f_equal. clear.
  induction subregions as [|[subregion items] subregions IH]; [done|].
  rewrite !bind_cons, fmap_app, <- IH. f_equal. clear.
  induction items as [|[itemId itemData] items IH]; [done|].
  rewrite !bind_cons, fmap_app, <- IH. done.
Qed.

Lemma enrich_nothing_owned region subregion itemId itemData :
  Item.owned (enrich ∅ region subregion itemId itemData) = false.
Proof. reflexivity. Qed.

Lemma calculateStats_percentage this :
  Stats.percentage (stats (calculateStats this))
  = percentage_of
      (Z.of_nat (length (filter (fun item => Item.owned item = true)
                                (enrichedItems this))))
      (Z.of_nat (length (enrichedItems this))).
Proof. reflexivity. Qed.

Lemma enriched_triples (owned : gset string) (c : catalog) :
  Forall2 (fun item '(region, subregion, itemId, itemData) =>
             Item.region item = region
             /\ Item.subregion item = subregion
             /\ Item.id item = itemId
             /\ Item.name item = Entry.name itemData)
          ((fun '(region, subregion, itemId, itemData) =>
              enrich owned region subregion itemId itemData)
             <$> triples c)
          (triples c).
Proof.
  induction (triples c) as [|[[[region subregion] itemId] itemData] l IH];
    constructor; done.
Qed.

Lemma filter_none_owned (items : list Item.t) :
  Forall (fun item => Item.owned item = false) items ->
  filter (fun item => Item.owned item = true) items = [].
Proof.
  induction 1 as [|item items Hitem _ IH]; [done|].
  rewrite filter_cons_False by congruence. done.
Qed.

(** C7. With an empty list of decoded identifiers, [crossReference] returns
    one enriched item for each (region, subregion, identifier) triple of the
    catalog, in order, each with [owned] false, and [calculateStats] on them
    gives the percentage 0. In general, for fewer than 2^32 items, as an
    array has, the percentage is the double of an integer between 0 and 100
    that is nearest to the exact percentage [100 * owned / total], being 0
    when there is no item: it differs from the exact percentage by at most
    one half. When the exact percentage lies halfway between two integers
    the code may give the lower one, so it is not always the half-up
    rounding of the exact value. *)
Theorem crossReference_nothing_owned this includeDLC locationData :
  inventoryIds this = [] ->
  getMergedData (dataLoader this) includeDLC = Returned locationData ->
  exists items,
    crossReference this includeDLC = Returned items
    /\ Forall2 (fun item '(region, subregion, itemId, itemData) =>
                  Item.region item = region
                  /\ Item.subregion item = subregion
                  /\ Item.id item = itemId
                  /\ Item.name item = Entry.name itemData)
               items (triples locationData)
    /\ Forall (fun item => Item.owned item = false) items
    /\ Stats.percentage (stats (calculateStats (with_items this items)))
       = S754_zero false
    /\ forall that : TrackerCore,
        Z.of_nat (length (enrichedItems that)) < 2 ^ 32 ->
        is_percentage
          (Stats.percentage (stats (calculateStats that)))
          (Z.of_nat (length (filter (fun item => Item.owned item = true)
                                    (enrichedItems that))))
          (Z.of_nat (length (enrichedItems that))).
Proof.
  intros Hids Hdata. eexists. split.
  { rewrite (crossReference_run _ _ _ Hdata), Hids. reflexivity. }
  split; [apply enriched_triples|].
  assert (Forall (fun item => Item.owned item = false)
            ((fun '(region, subregion, itemId, itemData) =>
                enrich (list_to_set []) region subregion itemId itemData)
               <$> triples locationData)) as Hnone.
  { apply Forall_fmap, Forall_forall. by intros [[[? ?] ?] ?] _. }
  split; [done|]. split.
  - rewrite calculateStats_percentage. cbn [enrichedItems with_items].
    rewrite filter_none_owned by done.
    by rewrite percentage_of_none_owned.
  - intros that Hlength. rewrite calculateStats_percentage.
    apply percentage_of_is_percentage; [|done].
    pose proof (length_filter (fun item => Item.owned item = true)
                  (enrichedItems that)).
    lia.
Qed.

(** C7, counterexample. With 23 of 40 items owned the exact percentage is
    57.5, which rounds half up to 58; the code gives 57, the quotient
    [23 / 40] being a double just below 0.575. *)
Lemma percentage_tie_rounds_down :
  Z.of_nat (length (enrichedItems tracker_23_of_40)) = 40
  /\ Z.of_nat (length (filter (fun item => Item.owned item = true)
                              (enrichedItems tracker_23_of_40))) = 23
  /\ round_half_up_percentage 23 40 = 58
  /\ Stats.percentage (stats (calculateStats tracker_23_of_40)) = Number 57
  /\ Number 57 <> Number 58.
Proof.
  split; [reflexivity|]. split; [reflexivity|]. split; [reflexivity|].
  split; [|vm_compute; discriminate].
  rewrite calculateStats_percentage. vm_compute. reflexivity.
Qed.

(** ** Chunks *)

Section Chunks.
Context {A : Type}.
Implicit Types l : list A.

(** The loop of [splitIntoChunks] takes the chunks from the front of what
    is left of the array; the fuel given by [splitIntoChunks] is enough. *)
Lemma splitIntoChunks_from_chunks_of fuel fuel' l (w : nat) i :
  (0 < w)%nat -> 0 <= i ->
  Z.of_nat (length l) - i <= Z.of_nat fuel ->
  (length (drop (Z.to_nat i) l) <= fuel')%nat ->
  splitIntoChunks_from fuel l (Z.of_nat w) i
  = chunks_of fuel' w (drop (Z.to_nat i) l).
Proof.
  intros Hw. revert fuel' i.
  induction fuel as [|fuel IH]; intros fuel' i Hi Hfuel Hfuel'; simpl.
  - rewrite drop_ge by lia. by destruct fuel'.
  - destruct (Z.ltb_spec i (Z.of_nat (length l))) as [Hlt|Hge].
    + rewrite slice_take_drop by lia.
      replace (Z.to_nat (i + Z.of_nat w - i)) with w by lia.
      destruct (drop (Z.to_nat i) l) as [|x rest] eqn:E.
      { apply (f_equal length) in E. rewrite length_drop in E.
        simpl in E. lia. }
      destruct fuel' as [|fuel']; [simpl in Hfuel'; lia|].
      cbn [chunks_of]. f_equal. rewrite <- E, drop_drop.
      replace (Z.to_nat i + w)%nat with (Z.to_nat (i + Z.of_nat w)) by lia.
      apply IH; [lia | lia |].
      rewrite length_drop. simpl in Hfuel'.
      apply (f_equal length) in E. rewrite length_drop in E. simpl in E.
      lia.
    + rewrite drop_ge by lia. by destruct fuel'.
Qed.

Lemma splitIntoChunks_chunks_of l (w : nat) :
  (0 < w)%nat ->
  splitIntoChunks l (Z.of_nat w) = chunks_of (length l) w l.
Proof.
  intros Hw. unfold splitIntoChunks.
  rewrite (splitIntoChunks_from_chunks_of _ (length l));
    [done | done | lia | lia | rewrite drop_0; lia].
Qed.

Lemma partial_chunk_drop l (w : nat) :
  (0 < w)%nat -> (w <= length l)%nat ->
  partial_chunk w (drop w l) = partial_chunk w l.
Proof.
  intros Hw Hlen. unfold partial_chunk. rewrite length_drop.
  assert ((length l - w) mod w = length l mod w)%nat as ->.
  { replace (length l) with ((length l - w) + 1 * w)%nat at 2 by lia.
    by rewrite Nat.Div0.mod_add. }
  destruct (Nat.eqb_spec (length l mod w) 0); [done|].
  rewrite drop_drop. do 2 f_equal.
  pose proof (Nat.Div0.mod_le (length l - w) w).
  assert ((length l - w) mod w = length l mod w)%nat as E.
  { replace (length l) with ((length l - w) + 1 * w)%nat at 2 by lia.
    by rewrite Nat.Div0.mod_add. }
  lia.
Qed.

(** The chunks are the chunks of full width, followed by what is left
    when the length is not a multiple of the width. *)
Lemma chunks_of_full_partial fuel l (w : nat) :
  (0 < w)%nat -> (length l <= fuel)%nat ->
  chunks_of fuel w l = full_chunks fuel w l ++ partial_chunk w l.
Proof.
  intros Hw. revert l. induction fuel as [|fuel IH]; intros l Hfuel.
  - destruct l; [|simpl in Hfuel; lia]. simpl.
    unfold partial_chunk. simpl. by rewrite Nat.Div0.mod_0_l.
  - destruct l as [|x l]; simpl chunks_of.
    { simpl. destruct (Nat.ltb_spec 0 w); [|lia].
      unfold partial_chunk. simpl. by rewrite Nat.Div0.mod_0_l. }
    cbn [full_chunks].
    destruct (Nat.ltb_spec (length (x :: l)) w) as [Hshort|Hlong].
    + rewrite drop_ge by lia. rewrite take_ge by lia.
      unfold partial_chunk. rewrite Nat.mod_small by done.
      destruct (Nat.eqb_spec (length (x :: l)) 0) as [E|_];
        [simpl in E; lia|].
      rewrite Nat.sub_diag, drop_0. by destruct fuel.
    + rewrite IH by (rewrite length_drop; simpl in *; lia).
      rewrite partial_chunk_drop by done. done.
Qed.

Lemma full_chunks_spec fuel l (w : nat) :
  (0 < w)%nat -> (length l <= fuel)%nat ->
  Forall (fun c => length c = w) (full_chunks fuel w l)
  /\ length (full_chunks fuel w l) = (length l / w)%nat
  /\ concat (full_chunks fuel w l) = take (length l - length l mod w) l.
Proof.
  intros Hw. revert l. induction fuel as [|fuel IH]; intros l Hfuel.
  - destruct l; [|simpl in Hfuel; lia]. simpl.
    rewrite Nat.Div0.div_0_l. done.
  - cbn [full_chunks].
    destruct (Nat.ltb_spec (length l) w) as [Hshort|Hlong].
    + rewrite Nat.div_small, Nat.mod_small, Nat.sub_diag by done. done.
    + destruct (IH (drop w l)) as (Hall & Hcount & Hcat).
      { rewrite length_drop. lia. }
      rewrite length_drop in Hcount, Hcat.
      assert ((length l - w) mod w = length l mod w)%nat as Emod.
      { replace (length l) with ((length l - w) + 1 * w)%nat at 2 by lia.
        by rewrite Nat.Div0.mod_add. }
      assert (length l / w = S ((length l - w) / w))%nat as Ediv.
      { replace (length l) with ((length l - w) + 1 * w)%nat at 1 by lia.
        rewrite Nat.div_add by lia. lia. }
      pose proof (Nat.Div0.mod_le (length l - w) w).
      split; [|split].
      * constructor; [|done]. rewrite length_take. lia.
      * simpl. lia.
      * simpl. rewrite Hcat, Emod.
        rewrite take_take_drop. f_equal. lia.
Qed.

Lemma concat_partial_chunk l (w : nat) :
  (0 < w)%nat ->
  concat (partial_chunk w l) = drop (length l - length l mod w) l.
Proof.
  intros Hw. unfold partial_chunk.
  destruct (Nat.eqb_spec (length l mod w) 0) as [E|_]; simpl.
  - rewrite E, Nat.sub_0_r, drop_all. done.
  - by rewrite app_nil_r.
Qed.
End Chunks.

Lemma decodeInventory_chunks_of isDlcFile range :
  decodeInventory isDlcFile range
  = convertIdToHex
      <$> chunks_of (length range) (record_width isDlcFile) range.
Proof.
  unfold decodeInventory. f_equal.
  destruct isDlcFile; simpl record_width.
  - by rewrite <- (splitIntoChunks_chunks_of range 8) by lia.
  - by rewrite <- (splitIntoChunks_chunks_of range 16) by lia.
Qed.

(** C2. For every byte range and both layouts, [decodeInventory] gives one
    identifier for each chunk, in order, where the chunks are the chunks of
    full width (16 bytes for the standard layout, 8 for the expansion one)
    followed, when the length is not a multiple of the width, by the shorter
    chunk that is left. The chunks put end to end are the range, and a range
    of [n] bytes gives [ceil (n / width)] identifiers. *)
Theorem decodeInventory_keeps_partial_chunk isDlcFile (range : bytes) :
  let width := record_width isDlcFile in
  let full := full_chunks (length range) width range in
  let chunks := full ++ partial_chunk width range in
  decodeInventory isDlcFile range = convertIdToHex <$> chunks
  /\ concat chunks = range
  /\ Forall (fun chunk => length chunk = width) full
  /\ length full = (length range / width)%nat
  /\ length (decodeInventory isDlcFile range)
     = ((length range + width - 1) / width)%nat.
Proof.
  cbv zeta. set (width := record_width isDlcFile).
  assert (0 < width)%nat as Hw by (unfold width; destruct isDlcFile; simpl; lia).
  destruct (full_chunks_spec (length range) range width Hw ltac:(lia))
    as (Hall & Hcount & Hcat).
  assert (decodeInventory isDlcFile range
          = convertIdToHex
              <$> (full_chunks (length range) width range
                   ++ partial_chunk width range)) as Hdecode.
  { rewrite decodeInventory_chunks_of.
    by rewrite chunks_of_full_partial by (done || lia). }
  split; [done|]. split; [|split; [done|split; [done|]]].
  - rewrite concat_app, Hcat, concat_partial_chunk by done.
    apply take_drop.
  - rewrite Hdecode, length_fmap, length_app, Hcount.
    unfold partial_chunk.
    pose proof (Nat.div_mod_eq (length range) width) as Hdm.
    pose proof (Nat.mod_upper_bound (length range) width ltac:(lia)) as Hub.
    destruct (Nat.eqb_spec (length range mod width) 0) as [E|E]; simpl.
    + rewrite Nat.add_0_r.
      apply Nat.div_unique with (width - 1)%nat; lia.
    + apply Nat.div_unique with (length range mod width - 1)%nat; lia.
Qed.

(** The claim as worded fails: a range of ten bytes has no chunk of sixteen
    bytes, and still gives an identifier. *)
Lemma partial_chunk_gives_identifier :
  decodeInventory false (take 10 record_DEADBEEF) = ["DEADBEEF"]
  /\ decode_full_chunks false (take 10 record_DEADBEEF) = []
  /\ decodeInventory false (take 10 record_DEADBEEF)
     ≠ decode_full_chunks false (take 10 record_DEADBEEF).
Proof. split; [reflexivity|]. split; [reflexivity | discriminate]. Qed.

(** ** Files that end before the last slot *)

Lemma getSlots_windows fileData :
  getSlots fileData
  = (fun w => take (Z.to_nat (snd w - fst w)) (drop (Z.to_nat (fst w)) fileData))
      <$> slot_windows.
Proof.
  unfold getSlots, subarray, slot_windows. cbn [fmap list_fmap fst snd].
  by rewrite !slice_take_drop by lia.
Qed.

Lemma short_file_names_readable fileData :
  byteLength fileData < last_slot_end -> names_readable fileData.
Proof.
  unfold byteLength, last_slot_end, names_readable, name_offsets.
  intros Hshort.
  repeat (constructor;
          [rewrite slice_take_drop by lia; rewrite drop_ge by lia; by eexists|]).
  constructor.
Qed.

Section ShortFiles.
Context `{TextDecoder}.

(** With readable names and a slot index in 0..9, [parseInventory]
    returns without entering its handler. *)
Lemma parseInventory_in_range fileData slotIndex this log :
  validateFile fileData = true ->
  names_readable fileData ->
  0 <= slotIndex <= 9 ->
  exists result this',
    parseInventory fileData slotIndex this log
    = (Returned result, this',
       log ++ [ValidateFile; GetCharacterNames; GetSlots; GetInventory])
    /\ (result = ParseFailure "Could not find inventory data in slot"
        \/ success result = true).
Proof.
  intros Hvalid Hread Hindex.
  destruct (getCharacterNames_readable fileData
              {| isDlcFile := isDlcFile this; fileData := Some fileData |}
              (log ++ [ValidateFile]) Hread) as [names Hnames].
  rewrite <- (assoc_L (++)) in Hnames.
  rewrite (parseInventory_valid _ _ _ _ names Hvalid Hnames).
  destruct (index (getSlots fileData) slotIndex) as [slot|] eqn:Hslot.
  2: { unfold index in Hslot. destruct (Z.ltb_spec slotIndex 0); [lia|].
       apply lookup_ge_None_1 in Hslot. rewrite getSlots_length in Hslot.
       lia. }
  run_monad. rewrite getInventory_run.
  rewrite <- !(assoc_L (++)). cbn [app].
  destruct (findPattern slot PATTERN_NORMAL) as [m|].
  { destruct (inventory_range slot (m + 8 + 8)); eauto 6. }
  destruct (findPattern slot PATTERN_DLC) as [m|]; [|eauto 6].
  destruct (inventory_range slot (m + 5 + 3)); eauto 6.
Qed.

(** C4. On a file shorter than the end of the last slot, [getSlots] does
    not fail: it returns ten ranges, each holding the bytes of the file
    that lie inside its window, so that the last one is shorter than a
    slot. With the BND4 signature and a slot index in 0..9,
    [parseInventory] then goes on with the range of that slot and returns,
    without entering its handler, either the report "Could not find
    inventory data in slot" or a success. *)
Theorem getSlots_clamps_short_file fileData :
  byteLength fileData < last_slot_end ->
  length (getSlots fileData) = 10%nat
  /\ getSlots fileData
     = (fun w => take (Z.to_nat (snd w - fst w))
                      (drop (Z.to_nat (fst w)) fileData))
         <$> slot_windows
  /\ (exists last, getSlots fileData !! 9%nat = Some last
                   /\ byteLength last < 0x280000)
  /\ forall slotIndex this log,
      validateFile fileData = true ->
      0 <= slotIndex <= 9 ->
      exists result this',
        parseInventory fileData slotIndex this log
        = (Returned result, this',
           log ++ [ValidateFile; GetCharacterNames; GetSlots; GetInventory])
        /\ (result = ParseFailure "Could not find inventory data in slot"
            \/ success result = true).
Proof.
  intros Hshort. split; [apply getSlots_length|].
  split; [apply getSlots_windows|]. split.
  - rewrite getSlots_windows. eexists. split; [reflexivity|].
    unfold byteLength, last_slot_end in *. cbn [fst snd].
    rewrite length_take, length_drop. lia.
  - intros slotIndex this log Hvalid Hindex.
    apply parseInventory_in_range; [done | | done].
    by apply short_file_names_readable.
Qed.
End ShortFiles.

(** The claim as worded fails: a file that ends inside the first slot is
    decoded, with no error. *)
Lemma short_file_is_decoded :
  byteLength short_file < last_slot_end
  /\ @parseInventory latin1_decoder short_file 0 new_BinaryParser []
     = (Returned (ParseSuccess ["DEADBEEF"] false (Some "") 1),
        {| isDlcFile := false; fileData := Some short_file |},
        [ValidateFile; GetCharacterNames; GetSlots; GetInventory]).
Proof. split; [reflexivity | vm_compute; reflexivity]. Qed.

(** ** Synthetic slots of the standard layout *)

Lemma length_concat_uniform (records : list bytes) (w : nat) :
  Forall (fun r => length r = w) records ->
  length (concat records) = (length records * w)%nat.
Proof.
  induction 1 as [|r records Hr _ IH]; [done|].
  simpl. rewrite length_app, IH, Hr. done.
Qed.

Lemma lookup_concat_uniform (records : list bytes) (w k t : nat) r :
  Forall (fun r => length r = w) records ->
  records !! k = Some r -> (t < w)%nat ->
  concat records !! (k * w + t)%nat = r !! t.
Proof.
  intros Hall. revert k.
  induction Hall as [|r0 records Hr0 _ IH]; intros k Hk Ht; [done|].
  destruct k as [|k]; simpl in *.
  - injection Hk as ->. apply lookup_app_l. lia.
  - rewrite lookup_app_r by lia.
    replace (w + k * w + t - length r0)%nat with (k * w + t)%nat by lia.
    by apply IH.
Qed.

Lemma nonzero_split (l : bytes) :
  nonzero l -> exists pre b z, l = pre ++ b :: replicate z x00 /\ b ≠ x00.
Proof.
  unfold nonzero. induction l as [|x l IH] using rev_ind.
  - by intros ?%Exists_nil.
  - intros Hex. destruct (Byte.byte_eq_dec x x00) as [->|Hx].
    + apply Exists_app in Hex as [Hex|Hex].
      * destruct (IH Hex) as (pre & b & z & -> & Hb).
        exists pre, b, (S z). split; [|done].
        by rewrite replicate_S_end, <- (assoc_L (++)).
      * apply Exists_cons in Hex as [?|?%Exists_nil]; done.
    + exists l, x, 0%nat. done.
Qed.

(** The terminator scan stops right after the last non-zero byte of the
    records. *)
Lemma terminator_first_occurrence (init : list bytes) (pre : bytes) b z :
  Forall well_formed_record init -> (length pre < 16)%nat -> b ≠ x00 ->
  first_occurrence
    ((concat init ++ pre ++ [b]) ++ replicate z x00 ++ replicate 50 x00)
    (replicate 50 x00)
    (Z.of_nat (length (concat init ++ pre ++ [b]))).
Proof.
  intros Hinit Hpre Hb.
  assert (Forall (fun r : bytes => length r = 16%nat) init) as Hlen.
  { eapply Forall_impl; [done|]. by intros r [? _]. }
  set (head := concat init ++ pre ++ [b]).
  set (full := head ++ replicate z x00 ++ replicate 50 x00).
  assert (length head = (length init * 16 + length pre + 1)%nat) as Ehead.
  { unfold head. rewrite !length_app, (length_concat_uniform _ 16) by done.
    simpl. lia. }
  split.
  - split; [lia|]. rewrite Nat2Z.id, length_replicate. unfold full.
    rewrite drop_app_length, <- replicate_add, take_replicate.
    f_equal. lia.
  - intros j Hj [_ Hocc]. rewrite length_replicate in Hocc.
    assert (forall t, (t < 50)%nat -> full !! (Z.to_nat j + t)%nat = Some x00)
      as Hzero.
    { intros t Ht. rewrite <- lookup_drop, <- (lookup_take_lt _ 50) by done.
      rewrite Hocc. by apply lookup_replicate_2. }
    destruct (Z.lt_ge_cases (Z.of_nat (length head) - 1 - j) 50) as [Hnear|Hfar].
    + specialize (Hzero (length head - 1 - Z.to_nat j)%nat ltac:(lia)).
      replace (Z.to_nat j + (length head - 1 - Z.to_nat j))%nat
        with (length (concat init ++ pre) + 0)%nat in Hzero
        by (rewrite Ehead, length_app, (length_concat_uniform _ 16) by done;
            lia).
      unfold full, head in Hzero.
      rewrite (assoc_L (++) (concat init)) in Hzero.
      rewrite <- !(assoc_L (++) (concat init ++ pre)) in Hzero.
      rewrite lookup_app_r in Hzero by lia.
      replace (length (concat init ++ pre) + 0 - length (concat init ++ pre))%nat
        with 0%nat in Hzero by lia.
      simpl in Hzero. congruence.
    + set (k := ((Z.to_nat j + 15) / 16)%nat).
      pose proof (Nat.div_mod_eq (Z.to_nat j + 15) 16) as Hdm.
      pose proof (Nat.mod_upper_bound (Z.to_nat j + 15) 16 ltac:(lia)) as Hub.
      fold k in Hdm.
      assert (k < length init)%nat as Hk by lia.
      destruct (lookup_lt_is_Some_2 init k Hk) as [r Hr].
      pose proof (Forall_lookup_1 _ _ _ _ Hinit Hr) as [Hr16 Hnz].
      apply Exists_exists in Hnz as (c & Hc & Hcnz).
      apply list_elem_of_lookup in Hc as [t Ht].
      pose proof (lookup_lt_Some _ _ _ Ht) as Hlt. rewrite Hr16 in Hlt.
      pose proof (lookup_concat_uniform init 16 k t r Hlen Hr Hlt) as Hcat.
      rewrite Ht in Hcat.
      specialize (Hzero (k * 16 + t - Z.to_nat j)%nat ltac:(lia)).
      replace (Z.to_nat j + (k * 16 + t - Z.to_nat j))%nat
        with (k * 16 + t)%nat in Hzero by lia.
      unfold full, head in Hzero.
      rewrite <- !(assoc_L (++)) in Hzero.
      rewrite (lookup_app_l_Some _ _ _ _ Hcat) in Hzero. congruence.
Qed.

Lemma inventory_range_after (prefix rest : bytes) (n e : Z) :
  n = Z.of_nat (length prefix) ->
  findPattern rest (replicate 50 x00) = Some e ->
  inventory_range (prefix ++ rest) n = Some (take (Z.to_nat (e + 6)) rest).
Proof.
  intros -> Hfind.
  assert (0 <= e) as He.
  { apply findPattern_Some in Hfind as [[? _] _]; done. }
  unfold inventory_range, subarray, byteLength.
  rewrite slice_take_drop by lia.
  rewrite Nat2Z.id, drop_app_length.
  rewrite take_ge by (rewrite length_app; lia).
  rewrite Hfind. f_equal.
  rewrite slice_take_drop by lia.
  rewrite Nat2Z.id, drop_app_length. f_equal. lia.
Qed.

Lemma chunks_of_records fuel (init : list bytes) (tail : bytes) :
  Forall (fun r => length r = 16%nat) init ->
  (0 < length tail <= 16)%nat ->
  (length (concat init ++ tail) <= fuel)%nat ->
  chunks_of fuel 16 (concat init ++ tail) = init ++ [tail].
Proof.
  intros Hinit Htail. revert fuel.
  induction Hinit as [|r init Hr _ IH]; intros fuel Hfuel; simpl in *.
  - destruct tail as [|x tail]; [simpl in Htail; lia|].
    destruct fuel as [|fuel]; [simpl in Hfuel; lia|].
    cbn [chunks_of]. rewrite take_ge, drop_ge by lia. by destruct fuel.
  - rewrite length_app in Hfuel.
    destruct r as [|x r]; [done|].
    destruct fuel as [|fuel]; [simpl in Hfuel; lia|].
    rewrite <- app_comm_cons. cbn [chunks_of]. rewrite app_comm_cons.
    rewrite <- (assoc_L (++)).
    rewrite take_app_length', drop_app_length' by done.
    f_equal. apply IH. rewrite !length_app in *. simpl in Hfuel. lia.
Qed.

Lemma convertIdToHex_hex8 (record : bytes) :
  (4 <= length record)%nat -> convertIdToHex record = hex8 (le32 record).
Proof.
  destruct record as [|b0 [|b1 [|b2 [|b3 rest]]]]; simpl; try lia.
  intros _. by rewrite convertIdToHex_four, hex8_le32.
Qed.

(** C3. A slot made of the standard marker, eight skipped bytes, [N >= 1]
    records of sixteen bytes that each hold a non-zero byte and of which the
    last one ends with six zero bytes, and fifty zero bytes, is decoded in
    the standard layout into exactly [N] identifiers, the k-th being the
    eight upper-case hexadecimal digits of the little-endian value of the
    first four bytes of the k-th record. *)
Theorem synthetic_slot_decodes skipped records front this log :
  length skipped = 8%nat ->
  Forall well_formed_record records ->
  last records = Some (front ++ replicate 6 x00) ->
  exists range,
    getInventory (Some (synthetic_slot skipped records)) this log
    = (Returned (Some range),
       {| isDlcFile := false; fileData := fileData this |},
       log ++ [GetInventory])
    /\ decodeInventory false range = (fun r => hex8 (le32 r)) <$> records
    /\ length (decodeInventory false range) = length records.
Proof.
  intros Hskip Hwf Hlast.
  apply last_Some in Hlast as [init ->].
  apply Forall_app in Hwf as [Hinit Hlast].
  apply Forall_singleton in Hlast as [Hlen Hnz].
  assert (Forall (fun r : bytes => length r = 16%nat) init) as Hlens.
  { eapply Forall_impl; [done|]. by intros r [? _]. }
  destruct (nonzero_split _ Hnz) as (pre & b & z & Esplit & Hb).
  assert (length pre + 1 + z = 16)%nat as Hsum.
  { rewrite Esplit in Hlen. rewrite length_app in Hlen. simpl in Hlen.
    rewrite length_replicate in Hlen. lia. }
  assert (length front = 10%nat) as Hfront.
  { rewrite length_app, length_replicate in Hlen. lia. }
  assert (6 <= z)%nat as Hz.
  { destruct (Nat.le_gt_cases 6 z) as [|Hsmall]; [done|]. exfalso.
    assert ((front ++ replicate 6 x00) !! (length pre + 0)%nat = Some b) as Hat.
    { rewrite Esplit. by rewrite lookup_app_r, Nat.add_0_r, Nat.sub_diag by lia. }
    rewrite lookup_app_r in Hat by lia.
    apply lookup_replicate_1 in Hat as [? _]. done. }
  set (tail := pre ++ b :: replicate 6 x00).
  assert (length tail = (length pre + 7)%nat) as Htail.
  { unfold tail. rewrite length_app. done. }
  assert (front ++ replicate 6 x00 = tail ++ replicate (z - 6) x00) as Etail.
  { rewrite Esplit. unfold tail. rewrite <- (assoc_L (++)). cbn [app].
    rewrite <- replicate_add. do 3 f_equal. lia. }
  set (head := concat init ++ pre ++ [b]).
  assert (synthetic_slot skipped (init ++ [front ++ replicate 6 x00])
          = (PATTERN_NORMAL ++ skipped)
            ++ head ++ replicate z x00 ++ replicate 50 x00) as Eslot.
  { unfold synthetic_slot, head. rewrite concat_app, Esplit. simpl.
    rewrite app_nil_r, <- !(assoc_L (++)). simpl. done. }
  pose proof (terminator_first_occurrence init pre b z Hinit ltac:(lia) Hb)
    as Hterm.
  fold head in Hterm. apply findPattern_Some in Hterm; [|done].
  exists (concat init ++ tail).
  assert (decodeInventory false (concat init ++ tail)
          = (fun r => hex8 (le32 r)) <$> init ++ [front ++ replicate 6 x00])
    as Hdecode.
  { rewrite decodeInventory_chunks_of. simpl record_width.
    rewrite chunks_of_records; [|done|lia|done].
    rewrite !fmap_app. f_equal.
    - apply Forall_fmap_ext_1. eapply Forall_impl; [exact Hlens|].
      intros r Hr. simpl in *. apply convertIdToHex_hex8. lia.
    - cbn [fmap list_fmap]. f_equal. rewrite convertIdToHex_hex8 by lia.
      f_equal. unfold le32. rewrite Etail.
      by rewrite take_app_le by lia. }
  split; [|split; [done | by rewrite Hdecode, length_fmap]].
  rewrite getInventory_run, Eslot.
  assert (findPattern
            ((PATTERN_NORMAL ++ skipped)
             ++ head ++ replicate z x00 ++ replicate 50 x00) PATTERN_NORMAL
          = Some 0) as ->.
  { apply findPattern_Some; [done|]. split; [|intros; lia].
    split; [done|]. reflexivity. }
  assert (0 + 8 + 8 = Z.of_nat (length (PATTERN_NORMAL ++ skipped))) as E16.
  { rewrite length_app, Hskip. reflexivity. }
  rewrite (inventory_range_after _ _ _ _ E16 Hterm).
  do 3 f_equal.
  replace (Z.to_nat (Z.of_nat (length head) + 6)) with (length head + 6)%nat
    by lia.
  rewrite take_app_add, take_app_le
    by (rewrite length_replicate; lia).
  rewrite take_replicate. replace (6 `min` z)%nat with 6%nat by lia.
  unfold head, tail. by rewrite <- !(assoc_L (++)).
Qed.

(** The claim as worded fails on records of sixteen arbitrary bytes: a
    record that ends with a non-zero byte is followed by one identifier too
    many, and records made of zero bytes are taken for the terminator. *)
Lemma synthetic_slot_wrong_count :
  (exists range,
      getInventory
        (Some (synthetic_slot (replicate 8 x00)
                 [[xef; xbe; xad; xde]%byte ++ replicate 12 x01]))
        new_BinaryParser []
      = (Returned (Some range), new_BinaryParser, [GetInventory])
      /\ decodeInventory false range = ["DEADBEEF"; "00000000"])
  /\ (exists range,
         getInventory
           (Some (synthetic_slot (replicate 8 x00)
                    [replicate 16 x00; replicate 16 x00]))
           new_BinaryParser []
         = (Returned (Some range), new_BinaryParser, [GetInventory])
         /\ decodeInventory false range = ["00000000"]).
Proof. split; eexists; (split; [vm_compute; reflexivity | reflexivity]). Qed.

(** ** The properties at the inputs of the examples *)

Example parseInventory_short_file :
  fst (fst (@parseInventory latin1_decoder short_file 0 new_BinaryParser []))
  = Returned (ParseSuccess ["DEADBEEF"] false (Some "") 1).
Proof. vm_compute. reflexivity. Qed.

Example getInventory_slot_DLC :
  getInventory (Some slot_DLC) new_BinaryParser []
  = (Returned (Some ([xef; xbe; xad; xde]%byte ++ replicate 6 x00)),
     {| isDlcFile := true; fileData := None |}, [GetInventory])
  /\ decodeInventory true ([xef; xbe; xad; xde]%byte ++ replicate 6 x00)
     = ["DEADBEEF"; "0000NANNAN"].
Proof. split; vm_compute; reflexivity. Qed.

Example crossReference_sample_owned :
  exists item,
    crossReference (sample_tracker ["DEADBEEF"]) true = Returned [item]
    /\ Item.owned item = true
    /\ Stats.percentage
         (stats (calculateStats
                   (with_items (sample_tracker ["DEADBEEF"]) [item])))
       = Number 100.
Proof. eexists. split; [reflexivity|]. split; vm_compute; reflexivity. Qed.

(** The percentage is computed on doubles: 23 of 40 is 57.49999999999999
    before rounding. *)
Example percentage_of_23_40 : percentage_of 23 40 = Number 57.
Proof. vm_compute. reflexivity. Qed.

Lemma synthetic_slot_decodes_witness :
  exists range,
    getInventory (Some slot_DEADBEEF) new_BinaryParser []
    = (Returned (Some range),
       {| isDlcFile := false; fileData := fileData new_BinaryParser |},
       [] ++ [GetInventory])
    /\ decodeInventory false range
       = (fun r => hex8 (le32 r)) <$> [record_DEADBEEF]
    /\ length (decodeInventory false range) = length [record_DEADBEEF].
Proof.
  apply (synthetic_slot_decodes (replicate 8 x00) [record_DEADBEEF]
           ([xef; xbe; xad; xde]%byte ++ replicate 6 x00)
           new_BinaryParser []).
  - reflexivity.
  - constructor; [|constructor]. split; [reflexivity|].
    apply Exists_cons_hd. discriminate.
  - reflexivity.
Defined.

Lemma getSlots_clamps_short_file_witness :
  byteLength short_file < last_slot_end
  /\ exists result this',
      @parseInventory latin1_decoder short_file 0 new_BinaryParser []
      = (Returned result, this',
         [] ++ [ValidateFile; GetCharacterNames; GetSlots; GetInventory])
      /\ (result = ParseFailure "Could not find inventory data in slot"
          \/ success result = true).
Proof.
  split; [reflexivity|].
  destruct (@getSlots_clamps_short_file latin1_decoder short_file eq_refl)
    as (_ & _ & _ & Hparse).
  apply Hparse; [reflexivity | lia].
Defined.

Lemma invalid_signature_stops_decoding_witness :
  take 4 file_BND3 ≠ FILE_SIGNATURE
  /\ @parseInventory latin1_decoder file_BND3 0 new_BinaryParser []
     = (Returned (ParseFailure "Invalid save file format"), new_BinaryParser,
        [] ++ [ValidateFile])
  /\ @getSlotNames latin1_decoder file_BND3 new_BinaryParser []
     = (Returned (NamesFailure "Invalid save file format"), new_BinaryParser,
        [] ++ [ValidateFile]).
Proof.
  split; [discriminate|].
  apply (@invalid_signature_stops_decoding latin1_decoder). discriminate.
Defined.

Lemma getInventory_marker_order_witness :
  getInventory (Some slot_DEADBEEF) new_BinaryParser []
  = (Returned (inventory_range slot_DEADBEEF (0 + 8 + 8)),
     {| isDlcFile := false; fileData := fileData new_BinaryParser |},
     [] ++ [GetInventory])
  /\ getInventory (Some slot_DLC) new_BinaryParser []
     = (Returned (inventory_range slot_DLC (0 + 5 + 3)),
        {| isDlcFile := true; fileData := fileData new_BinaryParser |},
        [] ++ [GetInventory])
  /\ getInventory (Some []) new_BinaryParser []
     = (Returned None, new_BinaryParser, [] ++ [GetInventory])
  /\ @parseInventory latin1_decoder FILE_SIGNATURE 0 new_BinaryParser []
     = (Returned (ParseFailure "Could not find inventory data in slot"),
        {| isDlcFile := isDlcFile new_BinaryParser;
           fileData := Some FILE_SIGNATURE |},
        [] ++ [ValidateFile; GetCharacterNames; GetSlots; GetInventory]).
Proof.
  split; [|split].
  - apply (@getInventory_marker_order latin1_decoder slot_DEADBEEF).
    split; [split; [lia | reflexivity] | intros; lia].
  - apply (@getInventory_marker_order latin1_decoder slot_DLC).
    + apply findPattern_None; [discriminate | reflexivity].
    + split; [split; [lia | reflexivity] | intros; lia].
  - assert (forall pattern, pattern ≠ [] ->
                            forall j, ~ occurs_at [] pattern j) as Hnone.
    { intros pattern Hne j [_ E]. rewrite drop_nil, take_nil in E. congruence. }
    destruct (@getInventory_marker_order latin1_decoder [] new_BinaryParser [])
      as (_ & _ & Hnotfound & _).
    destruct Hnotfound as [Hnull Hreport]; [by apply Hnone..|].
    split; [exact Hnull|].
    apply Hreport; [reflexivity | | reflexivity].
    apply short_file_names_readable. reflexivity.
Defined.

Lemma crossReference_nothing_owned_witness :
  exists items,
    crossReference (sample_tracker []) true = Returned items
    /\ Forall2 (fun item '(region, subregion, itemId, itemData) =>
                  Item.region item = region
                  /\ Item.subregion item = subregion
                  /\ Item.id item = itemId
                  /\ Item.name item = Entry.name itemData)
               items (triples sample_catalog)
    /\ Forall (fun item => Item.owned item = false) items
    /\ Stats.percentage
         (stats (calculateStats (with_items (sample_tracker []) items)))
       = S754_zero false
    /\ forall that : TrackerCore,
        Z.of_nat (length (enrichedItems that)) < 2 ^ 32 ->
        is_percentage
          (Stats.percentage (stats (calculateStats that)))
          (Z.of_nat (length (filter (fun item => Item.owned item = true)
                                    (enrichedItems that))))
          (Z.of_nat (length (enrichedItems that))).
Proof.
  apply (crossReference_nothing_owned (sample_tracker []) true sample_catalog);
    reflexivity.
Defined.

Lemma slot_index_out_of_range_fails_witness :
  exists e this' calls,
    @parseInventory latin1_decoder FILE_SIGNATURE 10 new_BinaryParser []
    = (Returned (ParseFailure (message e)), this',
       [] ++ calls ++ [ConsoleError])
    /\ (e = TypeError_undefined "byteLength" \/ e = RangeError_Uint16Array).
Proof.
  apply (@slot_index_out_of_range_fails latin1_decoder); [reflexivity|].
  right. lia.
Defined.

(** * Further properties of the parser *)

(** ** Scanning and comparison *)

(** X1. For a pattern that is not empty, [findPattern] returns the lowest
    offset at which the pattern occurs in the buffer, and [null] exactly
    when it occurs nowhere. *)
Theorem findPattern_first_occurrence (buffer pattern : bytes) :
  pattern ≠ [] ->
  (forall m,
      findPattern buffer pattern = Some m
      <-> first_occurrence buffer pattern m)
  /\ (findPattern buffer pattern = None
      <-> forall j, ~ occurs_at buffer pattern j).
Proof.
  intros Hne. split.
  - intros m. by apply findPattern_Some.
  - by apply findPattern_None.
Qed.

Lemma findPattern_from_empty fuel (buffer : bytes) i :
  0 <= i -> findPattern_from fuel buffer [] i = None.
Proof.
  revert i. induction fuel as [|fuel IH]; intros i Hi; [done|]. simpl.
  destruct (Z.ltb_spec i (byteLength buffer)) as [Hlt|]; [|done].
  rewrite index_lookup by done. unfold byteLength in Hlt.
  destruct (lookup_lt_is_Some_2 buffer (Z.to_nat i) ltac:(lia)) as [b ->].
  simpl. apply IH. lia.
Qed.

(** X2. With an empty pattern [findPattern] returns [null] on every
    buffer: [pattern[0]] is [undefined] and equals no byte. *)
Theorem findPattern_empty_pattern (buffer : bytes) :
  findPattern buffer [] = None.
Proof. apply findPattern_from_empty. done. Qed.

(** X3. [bufferEqual] holds of two buffers exactly when they have the same
    bytes: the comparison through signed views confuses no two bytes. *)
Theorem bufferEqual_iff (buf1 buf2 : bytes) :
  bufferEqual buf1 buf2 = true <-> buf1 = buf2.
Proof. apply bufferEqual_eq. Qed.

(** X4. [validateFile] accepts exactly the buffers that start with the four
    bytes of "BND4"; a buffer of fewer than four bytes is refused. *)
Theorem validateFile_iff (fileData : bytes) :
  (validateFile fileData = true
   <-> exists rest, fileData = FILE_SIGNATURE ++ rest)
  /\ validateFile (take 3 fileData) = false.
Proof.
  split.
  - rewrite validateFile_signature. split.
    + intros E. exists (drop 4 fileData).
      by rewrite <- E, take_drop.
    + by intros [rest ->].
  - destruct (validateFile (take 3 fileData)) eqn:E; [|done].
    apply validateFile_signature in E.
    apply (f_equal length) in E. rewrite !length_take in E.
    change (length FILE_SIGNATURE) with 4%nat in E. lia.
Qed.

(** ** Chunks and identifiers *)

(** X5. For a chunk size of at least 1, [splitIntoChunks] cuts the array
    into consecutive chunks: put end to end they are the array, none is
    empty or longer than the chunk size, and every chunk but the last has
    exactly the chunk size. *)
Theorem splitIntoChunks_partition {A : Type} (array : list A) (chunkSize : Z) :
  1 <= chunkSize ->
  let chunks := splitIntoChunks array chunkSize in
  concat chunks = array
  /\ Forall (fun chunk => 1 <= Z.of_nat (length chunk) <= chunkSize) chunks
  /\ forall k chunk,
      chunks !! k = Some chunk -> (S k < length chunks)%nat ->
      Z.of_nat (length chunk) = chunkSize.
Proof.
  intros Hsize. cbv zeta.
  set (w := Z.to_nat chunkSize).
  assert (0 < w)%nat as Hw by lia.
  replace chunkSize with (Z.of_nat w) by lia.
  rewrite splitIntoChunks_chunks_of, chunks_of_full_partial by (done || lia).
  destruct (full_chunks_spec (length array) array w Hw ltac:(lia))
    as (Hall & Hcount & Hcat).
  pose proof (Nat.mod_upper_bound (length array) w ltac:(lia)) as Hub.
  pose proof (Nat.Div0.mod_le (length array) w) as Hle.
  split; [|split].
  - rewrite concat_app, Hcat, concat_partial_chunk by done. apply take_drop.
  - apply Forall_app. split.
    + eapply Forall_impl; [exact Hall|]. intros c Hc. simpl in Hc. lia.
    + unfold partial_chunk.
      destruct (Nat.eqb_spec (length array mod w) 0); constructor; [|done].
      rewrite length_drop. lia.
  - intros k chunk Hk Hnotlast.
    assert (k < length (full_chunks (length array) w array))%nat as Hfull.
    { rewrite length_app in Hnotlast. unfold partial_chunk in Hnotlast.
      destruct (Nat.eqb_spec (length array mod w) 0); simpl in Hnotlast; lia. }
    rewrite lookup_app_l in Hk by done.
    pose proof (Forall_lookup_1 _ _ _ _ Hall Hk) as Hc. simpl in Hc. lia.
Qed.

Lemma length_append s1 s2 :
  String.length (s1 +:+ s2) = (String.length s1 + String.length s2)%nat.
Proof. induction s1 as [|c s1 IH]; simpl; [done | by rewrite IH]. Qed.

Lemma length_toUpperCase s : String.length (toUpperCase s) = String.length s.
Proof. induction s as [|c s IH]; simpl; [done | by rewrite IH]. Qed.

Lemma length_decimalToHex_byte b :
  String.length (decimalToHex (Some b) 2) = 2%nat.
Proof. destruct b; reflexivity. Qed.

(** X6. [convertIdToHex] renders the first four bytes of a chunk as two
    digits each and every missing byte as the three letters NAN: a chunk of
    [k] bytes gives [12 - min 4 k] characters, and so the eight characters
    of an identifier exactly when the chunk has four bytes or more. *)
Theorem convertIdToHex_length (chunk : list byte) :
  String.length (convertIdToHex chunk) = (12 - min 4 (length chunk))%nat
  /\ (String.length (convertIdToHex chunk) = 8%nat
      <-> (4 <= length chunk)%nat).
Proof.
  assert (String.length (convertIdToHex chunk)
          = (12 - min 4 (length chunk))%nat) as E.
  { unfold convertIdToHex. rewrite slice_prefix by lia.
    rewrite length_toUpperCase.
    destruct chunk as [|b0 [|b1 [|b2 [|b3 rest]]]];
      cbn [take Z.to_nat Pos.to_nat Pos.iter_op Nat.add rev rev_append
           foldl length Nat.min Nat.sub]; simpl take; simpl rev;
      cbn [foldl];
      repeat match goal with
             | |- context [index ?l ?i] =>
                 let v := eval cbv in (index l i) in
                 change (index l i) with v
             end;
      rewrite ?length_append, ?length_decimalToHex_byte; reflexivity. }
  split; [done|]. rewrite E. lia.
Qed.

(** X7. Two chunks of four bytes or more have the same identifier exactly
    when their first four bytes are the same. *)
Theorem convertIdToHex_injective (chunk1 chunk2 : list byte) :
  (4 <= length chunk1)%nat -> (4 <= length chunk2)%nat ->
  convertIdToHex chunk1 = convertIdToHex chunk2
  <-> take 4 chunk1 = take 4 chunk2.
Proof.
  intros H1 H2.
  destruct chunk1 as [|a0 [|a1 [|a2 [|a3 rest1]]]]; simpl in H1; try lia.
  destruct chunk2 as [|b0 [|b1 [|b2 [|b3 rest2]]]]; simpl in H2; try lia.
  rewrite !convertIdToHex_four. cbn [take]. split.
  - intros E. apply (f_equal bytes_of_hex) in E.
    rewrite !bytes_of_hex_two_digits in E. simpl in E. by injection E as -> -> -> ->.
  - by intros [= -> -> -> ->].
Qed.

Lemma convertIdToHex_injective_witness :
  convertIdToHex record_DEADBEEF
  = convertIdToHex ([xef; xbe; xad; xde; x01]%byte)
  <-> take 4 record_DEADBEEF = take 4 ([xef; xbe; xad; xde; x01]%byte).
Proof.
  apply convertIdToHex_injective; [vm_compute | vm_compute]; lia.
Defined.

Lemma findPattern_first_occurrence_witness :
  (forall m,
      findPattern slot_DEADBEEF PATTERN_NORMAL = Some m
      <-> first_occurrence slot_DEADBEEF PATTERN_NORMAL m)
  /\ (findPattern slot_DEADBEEF PATTERN_NORMAL = None
      <-> forall j, ~ occurs_at slot_DEADBEEF PATTERN_NORMAL j).
Proof. apply findPattern_first_occurrence. discriminate. Defined.

Lemma splitIntoChunks_partition_witness :
  concat (splitIntoChunks [1; 2; 3; 4; 5] 2) = [1; 2; 3; 4; 5]
  /\ Forall (fun chunk => 1 <= Z.of_nat (length chunk) <= 2)
            (splitIntoChunks [1; 2; 3; 4; 5] 2)
  /\ forall k chunk,
      splitIntoChunks [1; 2; 3; 4; 5] 2 !! k = Some chunk ->
      (S k < length (splitIntoChunks [1; 2; 3; 4; 5] 2))%nat ->
      Z.of_nat (length chunk) = 2.
Proof. apply (splitIntoChunks_partition [1; 2; 3; 4; 5] 2). lia. Defined.

(** ** Slots of a file of full size *)

(** X8. On a file that reaches the end of the last slot, the slot of index
    [k] in 0..9 is the 0x280000 bytes that start at offset
    [0x310 + k * 0x280010]: the slots have one size and lie 16 bytes
    apart. *)
Theorem getSlots_full_file (fileData : bytes) (k : Z) :
  last_slot_end <= byteLength fileData ->
  0 <= k <= 9 ->
  exists slot,
    index (getSlots fileData) k = Some slot
    /\ slot = take (Z.to_nat 0x280000)
                   (drop (Z.to_nat (0x310 + k * 0x280010)) fileData)
    /\ byteLength slot = 0x280000.
Proof.
  unfold last_slot_end, byteLength. intros Hfull Hk.
  assert (k = 0 \/ k = 1 \/ k = 2 \/ k = 3 \/ k = 4 \/ k = 5 \/ k = 6
          \/ k = 7 \/ k = 8 \/ k = 9) as Hcases by lia.
  rewrite getSlots_windows. unfold slot_windows.
  cbn [fmap list_fmap fst snd].
  destruct Hcases as [->|[->|[->|[->|[->|[->|[->|[->|[->| ->]]]]]]]]];
    (eexists; split; [reflexivity|]; split;
     [f_equal; try lia; f_equal; lia
     | rewrite length_take, length_drop; lia]).
Qed.

Lemma getSlots_full_file_witness :
  exists slot,
    index (getSlots (replicate (Z.to_nat last_slot_end) x00)) 9 = Some slot
    /\ slot = take (Z.to_nat 0x280000)
                   (drop (Z.to_nat (0x310 + 9 * 0x280010))
                         (replicate (Z.to_nat last_slot_end) x00))
    /\ byteLength slot = 0x280000.
Proof.
  apply getSlots_full_file; [|lia].
  unfold byteLength. rewrite length_replicate. lia.
Defined.

(** ** The located range *)

Lemma marker_prefix (slot : bytes) m :
  occurs_at slot PATTERN_NORMAL m -> occurs_at slot PATTERN_DLC m.
Proof.
  intros [Hm E]. split; [done|].
  change (length PATTERN_DLC) with (5 `min` 8)%nat.
  rewrite <- take_take.
  change (length PATTERN_NORMAL) with 8%nat in E. by rewrite E.
Qed.

Lemma inventory_range_tail (slot : bytes) idx range :
  0 <= idx -> inventory_range slot idx = Some range ->
  exists body, range = body ++ replicate 6 x00.
Proof.
  intros Hidx. unfold inventory_range, subarray.
  destruct (findPattern _ _) as [e|] eqn:Hfind; [|done]. intros [= <-].
  apply findPattern_Some in Hfind as [[He Hocc] _]; [|done].
  rewrite slice_take_drop in Hocc by (unfold byteLength; lia).
  rewrite slice_take_drop by lia.
  rewrite (take_ge (drop (Z.to_nat idx) slot)) in Hocc
    by (unfold byteLength; rewrite length_drop; lia).
  rewrite length_replicate in Hocc.
  exists (take (Z.to_nat e) (drop (Z.to_nat idx) slot)).
  replace (Z.to_nat (idx + e + 6 - idx)) with (Z.to_nat e + 6)%nat by lia.
  rewrite <- take_take_drop. f_equal.
  change 6%nat with (6 `min` 50)%nat at 1.
  rewrite <- take_take, Hocc. reflexivity.
Qed.

Lemma getInventory_returned (slot : bytes) this log range this' log' :
  getInventory (Some slot) this log = (Returned (Some range), this', log') ->
  (exists body, range = body ++ replicate 6 x00)
  /\ (isDlcFile this' = false <-> exists m, occurs_at slot PATTERN_NORMAL m)
  /\ fileData this' = fileData this
  /\ log' = log ++ [GetInventory].
Proof.
  rewrite getInventory_run.
  destruct (findPattern slot PATTERN_NORMAL) as [m|] eqn:Hnormal.
  - apply findPattern_Some in Hnormal as [Hocc _]; [|done].
    intros [= Hrange <- <-]. split; [|split; [|done]].
    + apply (inventory_range_tail slot (m + 8 + 8)); [destruct Hocc; lia | done].
    + split; [eauto | done].
  - pose proof (proj1 (findPattern_None slot PATTERN_NORMAL ltac:(done)) Hnormal)
      as Hno.
    destruct (findPattern slot PATTERN_DLC) as [m|] eqn:Hdlc; [|done].
    apply findPattern_Some in Hdlc as [[Hm _] _]; [|done].
    intros [= Hrange <- <-]. split; [|split; [|done]].
    + apply (inventory_range_tail slot (m + 5 + 3)); [lia | done].
    + simpl. split; [done|]. intros [m' Hocc]. by destruct (Hno m').
Qed.

(** X9. A range that [getInventory] returns ends with six zero bytes, the
    first six of the terminator, and so is never empty. The layout left in
    the parser is Standard exactly when the standard marker occurs somewhere
    in the slot; wherever the standard marker occurs the expansion marker,
    its first five bytes, occurs too, which is why the standard marker is
    looked for first. The file held by the parser is untouched. *)
Theorem getInventory_range_and_layout (slot : bytes) this log range this' log' :
  getInventory (Some slot) this log = (Returned (Some range), this', log') ->
  (exists body, range = body ++ replicate 6 x00)
  /\ (isDlcFile this' = false <-> exists m, occurs_at slot PATTERN_NORMAL m)
  /\ (forall m, occurs_at slot PATTERN_NORMAL m -> occurs_at slot PATTERN_DLC m)
  /\ fileData this' = fileData this.
Proof.
  intros Hrun. apply getInventory_returned in Hrun as (Htail & Hlayout & Hfile & _).
  split; [done|]. split; [done|]. split; [apply marker_prefix | done].
Qed.

Lemma getInventory_range_and_layout_witness :
  (exists body,
      [xef; xbe; xad; xde]%byte ++ replicate 6 x00 = body ++ replicate 6 x00)
  /\ (isDlcFile {| isDlcFile := true; fileData := None |} = false
      <-> exists m, occurs_at slot_DLC PATTERN_NORMAL m)
  /\ (forall m,
         occurs_at slot_DLC PATTERN_NORMAL m -> occurs_at slot_DLC PATTERN_DLC m)
  /\ fileData {| isDlcFile := true; fileData := None |}
     = fileData new_BinaryParser.
Proof.
  apply (getInventory_range_and_layout slot_DLC new_BinaryParser []
           ([xef; xbe; xad; xde]%byte ++ replicate 6 x00) _ [GetInventory]).
  vm_compute. reflexivity.
Defined.

(** ** Character names *)

Lemma Int8Array_byte_low lo hi :
  Int8Array_byte (Z.of_N (Byte.to_N lo) + 256 * Z.of_N (Byte.to_N hi)) = lo.
Proof.
  unfold Int8Array_byte.
  pose proof (Byte.to_N_bounded lo).
  replace ((Z.of_N (Byte.to_N lo) + 256 * Z.of_N (Byte.to_N hi)) mod 256)
    with (Z.of_N (Byte.to_N lo)).
  - by rewrite N2Z.id, Byte.of_to_N.
  - assert (0 <= Z.of_N (Byte.to_N lo) < 256) as Hlo by lia.
    revert Hlo. generalize (Z.of_N (Byte.to_N lo)) (Z.of_N (Byte.to_N hi)).
    intros x y Hx. Z.to_euclidean_division_equations. lia.
Qed.

Lemma Uint16Array_of_low_bytes n (data : bytes) :
  (length data <= n)%nat ->
  match Uint16Array_of data with
  | Some units =>
      Nat.even (length data) = true
      /\ Int8Array_byte <$> units = even_offsets data
  | None => Nat.even (length data) = false
  end.
Proof.
  revert data. induction n as [|n IH]; intros data Hlen.
  - destruct data; [done | simpl in Hlen; lia].
  - destruct data as [|lo [|hi rest]]; [done | done |].
    specialize (IH rest ltac:(simpl in Hlen; lia)).
    cbn [Uint16Array_of even_offsets length Nat.even].
    destruct (Uint16Array_of rest) as [units|]; [|done].
    destruct IH as [Heven Hlow]. split; [done|].
    cbn [fmap option_fmap option_map list_fmap].
    rewrite Int8Array_byte_low. f_equal. exact Hlow.
Qed.

(** X10. [new Uint16Array] accepts a field exactly when its length is even,
    and the bytes handed to the decoder are then the bytes at the even
    offsets of the field: the upper byte of every 16-bit unit is dropped. *)
Theorem nameData_even_offsets (data : bytes) :
  match Uint16Array_of data with
  | Some units =>
      Nat.even (length data) = true
      /\ Int8Array_byte <$> units = even_offsets data
  | None => Nat.even (length data) = false
  end.
Proof. by apply (Uint16Array_of_low_bytes (length data)). Qed.

Lemma remove_nul_no_nul s : no_nul (remove_nul s).
Proof.
  unfold no_nul. induction s as [|c s IH]; simpl.
  - apply not_elem_of_nil.
  - destruct (Ascii.eqb_spec c zero) as [->|Hc]; [done|]. simpl.
    apply not_elem_of_cons. split; [congruence | done].
Qed.

Section ParserOutcomes.
Context `{TextDecoder}.

(** The name decoded from the field at [offset]. *)
Lemma getCharacterNames_outcome fileData this log :
  (names_readable fileData
   /\ getCharacterNames fileData this log
      = (Returned
           ((fun offset =>
               remove_nul
                 (decode (even_offsets (slice fileData offset (offset + 32)))))
              <$> name_offsets),
         this, log ++ [GetCharacterNames]))
  \/ (~ names_readable fileData
      /\ getCharacterNames fileData this log
         = (Thrown RangeError_Uint16Array, this, log ++ [GetCharacterNames])).
Proof.
  unfold getCharacterNames, names_readable. run_monad.
  generalize (log ++ [GetCharacterNames]). clear log.
  induction name_offsets as [|offset offsets IH]; intros log.
  - left. split; [constructor | reflexivity].
  - cbn [mapM]. run_monad.
    pose proof (Uint16Array_of_low_bytes _
                  (slice fileData offset (offset + 32)) (le_n _)) as Hlow.
    destruct (Uint16Array_of (slice fileData offset (offset + 32)))
      as [units|] eqn:Hunits.
    + destruct Hlow as [_ ->].
      destruct (IH log) as [[Hread ->]|[Hunread ->]].
      * left. split; [|reflexivity]. constructor; [by eexists | done].
      * right. split; [|reflexivity].
        intros Hall. apply Forall_cons in Hall as [_ Hall]. done.
    + right. split; [|reflexivity].
      intros Hall. apply Forall_cons in Hall as [[units Hsome] _].
      congruence.
Qed.

(** X11. [getSlotNames] never throws and leaves the parser as it was. It
    fails on a wrong signature; with the signature it succeeds exactly when
    every name field has an even number of bytes, with ten names, each the
    decoding of the bytes at the even offsets of its 32-byte field with the
    code units 0 removed; otherwise the [RangeError] is caught and returned
    as a failure. *)
Theorem getSlotNames_outcome fileData this log :
  (validateFile fileData = false
   /\ getSlotNames fileData this log
      = (Returned (NamesFailure "Invalid save file format"), this,
         log ++ [ValidateFile]))
  \/ (validateFile fileData = true /\ names_readable fileData
      /\ exists names,
          getSlotNames fileData this log
          = (Returned (NamesSuccess names), this,
             log ++ [ValidateFile; GetCharacterNames])
          /\ length names = 10%nat
          /\ Forall no_nul names
          /\ names
             = (fun offset =>
                  remove_nul
                    (decode
                       (even_offsets (slice fileData offset (offset + 32)))))
                 <$> name_offsets)
  \/ (validateFile fileData = true /\ ~ names_readable fileData
      /\ getSlotNames fileData this log
         = (Returned (NamesFailure (message RangeError_Uint16Array)), this,
            log ++ [ValidateFile; GetCharacterNames; ConsoleError])).
Proof.
  destruct (validateFile fileData) eqn:Hvalid.
  2: { left. split; [done|]. by apply getSlotNames_invalid. }
  right. unfold getSlotNames. run_monad. rewrite Hvalid. cbn [negb].
  destruct (getCharacterNames_outcome fileData this (log ++ [ValidateFile]))
    as [[Hread ->]|[Hunread ->]].
  - left. split; [done|]. split; [done|]. eexists.
    split; [by rewrite <- (assoc_L (++))|].
    split; [reflexivity|]. split; [|reflexivity].
    apply Forall_fmap, Forall_forall. intros offset _. apply remove_nul_no_nul.
  - right. split; [done|]. split; [done|].
    by rewrite <- !(assoc_L (++)).
Qed.

(** X12. [parseInventory] never throws: whatever the file and the slot
    index, it returns a result value. *)
Theorem parseInventory_never_throws fileData slotIndex this log :
  exists result this' log',
    parseInventory fileData slotIndex this log = (Returned result, this', log').
Proof.
  unfold parseInventory, try_catch.
  match goal with
  | |- context [match ?body this log with _ => _ end] =>
      destruct (body this log) as [[[result|e] this'] log']
  end.
  - eauto.
  - run_monad. eauto.
Qed.

Lemma decodeInventory_nonempty isDlc (range : bytes) :
  range ≠ [] -> decodeInventory isDlc range ≠ [].
Proof.
  intros Hne. rewrite decodeInventory_chunks_of.
  destruct range as [|b range]; [done|]. simpl length. by cbn [chunks_of].
Qed.

(** X13. When [parseInventory] succeeds, the file has the signature, every
    name field was readable, the slot index is in 0..9, the character name
    is defined, [totalItems] is the number of identifiers and is at least
    one, the parser holds the file and the layout of the result, the four
    steps ran in order without the handler, the identifiers are the
    decoding of the range that [getInventory] returned for the slot, and
    the layout is Standard exactly when the standard marker occurs in the
    slot. *)
Theorem parseInventory_success fileData slotIndex this log
    ids isDlc name total this' log' :
  parseInventory fileData slotIndex this log
  = (Returned (ParseSuccess ids isDlc name total), this', log') ->
  validateFile fileData = true
  /\ names_readable fileData
  /\ 0 <= slotIndex <= 9
  /\ is_Some name
  /\ total = Z.of_nat (length ids)
  /\ ids ≠ []
  /\ this' = {| isDlcFile := isDlc; fileData := Some fileData |}
  /\ log' = log ++ [ValidateFile; GetCharacterNames; GetSlots; GetInventory]
  /\ exists slot range,
      index (getSlots fileData) slotIndex = Some slot
      /\ getInventory (Some slot)
           {| isDlcFile := isDlcFile this; fileData := Some fileData |}
           (log ++ [ValidateFile; GetCharacterNames; GetSlots])
         = (Returned (Some range), this', log')
      /\ ids = decodeInventory isDlc range
      /\ (isDlc = false <-> exists m, occurs_at slot PATTERN_NORMAL m).
Proof.
  intros Hrun.
  destruct (validateFile fileData) eqn:Hvalid.
  2: { rewrite parseInventory_invalid in Hrun by done. discriminate. }
  set (that := {| isDlcFile := isDlcFile this; fileData := Some fileData |}).
  destruct (getCharacterNames_outcome fileData that (log ++ [ValidateFile]))
    as [[Hread Hnames]|[Hunread Hthrown]].
  2: { unfold parseInventory in Hrun. run_monad. revert Hrun. run_monad.
       rewrite Hvalid. cbn [negb]. fold that. rewrite Hthrown. discriminate. }
  rewrite <- (assoc_L (++)) in Hnames.
  rewrite (parseInventory_valid _ _ _ _ _ Hvalid Hnames) in Hrun.
  destruct (index (getSlots fileData) slotIndex) as [slot|] eqn:Hslot.
  2: { revert Hrun. run_monad. rewrite getInventory_undefined. discriminate. }
  assert (0 <= slotIndex <= 9) as Hrange.
  { unfold index in Hslot. destruct (Z.ltb_spec slotIndex 0); [done|].
    apply lookup_lt_Some in Hslot. rewrite getSlots_length in Hslot. lia. }
  revert Hrun. run_monad. fold that.
  destruct (getInventory (Some slot) that
              (log ++ [ValidateFile; GetCharacterNames; GetSlots]))
    as [[[[range|]|e] that'] log''] eqn:Hinv; try discriminate.
  intros [= <- <- <- <- <- <-].
  destruct (getInventory_returned slot that _ range that' log'' Hinv)
    as ([body Hbody] & Hlayout & Hfile & Hlog).
  split; [done|]. split; [done|]. split; [done|]. split.
  { unfold index. destruct (Z.ltb_spec slotIndex 0); [lia|].
    apply lookup_lt_is_Some_2. cbn [length]. lia. }
  split; [done|]. split.
  { apply decodeInventory_nonempty. rewrite Hbody. by destruct body. }
  split. { destruct that'. simpl in *. by subst. }
  split. { by rewrite Hlog, <- !(assoc_L (++)). }
  exists slot, range. done.
Qed.
End ParserOutcomes.

Lemma parseInventory_success_witness :
  validateFile short_file = true
  /\ names_readable short_file
  /\ 0 <= 0 <= 9
  /\ is_Some (Some ""%string)
  /\ 1 = Z.of_nat (length ["DEADBEEF"%string])
  /\ ["DEADBEEF"%string] ≠ []
  /\ {| isDlcFile := false; fileData := Some short_file |}
     = {| isDlcFile := false; fileData := Some short_file |}
  /\ [ValidateFile; GetCharacterNames; GetSlots; GetInventory]
     = [] ++ [ValidateFile; GetCharacterNames; GetSlots; GetInventory]
  /\ exists slot range,
      index (getSlots short_file) 0 = Some slot
      /\ getInventory (Some slot)
           {| isDlcFile := isDlcFile new_BinaryParser;
              fileData := Some short_file |}
           ([] ++ [ValidateFile; GetCharacterNames; GetSlots])
         = (Returned (Some range),
            {| isDlcFile := false; fileData := Some short_file |},
            [ValidateFile; GetCharacterNames; GetSlots; GetInventory])
      /\ ["DEADBEEF"%string] = decodeInventory false range
      /\ (false = false <-> exists m, occurs_at slot PATTERN_NORMAL m).
Proof.
  apply (@parseInventory_success latin1_decoder short_file 0 new_BinaryParser
           [] ["DEADBEEF"%string] false (Some ""%string) 1).
  vm_compute. reflexivity.
Defined.

(** ** Counters of the statistics *)

Lemma filter_none_of {A} (P : A -> Prop) `{!forall x, Decision (P x)}
    (l : list A) :
  (forall x, x ∈ l -> ~ P x) -> filter P l = [].
Proof.
  intros HP. induction l as [|x l IH]; [done|].
  rewrite filter_cons_False by (apply HP; left).
  apply IH. intros y Hy. apply HP. by right.
Qed.

Section Counters.
Variable key : Item.t -> string.

Lemma keyed_snoc k items item :
  keyed key k (items ++ [item])
  = keyed key k items ++ (if decide (key item = k) then [item] else []).
Proof.
  unfold keyed. by rewrite filter_app.
Qed.

Lemma keyed_owned_snoc k items item :
  keyed_owned key k (items ++ [item])
  = keyed_owned key k items
    ++ (if decide (key item = k)
        then if Item.owned item then [item] else []
        else []).
Proof.
  unfold keyed_owned. rewrite keyed_snoc, filter_app.
  destruct (decide _); [|done].
  rewrite filter_cons, filter_nil.
  destruct (Item.owned item); by destruct (decide _).
Qed.

Lemma keyed_owned_length k items :
  (length (keyed_owned key k items) <= length (keyed key k items))%nat.
Proof. unfold keyed_owned. apply length_filter. Qed.

Lemma count_item_fold items k :
  foldl (fun groups item => count_item (key item) (Item.owned item) groups)
        ∅ items !! k
  = if inherited k then None
    else match keyed key k items with
         | [] => None
         | _ :: _ =>
             Some (Z.of_nat (length (keyed key k items)),
                   Z.of_nat (length (keyed_owned key k items)),
                   Z.of_nat (length (keyed key k items))
                   - Z.of_nat (length (keyed_owned key k items)))
         end.
Proof.
  induction items as [|item items IH] using rev_ind;
    [by destruct (inherited k)|].
  rewrite foldl_snoc, keyed_snoc, keyed_owned_snoc.
  set (groups := foldl _ _ items) in *.
  unfold count_item.
  destruct (decide (key item = k)) as [->|Hne].
  - destruct (inherited k); [exact IH|]. rewrite IH.
    destruct (keyed key k items) as [|first others] eqn:Hkeyed.
    + assert (keyed_owned key k items = []) as ->.
      { unfold keyed_owned. by rewrite Hkeyed. }
      cbn [default from_option id]. rewrite lookup_insert_eq.
      destruct (Item.owned item); reflexivity.
    + cbn [default from_option id]. rewrite lookup_insert_eq.
      rewrite !length_app. cbn [app length].
      destruct (Item.owned item); cbn [length];
        repeat (apply f_equal || apply (f_equal2 pair)); lia.
  - rewrite !app_nil_r.
    destruct (inherited (key item)); [exact IH|].
    destruct (default _ _) as [[total nowned] missing].
    by rewrite lookup_insert_ne.
Qed.

Lemma with_percentage_fold items k :
  (with_percentage
     <$> foldl (fun groups item =>
                  count_item (key item) (Item.owned item) groups)
               ∅ items) !! k
  = if inherited k then None else counts_of key k items.
Proof.
  rewrite lookup_fmap, count_item_fold. unfold counts_of.
  destruct (inherited k); [done|]. by destruct (keyed key k items).
Qed.

Lemma counts_of_bounds items k group :
  counts_of key k items = Some group ->
  Group.total group = Group.owned group + Group.missing group
  /\ 1 <= Group.total group <= Z.of_nat (length items)
  /\ 0 <= Group.owned group
          <= Z.of_nat (length (filter (fun item => Item.owned item = true)
                                      items))
  /\ 0 <= Group.missing group.
Proof.
  unfold counts_of.
  pose proof (keyed_owned_length k items) as Howned.
  assert (length (keyed key k items) <= length items)%nat as Htotal
    by apply length_filter.
  assert (length (keyed_owned key k items)
          <= length (filter (fun item => Item.owned item = true) items))%nat
    as Hall.
  { replace (keyed_owned key k items)
      with (filter (fun item => key item = k)
                   (filter (fun item => Item.owned item = true) items)).
    - apply length_filter.
    - unfold keyed_owned, keyed. rewrite !list_filter_filter.
      apply list_filter_iff. tauto. }
  destruct (keyed key k items) as [|first others] eqn:Hkeyed; [done|].
  intros [= <-]. cbn [group_of Group.total Group.owned Group.missing].
  cbn [length] in *. lia.
Qed.

Lemma counts_of_counters items k :
  Z.of_nat (length items) < 2 ^ 32 ->
  counters_of (keyed key k items) (counts_of key k items).
Proof.
  intros Hlength. unfold counts_of, counters_of.
  pose proof (keyed_owned_length k items) as Howned.
  assert (length (keyed key k items) <= length items)%nat as Htotal
    by apply length_filter.
  unfold keyed_owned in *.
  destruct (keyed key k items) as [|first others]; [done|].
  split; [done|].
  cbn [group_of Group.total Group.owned Group.missing Group.percentage].
  split; [done|]. split; [done|]. split; [done|].
  apply percentage_of_is_percentage; lia.
Qed.
End Counters.

Lemma determineCategory_not_inherited itemId :
  inherited (determineCategory itemId) = false.
Proof.
  pose proof (determineCategory_values itemId) as Hvalues.
  repeat (apply elem_of_cons in Hvalues as [->|Hvalues]; [reflexivity|]).
  by apply elem_of_nil in Hvalues.
Qed.

Lemma statistics_lookup (this : TrackerCore) (k : string) :
  calculateCategoryStats this !! k
  = counts_of (fun item => determineCategory (Item.id item)) k
              (enrichedItems this)
  /\ calculateRegionalStats this !! k
     = if inherited k then None
       else counts_of Item.region k (enrichedItems this).
Proof.
  split; [|apply (with_percentage_fold Item.region)].
  unfold calculateCategoryStats.
  rewrite (with_percentage_fold
             (fun item => determineCategory (Item.id item))).
  destruct (inherited k) eqn:Hk; [|done].
  unfold counts_of.
  replace (keyed _ k (enrichedItems this)) with (@nil Item.t); [done|].
  unfold keyed. symmetry. apply filter_none_of. intros item _ Heq.
  by rewrite <- Heq, determineCategory_not_inherited in Hk.
Qed.

(** X14. For fewer than 2^32 items, what the statistics hold for a category
    is what the enriched items of that category give: no entry when there
    is none, otherwise their number, the number of owned ones, their
    difference, and as percentage the double of an integer nearest to the
    exact percentage of the two. The same holds of a region whose name is
    not an inherited one; a region with an inherited name, such as
    [constructor], never has an entry. *)
Theorem statistics_by_group (this : TrackerCore) (k : string) :
  Z.of_nat (length (enrichedItems this)) < 2 ^ 32 ->
  counters_of
    (keyed (fun item => determineCategory (Item.id item)) k
           (enrichedItems this))
    (calculateCategoryStats this !! k)
  /\ if inherited k then calculateRegionalStats this !! k = None
     else counters_of (keyed Item.region k (enrichedItems this))
                      (calculateRegionalStats this !! k).
Proof.
  intros Hlength. destruct (statistics_lookup this k) as [-> ->].
  split; [by apply counts_of_counters|].
  destruct (inherited k); [done | by apply counts_of_counters].
Qed.

Lemma statistics_by_group_witness :
  counters_of
    (keyed (fun item => determineCategory (Item.id item)) "RegionA"
           (enrichedItems tracker_23_of_40))
    (calculateCategoryStats tracker_23_of_40 !! "RegionA")
  /\ if inherited "RegionA"
     then calculateRegionalStats tracker_23_of_40 !! "RegionA" = None
     else counters_of (keyed Item.region "RegionA"
                             (enrichedItems tracker_23_of_40))
                      (calculateRegionalStats tracker_23_of_40 !! "RegionA").
Proof.
  apply (statistics_by_group tracker_23_of_40 "RegionA").
  cbn [tracker_23_of_40 with_items enrichedItems].
  rewrite length_app, !length_replicate. lia.
Defined.

(** X15. After [calculateStats] the overall counters add up
    ([total = owned + missing], with [0 <= owned <= total]), the items are
    untouched, and every category and every region that has an entry holds
    at least one item, adds up in the same way and is bounded by the overall
    counters. *)
Theorem calculateStats_counts (this : TrackerCore) :
  let s := stats (calculateStats this) in
  Stats.total s = Stats.owned s + Stats.missing s
  /\ 0 <= Stats.owned s <= Stats.total s
  /\ Stats.total s = Z.of_nat (length (enrichedItems this))
  /\ enrichedItems (calculateStats this) = enrichedItems this
  /\ forall k group,
      Stats.categories s !! k = Some group
      \/ (Stats.regions s ≫= (fun regions => regions !! k)) = Some group ->
      Group.total group = Group.owned group + Group.missing group
      /\ 1 <= Group.total group <= Stats.total s
      /\ 0 <= Group.owned group <= Stats.owned s.
Proof.
  cbn [calculateStats stats enrichedItems Stats.total Stats.owned
       Stats.missing Stats.categories Stats.regions mbind option_bind].
  pose proof (length_filter (fun item => Item.owned item = true)
                (enrichedItems this)) as Howned.
  split; [lia|]. split; [lia|]. split; [done|]. split; [done|].
  intros k group [Hgroup|Hgroup].
  - rewrite (proj1 (statistics_lookup this k)) in Hgroup.
    apply counts_of_bounds in Hgroup. lia.
  - rewrite (proj2 (statistics_lookup this k)) in Hgroup.
    destruct (inherited k); [done|].
    apply counts_of_bounds in Hgroup. lia.
Qed.

Lemma determineCategory_not_shadowed itemId category :
  category ∈ ["Bell Bearings"; "Cookbooks"; "Crystal Tears"; "Key Items"] ->
  determineCategory itemId ≠ category.
Proof.
  intros Hdead Heq. pose proof (determineCategory_values itemId) as Hvalues.
  rewrite Heq in Hvalues. clear Heq.
  repeat (apply elem_of_cons in Hdead as [->|Hdead];
          [repeat (apply elem_of_cons in Hvalues as [Hvalues|Hvalues];
                   [discriminate|]);
           by apply elem_of_nil in Hvalues|]).
  by apply elem_of_nil in Hdead.
Qed.

(** X16. The category statistics never have an entry for Bell Bearings,
    Cookbooks, Crystal Tears or Key Items, whatever the items are. *)
Theorem categories_never_counted (this : TrackerCore) :
  calculateCategoryStats this !! "Bell Bearings" = None
  /\ calculateCategoryStats this !! "Cookbooks" = None
  /\ calculateCategoryStats this !! "Crystal Tears" = None
  /\ calculateCategoryStats this !! "Key Items" = None.
Proof.
  assert (forall category,
             category ∈ ["Bell Bearings"; "Cookbooks"; "Crystal Tears";
                         "Key Items"] ->
             calculateCategoryStats this !! category = None) as Hnone.
  { intros category Hdead.
    rewrite (proj1 (statistics_lookup this category)). unfold counts_of.
    replace (keyed _ category (enrichedItems this)) with (@nil Item.t); [done|].
    unfold keyed. symmetry. induction (enrichedItems this) as [|item items IH];
      [done|].
    rewrite filter_cons_False; [done|].
    by apply determineCategory_not_shadowed. }
  repeat split; apply Hnone; repeat constructor.
Qed.

(** ** Filtering *)

Lemma filter_all {A} (P : A -> Prop) `{!forall x, Decision (P x)} (l : list A) :
  (forall x, P x) -> filter P l = l.
Proof.
  intros HP. induction l as [|x l IH]; [done|].
  by rewrite filter_cons_True, IH.
Qed.

Lemma filterItems_accepts (this : TrackerCore) (criteria : Criteria.t) :
  filterItems this criteria
  = filter (fun item => accepts criteria item = true) (enrichedItems this).
Proof.
  unfold filterItems, accepts.
  destruct (bool_decide (Criteria.status criteria = Some "owned")),
    (bool_decide (Criteria.status criteria = Some "missing")),
    (truthy (Criteria.region criteria)),
    (truthy (Criteria.category criteria)),
    (truthy (Criteria.search criteria));
    rewrite ?list_filter_filter;
    first [ apply list_filter_iff
          | symmetry; apply filter_all ];
    intros item; rewrite ?andb_true_iff, ?bool_decide_eq_true;
    cbn [andb]; tauto.
Qed.

(** X17. [filterItems] keeps exactly the items that pass the four tests
    together, in their order: the tests are conjunctive. Filtering the
    result again with the same criteria changes nothing. *)
Theorem filterItems_conjunctive (this : TrackerCore) (criteria : Criteria.t) :
  filterItems this criteria
  = filter (fun item => accepts criteria item = true) (enrichedItems this)
  /\ filterItems this criteria `sublist_of` enrichedItems this
  /\ filterItems (with_items this (filterItems this criteria)) criteria
     = filterItems this criteria.
Proof.
  split; [apply filterItems_accepts|]. split.
  - rewrite filterItems_accepts. apply sublist_filter.
  - rewrite (filterItems_accepts (with_items _ _)).
    cbn [with_items enrichedItems]. rewrite filterItems_accepts.
    by apply list_filter_filter_l.
Qed.

(** X18. A filter on the category Bell Bearings, Cookbooks, Crystal Tears
    or Key Items returns no item, whatever the items are. *)
Theorem filterItems_shadowed_category (this : TrackerCore)
    (criteria : Criteria.t) (category : string) :
  Criteria.category criteria = Some category ->
  category ∈ ["Bell Bearings"; "Cookbooks"; "Crystal Tears"; "Key Items"] ->
  filterItems this criteria = [].
Proof.
  intros Hcategory Hdead. rewrite filterItems_accepts.
  apply filter_none_of. intros item _. unfold accepts. rewrite Hcategory.
  assert (truthy (Some category) = true) as ->.
  { repeat (apply elem_of_cons in Hdead as [->|Hdead]; [done|]).
    by apply elem_of_nil in Hdead. }
  rewrite (bool_decide_eq_false_2
             (Some (determineCategory (Item.id item)) = Some category)).
  - rewrite andb_false_r. cbn [andb]. discriminate.
  - intros [= Heq].
    by apply (determineCategory_not_shadowed (Item.id item) category).
Qed.

Lemma filterItems_shadowed_category_witness :
  filterItems (with_items (sample_tracker [])
                 [enrich ∅ "Limgrave" "Church of Elleh" "400007F0"
                         sample_entry])
    {| Criteria.status := None; Criteria.region := None;
       Criteria.category := Some "Bell Bearings";
       Criteria.search := None |}
  = [].
Proof.
  apply (filterItems_shadowed_category _ _ "Bell Bearings");
    [reflexivity | repeat constructor].
Defined.

(** ** Objects as enumerations *)


Lemma assoc_cons {V} k k0 (v0 : V) o :
  assoc k ((k0, v0) :: o) = if decide (k0 = k) then Some v0 else assoc k o.
Proof.
  unfold assoc. cbn [list_find fst]. destruct (decide (k0 = k)); [done|].
  by destruct (list_find _ o) as [[i kv]|].
Qed.

Lemma assoc_app {V} k (o1 o2 : list (string * V)) :
  assoc k (o1 ++ o2)
  = match assoc k o1 with Some v => Some v | None => assoc k o2 end.
Proof.
  induction o1 as [|[k0 v0] o1 IH]; [done|].
  cbn [app]. rewrite !assoc_cons. by destruct (decide (k0 = k)).
Qed.



(** ** Grouping *)








(** The grouping at names that every object inherits: an item under the
    region [toString] is left out, a subregion [constructor] throws, and
    the region [__proto__] reaches [Object.prototype]. *)
Example groupByRegion_inherited_names :
  groupByRegion (sample_tracker [])
    (Some [enrich ∅ "toString" "SubA" "DEADBEEF" sample_entry;
           enrich ∅ "RegionA" "SubA" "DEADBEEF" sample_entry])
  = Grouped [("RegionA", [("SubA", [enrich ∅ "RegionA" "SubA" "DEADBEEF"
                                           sample_entry])])]
  /\ groupByRegion (sample_tracker [])
       (Some [enrich ∅ "toString" "name" "DEADBEEF" sample_entry])
     = Throws_TypeError
  /\ groupByRegion (sample_tracker [])
       (Some [enrich ∅ "RegionA" "constructor" "DEADBEEF" sample_entry])
     = Throws_TypeError
  /\ groupByRegion (sample_tracker [])
       (Some [enrich ∅ "__proto__" "SubA" "DEADBEEF" sample_entry])
     = Reaches_builtin "__proto__".
Proof. repeat split. Qed.

(** ** Statistics of a filtered view *)

(** X20. For a list of fewer than 2^32 items, what [calculateFilteredStats]
    holds for a region whose name is not an inherited one is what the items
    of that region in the list give: no entry when there is none, otherwise
    their number, the number of owned ones, their difference, and as
    percentage the double of an integer nearest to the exact percentage of
    the two. A region with an inherited name never has an entry. *)
Theorem calculateFilteredStats_lookup (items : list Item.t)
    (region : string) :
  Z.of_nat (length items) < 2 ^ 32 ->
  if inherited region then calculateFilteredStats items !! region = None
  else counters_of (keyed Item.region region items)
                   (calculateFilteredStats items !! region).
Proof.
  intros Hlength. unfold calculateFilteredStats.
  rewrite (with_percentage_fold Item.region).
  destruct (inherited region); [done | by apply counts_of_counters].
Qed.

Lemma calculateFilteredStats_lookup_witness :
  if inherited "RegionA"
  then calculateFilteredStats (enrichedItems tracker_23_of_40) !! "RegionA"
       = None
  else counters_of
         (keyed Item.region "RegionA" (enrichedItems tracker_23_of_40))
         (calculateFilteredStats (enrichedItems tracker_23_of_40)
            !! "RegionA").
Proof.
  apply (calculateFilteredStats_lookup (enrichedItems tracker_23_of_40)).
  cbn [tracker_23_of_40 with_items enrichedItems].
  rewrite length_app, !length_replicate. lia.
Defined.



(** ** The merged catalog *)

Lemma assoc_spread {V} k (base dlc : list (string * V)) :
  assoc k (spread base dlc)
  = match assoc k dlc with Some v => Some v | None => assoc k base end.
Proof.
  unfold spread. rewrite assoc_app.
  assert (assoc k ((fun kv => (fst kv, default (snd kv) (assoc (fst kv) dlc)))
                     <$> base)
          = (fun v => default v (assoc k dlc)) <$> assoc k base) as ->.
  { induction base as [|[k0 v0] base IH]; [done|].
    cbn [fmap list_fmap fst snd]. rewrite !assoc_cons, IH.
    by destruct (decide (k0 = k)) as [->|]. }
  destruct (assoc k base) as [v|] eqn:Hbase.
  - cbn. by destruct (assoc k dlc).
  - cbn [fmap option_fmap option_map].
    induction dlc as [|[k0 v0] dlc IH]; [done|].
    rewrite filter_cons. cbn [fst]. rewrite assoc_cons.
    destruct (decide (k0 = k)) as [->|Hne].
    + rewrite decide_True by done. by rewrite assoc_cons, decide_True.
    + destruct (decide (assoc k0 base = None)); [|done].
      by rewrite assoc_cons, decide_False.
Qed.

(** X22. [getMergedData] throws exactly when the location data is not
    loaded. Otherwise a region of the result has the subregions that the
    expansion data gives it, when expansion data is asked for, is loaded and
    has that region, and those of the base data in every other case: a
    region present in both takes the expansion's subregions alone. *)
Theorem getMergedData_lookup (this : DataLoader) (includeDLC : bool) :
  match getMergedData this includeDLC with
  | Thrown e =>
      locationData this = None /\ e = Error "Location data not loaded yet"
  | Returned merged =>
      exists base,
        locationData this = Some base
        /\ forall region,
            assoc region merged
            = match (if includeDLC then dlcData this else None) with
              | Some dlc =>
                  match assoc region dlc with
                  | Some subregions => Some subregions
                  | None => assoc region base
                  end
              | None => assoc region base
              end
  end.
Proof.
  unfold getMergedData. destruct (locationData this) as [base|]; [|done].
  destruct includeDLC, (dlcData this) as [dlc|]; eexists; split; try done.
  intros region. apply assoc_spread.
Qed.

(** ** Enriched items *)

(** X23. [crossReference] throws exactly when the location data is not
    loaded. Otherwise it returns one item for each entry of the merged
    catalog, in the order of enumeration; an item is owned exactly when its
    identifier is one of [inventoryIds], its type is never empty, and its
    link is the one that [generateWikiUrl] makes from its name. *)
Theorem crossReference_outcome (this : TrackerCore) (includeDLC : bool) :
  match crossReference this includeDLC with
  | Thrown e =>
      locationData (dataLoader this) = None
      /\ e = Error "Location data not loaded yet"
  | Returned items =>
      exists merged,
        getMergedData (dataLoader this) includeDLC = Returned merged
        /\ (fun item => (Item.region item, Item.subregion item, Item.id item))
             <$> items
           = fst <$> triples merged
        /\ Forall (fun item =>
                     (Item.owned item = true
                      <-> Item.id item ∈ inventoryIds this)
                     /\ Item.type item ≠ ""%string
                     /\ Item.wikiUrl item = generateWikiUrl (Item.name item))
                  items
  end.
Proof.
  destruct (getMergedData (dataLoader this) includeDLC) as [merged|e] eqn:Hmerged.
  - rewrite (crossReference_run _ _ _ Hmerged). exists merged.
    split; [done|]. split.
    + rewrite <- list_fmap_compose. apply list_fmap_ext.
      by intros i [[[region subregion] itemId] itemData] _.
    + apply Forall_fmap, Forall_forall.
      intros [[[region subregion] itemId] itemData] _.
      unfold enrich, Item.owned, Item.id, Item.type, Item.wikiUrl, Item.name.
      split; [|split; [|done]].
      * rewrite bool_decide_eq_true. apply elem_of_list_to_set.
      * by destruct (Entry.type itemData) as [[|c s]|].
  - unfold crossReference. rewrite Hmerged.
    unfold getMergedData in Hmerged.
    destruct (locationData (dataLoader this)) as [base|].
    + by destruct includeDLC, (dlcData (dataLoader this)).
    + by injection Hmerged as <-.
Qed.

(** ** The percentage when every item is owned *)

(** X24. When every item is owned, and there is at least one, the overall
    percentage is the double 100: the quotient of a count by itself is the
    double 1 for every count below 2^53, which the length of an array
    always is. *)
Theorem calculateStats_all_owned (this : TrackerCore) :
  enrichedItems this ≠ [] ->
  Forall (fun item => Item.owned item = true) (enrichedItems this) ->
  Z.of_nat (length (enrichedItems this)) < 2 ^ 53 ->
  let s := stats (calculateStats this) in
  Stats.percentage s = Number 100
  /\ Stats.owned s = Stats.total s
  /\ Stats.missing s = 0.
Proof.
  intros Hnonempty Hall Hlength.
  cbn [calculateStats stats Stats.percentage Stats.owned Stats.total
       Stats.missing].
  assert (filter (fun item => Item.owned item = true) (enrichedItems this)
          = enrichedItems this) as ->.
  { clear Hnonempty Hlength.
    induction Hall as [|item items Hitem _ IH]; [done|].
    rewrite filter_cons_True by done. by rewrite IH. }
  split; [|lia]. apply percentage_of_all.
  destruct (enrichedItems this); [done|]. cbn [length] in *. lia.
Qed.

Lemma calculateStats_all_owned_witness :
  Stats.percentage
    (stats (calculateStats
              (with_items (sample_tracker ["DEADBEEF"%string])
                 [{| Item.id := "DEADBEEF"; Item.name := "Test Sword";
                     Item.owned := true; Item.region := "RegionA";
                     Item.subregion := "SubA"; Item.type := "unknown";
                     Item.hint := ""; Item.farmable := false;
                     Item.wikiUrl := generateWikiUrl "Test Sword" |}])))
  = Number 100.
Proof.
  apply (calculateStats_all_owned
           (with_items (sample_tracker ["DEADBEEF"%string])
              [{| Item.id := "DEADBEEF"; Item.name := "Test Sword";
                  Item.owned := true; Item.region := "RegionA";
                  Item.subregion := "SubA"; Item.type := "unknown";
                  Item.hint := ""; Item.farmable := false;
                  Item.wikiUrl := generateWikiUrl "Test Sword" |}])).
  - discriminate.
  - repeat constructor.
  - cbn [with_items enrichedItems length]. lia.
Defined.

(** ** Identifiers read back as numbers *)

Lemma hex_value_upper d :
  (d < 16)%N -> hex_value (upper_hex_digit d) = Some (Z.of_N d).
Proof.
  intros Hd. destruct d as [|p]; [done|].
  repeat (destruct p as [p|p|]; try reflexivity; try lia).
Qed.

Lemma parseInt16_upper d1 d2 s :
  (d1 < 16)%N -> (d2 < 16)%N ->
  parseInt16 (String (upper_hex_digit d1) (String (upper_hex_digit d2) s))
  = parse_digits16
      (String (upper_hex_digit d1) (String (upper_hex_digit d2) s)) None.
Proof.
  intros Hd1 Hd2.
  destruct d1 as [|p1]; [|repeat (destruct p1 as [p1|p1|]; try lia)];
    (destruct d2 as [|p2]; [|repeat (destruct p2 as [p2|p2|]; try lia)]);
    unfold parseInt16; cbn [upper_hex_digit trim_start parse_digits16];
    unfold is_white_space, hex_value; simpl;
    match goal with
    | |- context [parse_digits16 s ?acc] =>
        destruct (parse_digits16 s acc) as [[|v|v]|]; reflexivity
    end.
Qed.

Lemma parse_digits16_upper d s acc :
  (d < 16)%N ->
  parse_digits16 (String (upper_hex_digit d) s) acc
  = parse_digits16 s (Some (16 * default 0 acc + Z.of_N d)).
Proof. intros Hd. cbn [parse_digits16]. by rewrite hex_value_upper. Qed.

Lemma parseInt16_hex8 n :
  (n < 2 ^ 32)%N -> parseInt16 (hex8 n) = Some (Z.of_N n).
Proof.
  intros Hn. unfold hex8. cbn [fmap list_fmap string_of_list_ascii].
  change (16 ^ 7)%N with 268435456%N. change (16 ^ 6)%N with 16777216%N.
  change (16 ^ 5)%N with 1048576%N. change (16 ^ 4)%N with 65536%N.
  change (16 ^ 3)%N with 4096%N. change (16 ^ 2)%N with 256%N.
  change (16 ^ 1)%N with 16%N. change (16 ^ 0)%N with 1%N.
  change (2 ^ 32)%N with 4294967296%N in Hn.
  rewrite parseInt16_upper by (apply N.mod_lt; done).
  rewrite !parse_digits16_upper by (apply N.mod_lt; done).
  cbn [parse_digits16 default from_option id]. f_equal.
  rewrite !N2Z.inj_mod, !N2Z.inj_div. cbn [Z.of_N].
  assert (0 <= Z.of_N n < 4294967296) as Hz by lia.
  revert Hz. generalize (Z.of_N n). clear n Hn. intros z Hz.
  assert (z / 268435456 = z / 16777216 / 16) as ->
    by by rewrite Z.div_div by lia.
  assert (z / 16777216 = z / 1048576 / 16) as ->
    by by rewrite Z.div_div by lia.
  assert (z / 1048576 = z / 65536 / 16) as -> by by rewrite Z.div_div by lia.
  assert (z / 65536 = z / 4096 / 16) as -> by by rewrite Z.div_div by lia.
  assert (z / 4096 = z / 256 / 16) as -> by by rewrite Z.div_div by lia.
  assert (z / 256 = z / 16 / 16) as -> by by rewrite Z.div_div by lia.
  Z.to_euclidean_division_equations. lia.
Qed.

Lemma le32_bound (record : bytes) : (le32 record < 2 ^ 32)%N.
Proof.
  unfold le32. change (2 ^ 32)%N with 4294967296%N.
  destruct (take 4 record) as [|b0 [|b1 [|b2 [|b3 [|b4 rest]]]]];
    cbn [fmap list_fmap]; try lia.
  pose proof (Byte.to_N_bounded b0). pose proof (Byte.to_N_bounded b1).
  pose proof (Byte.to_N_bounded b2). pose proof (Byte.to_N_bounded b3).
  lia.
Qed.

(** X25. The identifier of a record of four bytes or more always reads back
    as a number: [parseInt] of it in base 16 is the little-endian value of
    the first four bytes, which is below 2^32, so [determineCategory] never
    sees [NaN] on such an identifier; it answers Weapons exactly when that
    value lies between 0x00F42400 and 0x017D7840. *)
Theorem parseInt16_convertIdToHex (record : bytes) :
  (4 <= length record)%nat ->
  parseInt16 (convertIdToHex record) = Some (Z.of_N (le32 record))
  /\ 0 <= Z.of_N (le32 record) < 2 ^ 32
  /\ (determineCategory (convertIdToHex record) = "Weapons"%string
      <-> 0x00F42400 <= Z.of_N (le32 record) <= 0x017D7840).
Proof.
  intros Hlen. pose proof (le32_bound record) as Hbound.
  assert (parseInt16 (convertIdToHex record) = Some (Z.of_N (le32 record)))
    as Hparse.
  { rewrite convertIdToHex_hex8 by done. by apply parseInt16_hex8. }
  split; [done|]. split.
  { change (2 ^ 32)%N with 4294967296%N in Hbound.
    change (2 ^ 32) with 4294967296. lia. }
  unfold determineCategory. rewrite Hparse.
  generalize (Z.of_N (le32 record)). intros v.
  destruct (between (Some v) 0x00F42400 0x017D7840) eqn:Hweapons;
    cbn [between] in Hweapons.
  - split; [intros _ | reflexivity].
    apply andb_true_iff in Hweapons. lia.
  - split.
    + destruct (between (Some v) 0x10000000 0x14000000); [discriminate|].
      destruct (between (Some v) 0x20000000 0x24000000); [discriminate|].
      destruct (between (Some v) 0x40000000 0x48000000); [discriminate|].
      destruct (between (Some v) 0x80000000 0x88000000); [discriminate|].
      destruct (between (Some v) 0x90000000 0x98000000); [discriminate|].
      destruct (between (Some v) 0x400007F0 0x40000850); [discriminate|].
      destruct (between (Some v) 0x40002400 0x40002500); [discriminate|].
      destruct (between (Some v) 0x40000BC0 0x40000BF0); [discriminate|].
      destruct (between (Some v) 0x40000000 0x40001000); discriminate.
    + intros Hrange. exfalso. clear -Hweapons Hrange.
      apply andb_false_iff in Hweapons. lia.
Qed.

Lemma parseInt16_convertIdToHex_witness :
  parseInt16 (convertIdToHex [x40; x42; x0f; x00]%byte)
  = Some (Z.of_N (le32 [x40; x42; x0f; x00]%byte))
  /\ 0 <= Z.of_N (le32 [x40; x42; x0f; x00]%byte) < 2 ^ 32
  /\ (determineCategory (convertIdToHex [x40; x42; x0f; x00]%byte)
      = "Weapons"%string
      <-> 0x00F42400 <= Z.of_N (le32 [x40; x42; x0f; x00]%byte)
          <= 0x017D7840).
Proof.
  apply (parseInt16_convertIdToHex [x40; x42; x0f; x00]%byte).
  cbn [length]. lia.
Defined.

(** ** Links *)

Lemma list_ascii_of_string_app s1 s2 :
  list_ascii_of_string (s1 +:+ s2)
  = list_ascii_of_string s1 ++ list_ascii_of_string s2.
Proof. induction s1 as [|c s1 IH]; [done|]. simpl. by f_equal. Qed.

Lemma spaces_to_plus_no_space s :
  " "%char ∉ list_ascii_of_string (spaces_to_plus s).
Proof.
  induction s as [|c s IH]; cbn [spaces_to_plus list_ascii_of_string].
  - apply not_elem_of_nil.
  - apply not_elem_of_cons. split; [|done].
    destruct (Ascii.eqb_spec c " ") as [->|Hne]; [done | congruence].
Qed.

Lemma length_spaces_to_plus s :
  String.length (spaces_to_plus s) = String.length s.
Proof. induction s as [|c s IH]; [done|]. simpl. by f_equal. Qed.

Lemma length_list_ascii_of_string s :
  length (list_ascii_of_string s) = String.length s.
Proof. induction s as [|c s IH]; [done|]. simpl. by f_equal. Qed.

Lemma span_digits_length l digits rest :
  span_digits l = (digits, rest) ->
  (length digits + length rest = length l)%nat.
Proof.
  revert digits rest. induction l as [|c l IH]; intros digits rest;
    cbn [span_digits].
  - by intros [= <- <-].
  - destruct (is_digit c).
    + destruct (span_digits l) as [ds r]. intros [= <- <-].
      specialize (IH ds r eq_refl). cbn [length]. lia.
    + by intros [= <- <-].
Qed.

Lemma length_strip_upgrade itemName :
  (String.length (strip_upgrade itemName) <= String.length itemName)%nat.
Proof.
  unfold strip_upgrade.
  destruct (span_digits (rev (list_ascii_of_string itemName)))
    as [digits rest] eqn:Hspan.
  apply span_digits_length in Hspan.
  rewrite length_rev, length_list_ascii_of_string in Hspan.
  destruct digits as [|d digits]; [done|].
  destruct rest as [|c1 rest]; [done|].
  destruct (Ascii.eqb_spec c1 "+") as [->|];
    [|by destruct c1 as [[] [] [] [] [] [] [] []]].
  destruct rest as [|c2 rest]; [done|].
  destruct (Ascii.eqb_spec c2 " ") as [->|];
    [|by destruct c2 as [[] [] [] [] [] [] [] []]].
  rewrite <- (length_list_ascii_of_string (string_of_list_ascii _)).
  rewrite list_ascii_of_string_of_list_ascii, length_rev.
  cbn [length] in Hspan. lia.
Qed.

(** X26. A link made by [generateWikiUrl] contains no space, and is the
    address of the wiki followed by at most as many characters as the name
    has. *)
Theorem generateWikiUrl_no_space (itemName : string) :
  (" "%char ∉ list_ascii_of_string (generateWikiUrl itemName))
  /\ exists urlName,
      generateWikiUrl itemName
      = ("https://eldenring.wiki.fextralife.com/" +:+ urlName)%string
      /\ (String.length urlName <= String.length itemName)%nat.
Proof.
  unfold generateWikiUrl. split.
  - rewrite list_ascii_of_string_app. intros Hin.
    apply elem_of_app in Hin as [Hin|Hin].
    + cbn in Hin.
      repeat (apply elem_of_cons in Hin as [Hin|Hin]; [discriminate|]).
      by apply elem_of_nil in Hin.
    + by apply spaces_to_plus_no_space in Hin.
  - eexists. split; [reflexivity|]. rewrite length_spaces_to_plus.
    apply length_strip_upgrade.
Qed.

Lemma span_digits_run (digits rest : list ascii) :
  Forall (fun c => is_digit c = true) digits ->
  span_digits (digits ++ "+"%char :: rest) = (digits, "+"%char :: rest).
Proof.
  induction 1 as [|c digits Hc _ IH]; [done|].
  cbn [app span_digits]. by rewrite Hc, IH.
Qed.

(** X27. An upgrade level at the end of a name, a space, a plus sign and
    one digit or more, is left out of the link: the link of such a name is
    the link text of what comes before the level. *)
Theorem generateWikiUrl_upgrade_level (name digits : string) :
  digits ≠ ""%string ->
  Forall (fun c => is_digit c = true) (list_ascii_of_string digits) ->
  generateWikiUrl (name +:+ " +" +:+ digits)
  = ("https://eldenring.wiki.fextralife.com/" +:+ spaces_to_plus name)%string.
Proof.
  intros Hnonempty Hdigits. unfold generateWikiUrl. f_equal. f_equal.
  unfold strip_upgrade.
  rewrite !list_ascii_of_string_app. cbn [list_ascii_of_string app].
  rewrite rev_app_distr. cbn [rev app]. rewrite <- !app_assoc. cbn [app].
  rewrite span_digits_run.
  2: { apply Forall_forall. intros c Hc. apply list_elem_of_In in Hc.
       apply in_rev in Hc. apply list_elem_of_In in Hc.
       by apply (proj1 (Forall_forall _ _) Hdigits). }
  destruct (rev (list_ascii_of_string digits)) as [|d ds] eqn:Hrev.
  { destruct digits; [done|]. cbn in Hrev. by destruct (rev _). }
  by rewrite rev_involutive, string_of_list_ascii_of_string.
Qed.

Lemma generateWikiUrl_upgrade_level_witness :
  generateWikiUrl ("Short Sword" +:+ " +" +:+ "10")
  = ("https://eldenring.wiki.fextralife.com/"
       +:+ spaces_to_plus "Short Sword")%string.
Proof.
  apply generateWikiUrl_upgrade_level; [discriminate | repeat constructor].
Defined.
